(** * Share-allocation notebooks: equal-weight index fund and quantitative momentum

    A shallow embedding of the two notebooks of the repository:
    - the equal-weight S&P 500 notebook (table [df], columns ticker,
      stock_price, market_cap, num_of_shares_to_buy);
    - [002_quantitative_momentum_strategy.ipynb] (tables [df] and [hqm_df]).

    Conventions of the embedding.
    - A pandas DataFrame is a list of row records, in row order.  Every loop of
      the notebooks visits each label of the index once, so rows are addressed
      by position.
    - Numbers are read in two ways.  What does not depend on rounding (the
      rows a loop visits, the cells it leaves alone, the exception that stops
      a run, counts and the order of values) is stated on exact rationals
      ([Q], compared with [==]; Python [int]s are injected into [Q]).  The
      value a cell computes is stated on binary64 floats (module
      [Binary64]): a quotient is rounded to the nearest double,
      [math.floor] takes the floor of the rounded quotient and raises on an
      infinity and on a NaN.
    - A JSON [null] (Python [None]) and [pd.NA] are [None] of an option type;
      a missing value that a [float64] column stores as NaN is a NaN of
      [Binary64].
    - A cell that raises stops the run: every stage returns the table as it was
      left together with the exception, if any.
    - A request is made with the string [",".join(group)], and the symbols
      looked up in the answer are those of [symbol_string.split(",")].
    - The library calls of the notebooks ([range], slices, [math.floor],
      [statistics.mean], [stats.percentileofscore], [dropna], [sort_values])
      are modelled after the libraries: they are what the cells compute
      with. *)

From Stdlib Require Import ZArith QArith Qround Qpower Lia Lqa Floats.
From Stdlib Require Uint63.
From stdpp Require Import base list sorting gmap strings.

Local Open Scope Z_scope.

(** A decimal literal of a float stands for the nearest double, as in
    Python. *)
Local Set Warnings "-inexact-float".

#[global] Instance Q_inhabited : Inhabited Q := populate 0%Q.

(** ** Python built-ins used by the notebooks *)
Module Py.

Inductive exn : Set :=
| AssertionError
| KeyError
| OverflowError
| StatisticsError
| TypeError
| ValueError
| ZeroDivisionError.

Inductive result (A : Type) : Type :=
| Ok (a : A)
| Raise (e : exn).
Arguments Ok {A} a.
Arguments Raise {A} e.

Definition bind {A B} (r : result A) (f : A → result B) : result B :=
  match r with
  | Ok a => f a
  | Raise e => Raise e
  end.

(** A statement that works on a state [S] in place: the state it leaves and
    the exception that interrupted it, if any. *)
Definition outcome (S : Type) : Type := S * option exn.

(** [for x in xs: body], stopped by the first exception. *)
Fixpoint for_each {I S} (body : I → S → outcome S) (xs : list I) (s : S) : outcome S :=
  match xs with
  | [] => (s, None)
  | x :: xs' =>
      match body x s with
      | (s', None) => for_each body xs' s'
      | (s', Some e) => (s', Some e)
      end
  end.

(** Two statements in sequence. *)
Definition and_then {S} (first second : S → outcome S) (s : S) : outcome S :=
  match first s with
  | (s', None) => second s'
  | (s', Some e) => (s', Some e)
  end.

(** [len(range(start, stop, step))] for a non-zero step. *)
Definition range_len (start stop step : Z) : Z :=
  if 0 <? step then
    if start <? stop then (stop - start - 1) / step + 1 else 0
  else
    if stop <? start then (start - stop - 1) / (- step) + 1 else 0.

(** [range(start, stop, step)]; a zero step raises [ValueError]. *)
Definition range (start stop step : Z) : result (list Z) :=
  if step =? 0 then Raise ValueError
  else Ok ((λ k : nat, start + Z.of_nat k * step)
             <$> seq 0 (Z.to_nat (range_len start stop step))).

(** Normalisation of one bound of a slice over a sequence of length [len]:
    a negative bound counts from the end, and both are clamped. *)
Definition slice_index (len i : Z) : Z :=
  if i <? 0 then Z.max (i + len) 0 else Z.min i len.

(** [l[i:j]] *)
Definition slice {A} (l : list A) (i j : Z) : list A :=
  let len := Z.of_nat (length l) in
  let lo := slice_index len i in
  let hi := slice_index len j in
  take (Z.to_nat (hi - lo)) (drop (Z.to_nat lo) l).

(** [x < y] on numbers. *)
Definition Qltb (x y : Q) : bool := negb (Qle_bool y x).

(** [len(l)] as a number. *)
Definition len {A} (l : list A) : Q := inject_Z (Z.of_nat (length l)).

(** [sum(xs)] *)
Definition sum (xs : list Q) : Q := foldr Qplus 0%Q xs.

(** [math.floor(x)] *)
Definition floor (x : Q) : Z := Qfloor x.

(** [x / y] on exact numbers; a zero divisor raises [ZeroDivisionError].
    The quotient is not rounded: the value a cell computes from a quotient is
    stated with the division of [Binary64]. *)
Definition truediv (x y : Q) : result Q :=
  if Qeq_bool y 0 then Raise ZeroDivisionError else Ok (x / y)%Q.

(** [statistics.mean(xs)]; no data raises [StatisticsError]. *)
Definition mean (xs : list Q) : result Q :=
  match xs with
  | [] => Raise StatisticsError
  | _ => Ok (sum xs / len xs)%Q
  end.

End Py.
Import Py.

(** ** The batcher (the same cell in both notebooks)

<<
def chunks_generator(lst, n):
    for i in range(0, len(lst), n):
        yield lst[i:i + n]
>>
    The generator is consumed by [list(...)]; the model is the list of the
    values it yields, or the exception raised when it is first advanced. *)
Definition chunks_generator {A} (lst : list A) (n : Z) : result (list (list A)) :=
  bind (range 0 (Z.of_nat (length lst)) n)
       (λ idx, Ok ((λ i, slice lst i (i + n)) <$> idx)).

(** ** Strings of symbols

    [symbol_strings = [",".join(symbol_groups[i]) for i in range(len(symbol_groups))]]
    and, in the loops, [symbol_string.split(",")]. *)
Module Str.

(** [sep.join(l)] *)
Fixpoint join (sep : string) (l : list string) : string :=
  match l with
  | [] => EmptyString
  | x :: l' =>
      match l' with
      | [] => x
      | _ :: _ => String.append x (String.append sep (join sep l'))
      end
  end.

(** [s.split(sep)] for a separator of one character: one more field than
    there are separators in [s]. *)
Fixpoint split (sep : Ascii.ascii) (s : string) : list string :=
  match s with
  | EmptyString => [EmptyString]
  | String c s' =>
      if Ascii.eqb c sep then EmptyString :: split sep s'
      else
        match split sep s' with
        | [] => [String c EmptyString]
        | x :: xs => String c x :: xs
        end
  end.

(** [c in s] *)
Fixpoint contains (c : Ascii.ascii) (s : string) : bool :=
  match s with
  | EmptyString => false
  | String c' s' => Ascii.eqb c' c || contains c s'
  end.

(** The character [","]. *)
Definition comma : Ascii.ascii :=
  Ascii.Ascii false false true true false true false false.

End Str.

(** [symbol_strings = [",".join(symbol_groups[i]) for i in range(len(symbol_groups))]] *)
Definition symbol_strings (symbol_groups : list (list string)) : list string :=
  Str.join (String Str.comma EmptyString) <$> symbol_groups.

(** ** [scipy.stats] *)
Module Scipy.

(** [np.count_nonzero] of a boolean array. *)
Definition count_nonzero (bs : list bool) : Q :=
  len (filter (λ b : bool, b = true) bs).

(** [np.count_nonzero(a < score)] and [np.count_nonzero(a <= score)] *)
Definition count_lt (a : list Q) (score : Q) : Q :=
  count_nonzero ((λ x, Qltb x score) <$> a).

Definition count_le (a : list Q) (score : Q) : Q :=
  count_nonzero ((λ x, Qle_bool x score) <$> a).

(** [stats.percentileofscore(a, score)] with the default [kind='rank']:
<<
    left = np.count_nonzero(a < score)
    right = np.count_nonzero(a <= score)
    pct = (right + left + (1 if right > left else 0)) * 50.0/n
>>
    The notebook calls it with a column of the table a row of which is being
    ranked, so [n >= 1] there.  On exact numbers the counts are those of the
    code and the quotient is not rounded; the float the call returns is
    [Binary64.Scipy.percentileofscore]. *)
Definition percentileofscore (a : list Q) (score : Q) : Q :=
  let n := len a in
  let left := count_lt a score in
  let right := count_le a score in
  ((right + left + (if Qltb left right then 1 else 0)) * 50 / n)%Q.

End Scipy.

(** ** NumPy's default argsort

    [kind='quicksort'] on an array of Python objects runs the generic
    introsort of npysort on an index array [tosort]: median-of-three
    quicksort on segments longer than [SMALL_QUICKSORT], insertion sort on the
    rest, heapsort once the depth allowance is used up.  Positions in
    [tosort] are integers ([pr] may fall one below [pl]); loops carry fuel and
    give [None] when it runs out. *)
Module Numpy.
Section npysort.

Variable v : list Q.

(** A segment is partitioned while [pr - pl] exceeds this bound, that is
    from seventeen entries on; shorter segments go to the insertion sort. *)
Definition SMALL_QUICKSORT : Z := 15.

(** [cmp(v + a*elsize, v + b*elsize, arr) < 0] *)
Definition less (a b : nat) : bool := Qltb (v !!! a) (v !!! b).

Definition at_ (t : list nat) (p : Z) : nat := t !!! Z.to_nat p.

Definition put (t : list nat) (p : Z) (x : nat) : list nat := <[Z.to_nat p := x]> t.

Definition INTP_SWAP (t : list nat) (p q : Z) : list nat :=
  put (put t p (at_ t q)) q (at_ t p).

Definition npy_get_msb (num : Z) : Z := Z.log2 num.

(** [do { ++pi; } while (less(pi[0], vp));] *)
Fixpoint scan_up (fuel : nat) (t : list nat) (vp : nat) (pi : Z) : option Z :=
  match fuel with
  | O => None
  | S fuel' =>
      let pi := pi + 1 in
      if less (at_ t pi) vp then scan_up fuel' t vp pi else Some pi
  end.

(** [do { --pj; } while (less(vp, pj[0]));] *)
Fixpoint scan_down (fuel : nat) (t : list nat) (vp : nat) (pj : Z) : option Z :=
  match fuel with
  | O => None
  | S fuel' =>
      let pj := pj - 1 in
      if less vp (at_ t pj) then scan_down fuel' t vp pj else Some pj
  end.

(** The [for (;;)] loop of the partition; gives the array and the final [pi]. *)
Fixpoint partition_loop (fuel : nat) (t : list nat) (vp : nat) (pi pj : Z)
  : option (list nat * Z) :=
  match fuel with
  | O => None
  | S fuel' =>
      pi ← scan_up (S (length t)) t vp pi;
      pj ← scan_down (S (length t)) t vp pj;
      if pj <=? pi then Some (t, pi)
      else partition_loop fuel' (INTP_SWAP t pi pj) vp pi pj
  end.

(** [while ((pr - pl) > SMALL_QUICKSORT)]: partition, push the larger part
    with the decremented depth, go on with the smaller one. *)
Fixpoint partition_while (fuel : nat) (t : list nat) (pl pr : Z)
    (stack : list (Z * Z * Z)) (cdepth : Z)
  : option (list nat * Z * Z * list (Z * Z * Z) * Z) :=
  match fuel with
  | O => None
  | S fuel' =>
      if SMALL_QUICKSORT <? pr - pl then
        let pm := pl + Z.shiftr (pr - pl) 1 in
        let t := if less (at_ t pm) (at_ t pl) then INTP_SWAP t pm pl else t in
        let t := if less (at_ t pr) (at_ t pm) then INTP_SWAP t pr pm else t in
        let t := if less (at_ t pm) (at_ t pl) then INTP_SWAP t pm pl else t in
        let vp := at_ t pm in
        let pj := pr - 1 in
        let t := INTP_SWAP t pm pj in
        '(t, pi) ← partition_loop (S (length t)) t vp pl pj;
        let pk := pr - 1 in
        let t := INTP_SWAP t pi pk in
        let cdepth := cdepth - 1 in
        if pi - pl <? pr - pi then
          partition_while fuel' t pl (pi - 1) ((pi + 1, pr, cdepth) :: stack) cdepth
        else
          partition_while fuel' t (pi + 1) pr ((pl, pi - 1, cdepth) :: stack) cdepth
      else Some (t, pl, pr, stack, cdepth)
  end.

(** [while (pj > pl && less(vp, pk[0])) { pj[0] = pk[0]; pj--; pk--; }] *)
Fixpoint insert_shift (fuel : nat) (t : list nat) (vp : nat) (pj pk pl : Z)
  : option (list nat * Z) :=
  match fuel with
  | O => None
  | S fuel' =>
      if (pl <? pj) && less vp (at_ t pk)
      then insert_shift fuel' (put t pj (at_ t pk)) vp (pj - 1) (pk - 1) pl
      else Some (t, pj)
  end.

(** [for (pi = pl + 1; pi <= pr; ++pi)] of the insertion sort. *)
Fixpoint insertion_sort (fuel : nat) (t : list nat) (pi pl pr : Z) : option (list nat) :=
  match fuel with
  | O => None
  | S fuel' =>
      if pi <=? pr then
        let vi := at_ t pi in
        '(t, pj) ← insert_shift (S (length t)) t vi pi (pi - 1) pl;
        insertion_sort fuel' (put t pj vi) (pi + 1) pl pr
      else Some t
  end.

(** Heapsort of the [n] entries from [pl]: [a = tosort - 1] is indexed from 1,
    so [a[k]] is position [pl - 1 + k]. *)
Fixpoint sift (fuel : nat) (t : list nat) (a : Z) (tmp : nat) (i j n : Z)
  : option (list nat * Z) :=
  match fuel with
  | O => None
  | S fuel' =>
      if j <=? n then
        let j := if (j <? n) && less (at_ t (a + j)) (at_ t (a + j + 1)) then j + 1 else j in
        if less tmp (at_ t (a + j))
        then sift fuel' (put t (a + i) (at_ t (a + j))) a tmp j (j + j) n
        else Some (t, i)
      else Some (t, i)
  end.

(** [for (l = n >> 1; l > 0; --l)] *)
Fixpoint heap_build (fuel : nat) (t : list nat) (a l n : Z) : option (list nat) :=
  match fuel with
  | O => None
  | S fuel' =>
      if 0 <? l then
        let tmp := at_ t (a + l) in
        '(t, i) ← sift (S (length t)) t a tmp l (Z.shiftl l 1) n;
        heap_build fuel' (put t (a + i) tmp) a (l - 1) n
      else Some t
  end.

(** [for (; n > 1;)] *)
Fixpoint heap_drain (fuel : nat) (t : list nat) (a n : Z) : option (list nat) :=
  match fuel with
  | O => None
  | S fuel' =>
      if 1 <? n then
        let tmp := at_ t (a + n) in
        let t := put t (a + n) (at_ t (a + 1)) in
        let n := n - 1 in
        '(t, i) ← sift (S (length t)) t a tmp 1 2 n;
        heap_drain fuel' (put t (a + i) tmp) a n
      else Some t
  end.

Definition npy_aheapsort (t : list nat) (pl n : Z) : option (list nat) :=
  let a := pl - 1 in
  t ← heap_build (S (length t)) t a (Z.shiftr n 1) n;
  heap_drain (S (length t)) t a n.

(** The outer [while (1)] with its stack of pending segments. *)
Fixpoint quicksort_loop (fuel : nat) (t : list nat) (pl pr : Z)
    (stack : list (Z * Z * Z)) (cdepth : Z) : option (list nat) :=
  match fuel with
  | O => None
  | S fuel' =>
      '(t, stack) ←
        (if cdepth <? 0 then
           t ← npy_aheapsort t pl (pr - pl + 1); Some (t, stack)
         else
           '(t, pl, pr, stack, _) ← partition_while (S (length t)) t pl pr stack cdepth;
           t ← insertion_sort (S (S (length t))) t (pl + 1) pl pr;
           Some (t, stack));
      match stack with
      | [] => Some t
      | (pl, pr, cdepth) :: stack => quicksort_loop fuel' t pl pr stack cdepth
      end
  end.

Definition npy_aquicksort : option (list nat) :=
  let num := Z.of_nat (length v) in
  quicksort_loop (S (S (length v))) (seq 0 (length v)) 0 (num - 1) []
                 (npy_get_msb num * 2).

End npysort.

(** [a.argsort(kind='quicksort')] *)
Definition argsort_quicksort (a : list Q) : list nat := default [] (npy_aquicksort a).

End Numpy.

(** ** What the argsort has to establish

    The predicates in which the sort is specified: the order of two entries
    of [tosort], the positions a step may touch, and the segments that are
    still to be sorted. *)
Module Npysort.
Import Numpy.
Section spec.
Variable v : list Q.

(** The order of two entries of the index array. *)
Definition kle (a b : nat) : Prop := (v !!! a <= v !!! b)%Q.

(** [t'] rearranges [t] and agrees with it outside the positions [lo..hi]. *)
Definition frame (lo hi : Z) (t t' : list nat) : Prop :=
  t' ≡ₚ t ∧ ∀ p, 0 ≤ p → p < lo ∨ hi < p → at_ t' p = at_ t p.

(** The entries at [lo..hi] are in order. *)
Definition sorted_on (t : list nat) (lo hi : Z) : Prop :=
  ∀ p q, lo ≤ p → p ≤ q → q ≤ hi → kle (at_ t p) (at_ t q).

(** The heap of the entries [a[1..n]] ([a[k]] is position [a + k]): every
    entry whose parent [a[k / 2]] is at [lo] or after, the parent [hole]
    apart, is at most its parent. *)
Definition heap_edges (t : list nat) (a lo n hole : Z) : Prop :=
  ∀ c, 2 ≤ c → c ≤ n → lo ≤ c / 2 → c / 2 ≠ hole →
       kle (at_ t (a + c)) (at_ t (a + c / 2)).

(** A segment of positions, both ends included, and the segments still to be
    sorted. *)
Definition within (X : Z * Z) (p : Z) : Prop := X.1 ≤ p ≤ X.2.

Definition apart (X Y : Z * Z) : Prop := X.2 < Y.1 ∨ Y.2 < X.1.

Fixpoint disjoint (P : list (Z * Z)) : Prop :=
  match P with
  | [] => True
  | X :: P' => Forall (apart X) P' ∧ disjoint P'
  end.

(** Two entries are in order unless a segment to be sorted holds both. *)
Definition ordered (P : list (Z * Z)) (t : list nat) : Prop :=
  ∀ p q, 0 ≤ p → p < q → q < Z.of_nat (length t) →
         ¬ Exists (λ X, within X p ∧ within X q) P → kle (at_ t p) (at_ t q).

(** The state of the sort: [t] rearranges the positions of [v], the segments
    to be sorted are not empty and apart from each other, and nothing else
    is left to sort. *)
Definition pending (P : list (Z * Z)) (t : list nat) : Prop :=
  t ≡ₚ seq 0 (length v)
  ∧ Forall (λ X : Z * Z, 0 ≤ X.1 ∧ X.1 ≤ X.2 ∧ X.2 < Z.of_nat (length v)) P
  ∧ disjoint P
  ∧ ordered P t.

Definition weight (P : list (Z * Z)) : Z := foldr (λ X w, X.2 - X.1 + 1 + w) 0 P.

(** The segments of the stack. *)
Definition segments (stack : list (Z * Z * Z)) : list (Z * Z) :=
  (λ s : Z * Z * Z, (s.1.1, s.1.2)) <$> stack.

End spec.
End Npysort.

(** ** pandas *)
Module Pandas.
Section frame.

Context {row : Type}.

(** [df.dropna(subset=[col])]: the rows whose [col] is not missing. *)
Definition dropna (col : row → option Q) (df : list row) : list row :=
  filter (λ r, is_Some (col r)) df.

(** [nargsort(items, kind, ascending=False, na_position='last')]: the values
    that are not missing are reversed together with their positions,
    argsorted by [kind], and the outcome is reversed again; the positions of
    the missing values follow. *)
Definition nargsort (kind : list Q → list nat) (items : list (option Q)) : list nat :=
  let cells := zip (seq 0 (length items)) items in
  let present := omap (λ c : nat * option Q, pair c.1 <$> c.2) cells in
  let nan_idx := omap (λ c : nat * option Q, if c.2 is None then Some c.1 else None) cells in
  let non_nans := reverse present.*2 in
  let non_nan_idx := reverse present.*1 in
  let indexer := reverse (omap (λ k, non_nan_idx !! k) (kind non_nans)) in
  indexer ++ nan_idx.

(** [df.sort_values(by=col, ascending=False, kind=kind)] *)
Definition sort_values (kind : list Q → list nat) (col : row → option Q)
    (df : list row) : list row :=
  omap (λ i, df !! i) (nargsort kind (col <$> df)).

(** Rows in the order of a descending sort on [col]: the first holds a value
    at least as high as the second. *)
Definition col_ge (col : row → option Q) (r1 r2 : row) : Prop :=
  match col r1, col r2 with
  | Some x, Some y => (y <= x)%Q
  | _, _ => False
  end.

End frame.

(** What [nargsort] relies on from [kind] run on the array [a]: the outcome
    rearranges the positions of [a], and the values of [a] do not decrease
    along it. *)
Definition argsorts (kind : list Q → list nat) (a : list Q) : Prop :=
  kind a ≡ₚ seq 0 (length a) ∧ Sorted (λ i j, (a !!! i <= a !!! j)%Q) (kind a).

(** The default [kind] of [sort_values]. *)
Definition quicksort : list Q → list nat := Numpy.argsort_quicksort.

End Pandas.

(** ** Number of shares to buy (the same cell for each of the three tables)

<<
position_size = portfolio_size / len(df.index)
for i in range(len(df.index)):
    df.loc[i, "num_of_shares_to_buy"] = math.floor(position_size/df.loc[i, "stock_price"])
>>
    A table takes part through its columns [stock_price] (read) and
    [num_of_shares_to_buy] (written). *)
Class PricedRow (row : Type) := {
  price_of : row → Q;
  shares_of : row → option Z;
  with_shares : Z → row → row;
  price_with_shares n r : price_of (with_shares n r) = price_of r;
  shares_with_shares n r : shares_of (with_shares n r) = Some n
}.

Section shares.

Context `{PricedRow row}.

Definition position_size_of (portfolio_size : Q) (df : list row) : result Q :=
  truediv portfolio_size (len df).

(** One turn of the loop, on label [i]. *)
Definition buy (position_size : Q) (i : nat) (df : list row) : outcome (list row) :=
  match df !! i with
  | None => (df, Some KeyError)
  | Some r =>
      match truediv position_size (price_of r) with
      | Raise e => (df, Some e)
      | Ok q => (<[i := with_shares (floor q) r]> df, None)
      end
  end.

Definition calc_shares (portfolio_size : Q) (df : list row) : outcome (list row) :=
  match position_size_of portfolio_size df with
  | Raise e => (df, Some e)
  | Ok position_size => for_each (buy position_size) (seq 0 (length df)) df
  end.

End shares.

(** ** The equal-weight notebook *)
Module EqualWeight.

(** [data[symbol]['quote']] *)
Record quote := {
  latestPrice : Q;
  marketCap : Z
}.

Record response := {
  status_code : Z;
  json : gmap string quote
}.

(** cols = ["ticker", "stock_price", "market_cap", "num_of_shares_to_buy"] *)
Record row := {
  ticker : string;
  stock_price : Q;
  market_cap : Z;
  num_of_shares_to_buy : option Z
}.

#[global] Instance priced : PricedRow row := {
  price_of := stock_price;
  shares_of := num_of_shares_to_buy;
  price_with_shares _ _ := eq_refl;
  shares_with_shares _ _ := eq_refl;
  with_shares n r :=
    {| ticker := ticker r; stock_price := stock_price r; market_cap := market_cap r;
       num_of_shares_to_buy := Some n |}
}.

Definition portfolio_size : Q := 1000000.

Section notebook.

(** The data provider: the answer to the batch request made with a string of
    symbols. *)
Variable requests_get : string → response.

(** [df = df.append(pd.Series([symbol, ..., pd.NA], index=cols), ignore_index=True)] *)
Definition append_symbol (data : gmap string quote) (symbol : string)
    (df : list row) : outcome (list row) :=
  match data !! symbol with
  | None => (df, Some KeyError)
  | Some q =>
      (df ++ [ {| ticker := symbol; stock_price := latestPrice q;
                  market_cap := marketCap q; num_of_shares_to_buy := None |} ], None)
  end.

(** One turn of [for symbol_string in symbol_strings]: the request, the
    [assert] on its status, and the loop over [symbol_string.split(",")]. *)
Definition fetch_batch (symbol_string : string) (df : list row) : outcome (list row) :=
  let data := requests_get symbol_string in
  if status_code data =? 200 then
    for_each (append_symbol (json data)) (Str.split Str.comma symbol_string) df
  else (df, Some AssertionError).

Definition build (stocks : list string) : outcome (list row) :=
  match chunks_generator stocks 100 with
  | Raise e => ([], Some e)
  | Ok symbol_groups => for_each fetch_batch (symbol_strings symbol_groups) []
  end.

Definition notebook (stocks : list string) : outcome (list row) :=
  match build stocks with
  | (df, None) => calc_shares portfolio_size df
  | (df, Some e) => (df, Some e)
  end.

End notebook.

(** The first two rows of the table shown in the notebook. *)
Definition first_rows : list row :=
  [ {| ticker := "A"; stock_price := 11813 # 100; market_cap := 36417569872;
       num_of_shares_to_buy := None |};
    {| ticker := "AAL"; stock_price := 1558 # 100; market_cap := 9506720680;
       num_of_shares_to_buy := None |} ].

End EqualWeight.

(** ** The quantitative momentum notebook *)
Module Momentum.

(** [data[symbol]["stats"]] *)
Record stats := {
  year1ChangePercent : option Q;
  month6ChangePercent : option Q;
  month3ChangePercent : option Q;
  month1ChangePercent : option Q
}.

(** [data[symbol]] *)
Record entry := {
  price : Q;
  stats_of : stats
}.

Record response := {
  status_code : Z;
  json : gmap string entry
}.

Definition portfolio_size : Q := 1000000.

(** *** First screener: table [df] *)
Module Screener.

(** cols = ["ticker", "stock_price", "one_year_return", "num_of_shares_to_buy"] *)
Record row := {
  ticker : string;
  stock_price : Q;
  one_year_return : option Q;
  num_of_shares_to_buy : option Z
}.

#[global] Instance priced : PricedRow row := {
  price_of := stock_price;
  shares_of := num_of_shares_to_buy;
  price_with_shares _ _ := eq_refl;
  shares_with_shares _ _ := eq_refl;
  with_shares n r :=
    {| ticker := ticker r; stock_price := stock_price r;
       one_year_return := one_year_return r; num_of_shares_to_buy := Some n |}
}.

Section notebook.

Variable requests_get : string → response.

Definition append_symbol (data : gmap string entry) (symbol : string)
    (df : list row) : outcome (list row) :=
  match data !! symbol with
  | None => (df, Some KeyError)
  | Some d =>
      (df ++ [ {| ticker := symbol; stock_price := price d;
                  one_year_return := year1ChangePercent (stats_of d);
                  num_of_shares_to_buy := None |} ], None)
  end.

(** One turn of [for symbol_string in symbol_strings]: the request, the
    [assert] on its status, and the loop over [symbol_string.split(",")]. *)
Definition fetch_batch (symbol_string : string) (df : list row) : outcome (list row) :=
  let data := requests_get symbol_string in
  if status_code data =? 200 then
    for_each (append_symbol (json data)) (Str.split Str.comma symbol_string) df
  else (df, Some AssertionError).

(** [for symbol_string in symbol_strings[:1]] *)
Definition build (stocks : list string) : outcome (list row) :=
  match chunks_generator stocks 100 with
  | Raise e => ([], Some e)
  | Ok symbol_groups => for_each fetch_batch (slice (symbol_strings symbol_groups) 0 1) []
  end.

(** [df.sort_values("one_year_return", ascending=False, inplace=True)]
    [df = df.iloc[:50,:].reset_index(drop=True)] *)
Definition select_with (kind : list Q → list nat) (n : nat) (df : list row) : list row :=
  take n (Pandas.sort_values kind one_year_return df).

Definition select : list row → list row := select_with Pandas.quicksort 50.

Definition notebook (stocks : list string) : outcome (list row) :=
  match build stocks with
  | (df, None) => calc_shares portfolio_size (select df)
  | (df, Some e) => (df, Some e)
  end.

End notebook.

(** X at price 10 with return 0.5, Y at price 20 with return -0.1. *)
Definition scenario_A : list row :=
  [ {| ticker := "X"; stock_price := 10; one_year_return := Some (1 # 2)%Q;
       num_of_shares_to_buy := None |};
    {| ticker := "Y"; stock_price := 20; one_year_return := Some (- (1 # 10))%Q;
       num_of_shares_to_buy := None |} ].

End Screener.

(** *** High-quality momentum: table [hqm_df] *)
Module HQM.

Inductive time_period : Set := one_year | six_month | three_month | one_month.

Definition time_periods : list time_period := [one_year; six_month; three_month; one_month].

Record row := {
  ticker : string;
  stock_price : Q;
  num_of_shares_to_buy : option Z;
  one_year_return : option Q;
  one_year_return_percentile : option Q;
  six_month_return : option Q;
  six_month_return_percentile : option Q;
  three_month_return : option Q;
  three_month_return_percentile : option Q;
  one_month_return : option Q;
  one_month_return_percentile : option Q;
  momentum_score : option Q
}.

(** Column [f"{time_period}_return"] *)
Definition return_col (tp : time_period) : row → option Q :=
  match tp with
  | one_year => one_year_return
  | six_month => six_month_return
  | three_month => three_month_return
  | one_month => one_month_return
  end.

(** Column [f"{time_period}_return_percentile"] *)
Definition percentile_col (tp : time_period) : row → option Q :=
  match tp with
  | one_year => one_year_return_percentile
  | six_month => six_month_return_percentile
  | three_month => three_month_return_percentile
  | one_month => one_month_return_percentile
  end.

Definition set_percentile (tp : time_period) (p : Q) (r : row) : row :=
  {| ticker := ticker r; stock_price := stock_price r;
     num_of_shares_to_buy := num_of_shares_to_buy r;
     one_year_return := one_year_return r;
     one_year_return_percentile :=
       if tp is one_year then Some p else one_year_return_percentile r;
     six_month_return := six_month_return r;
     six_month_return_percentile :=
       if tp is six_month then Some p else six_month_return_percentile r;
     three_month_return := three_month_return r;
     three_month_return_percentile :=
       if tp is three_month then Some p else three_month_return_percentile r;
     one_month_return := one_month_return r;
     one_month_return_percentile :=
       if tp is one_month then Some p else one_month_return_percentile r;
     momentum_score := momentum_score r |}.

Definition set_momentum_score (s : Q) (r : row) : row :=
  {| ticker := ticker r; stock_price := stock_price r;
     num_of_shares_to_buy := num_of_shares_to_buy r;
     one_year_return := one_year_return r;
     one_year_return_percentile := one_year_return_percentile r;
     six_month_return := six_month_return r;
     six_month_return_percentile := six_month_return_percentile r;
     three_month_return := three_month_return r;
     three_month_return_percentile := three_month_return_percentile r;
     one_month_return := one_month_return r;
     one_month_return_percentile := one_month_return_percentile r;
     momentum_score := Some s |}.

#[global] Instance priced : PricedRow row := {
  price_of := stock_price;
  shares_of := num_of_shares_to_buy;
  price_with_shares _ _ := eq_refl;
  shares_with_shares _ _ := eq_refl;
  with_shares n r :=
    {| ticker := ticker r; stock_price := stock_price r;
       num_of_shares_to_buy := Some n;
       one_year_return := one_year_return r;
       one_year_return_percentile := one_year_return_percentile r;
       six_month_return := six_month_return r;
       six_month_return_percentile := six_month_return_percentile r;
       three_month_return := three_month_return r;
       three_month_return_percentile := three_month_return_percentile r;
       one_month_return := one_month_return r;
       one_month_return_percentile := one_month_return_percentile r;
       momentum_score := momentum_score r |}
}.

(** [hqm_df[col]] as an array of numbers; [None] when a cell is missing:
    comparing a missing cell with a number raises [TypeError]. *)
Definition column (col : row → option Q) (df : list row) : option (list Q) :=
  mapM col df.

Section notebook.

Variable requests_get : string → response.

Definition append_symbol (data : gmap string entry) (symbol : string)
    (df : list row) : outcome (list row) :=
  match data !! symbol with
  | None => (df, Some KeyError)
  | Some d =>
      (df ++ [ {| ticker := symbol; stock_price := price d;
                  num_of_shares_to_buy := None;
                  one_year_return := year1ChangePercent (stats_of d);
                  one_year_return_percentile := None;
                  six_month_return := month6ChangePercent (stats_of d);
                  six_month_return_percentile := None;
                  three_month_return := month3ChangePercent (stats_of d);
                  three_month_return_percentile := None;
                  one_month_return := month1ChangePercent (stats_of d);
                  one_month_return_percentile := None;
                  momentum_score := None |} ], None)
  end.

(** One turn of [for symbol_string in symbol_strings]: the request, the
    [assert] on its status, and the loop over [symbol_string.split(",")]. *)
Definition fetch_batch (symbol_string : string) (df : list row) : outcome (list row) :=
  let data := requests_get symbol_string in
  if status_code data =? 200 then
    for_each (append_symbol (json data)) (Str.split Str.comma symbol_string) df
  else (df, Some AssertionError).

Definition build (stocks : list string) : outcome (list row) :=
  match chunks_generator stocks 100 with
  | Raise e => ([], Some e)
  | Ok symbol_groups => for_each fetch_batch (symbol_strings symbol_groups) []
  end.

End notebook.

(** A table no return of which is missing. *)
Definition complete (df : list row) : Prop :=
  Forall (λ r, ∀ tp, is_Some (return_col tp r)) df.

(** [hqm_df = hqm_df.dropna(subset=["one_year_return"])] *)
Definition drop_outdated (df : list row) : list row :=
  Pandas.dropna one_year_return df.

(** [hqm_df.loc[row, percentile_col] =
       stats.percentileofscore(hqm_df[return_col], hqm_df.loc[row, return_col]) / 100]
    A missing return is [None] here, and comparing it with a number raises
    [TypeError]; a missing return stored as NaN raises nothing, and is read
    in [Binary64.HQM.percentile_cell]. *)
Definition percentile_cell (i : nat) (tp : time_period) (df : list row) : outcome (list row) :=
  match df !! i with
  | None => (df, Some KeyError)
  | Some r =>
      match column (return_col tp) df, return_col tp r with
      | Some a, Some score =>
          (<[i := set_percentile tp (Scipy.percentileofscore a score / 100)%Q r]> df, None)
      | _, _ => (df, Some TypeError)
      end
  end.

(** What the four turns of the inner loop make of row [r] when the return
    columns of the table are [cols]. *)
Definition ranked (cols : time_period → list Q) (r : row) : row :=
  foldl (λ r tp,
           set_percentile tp
             (Scipy.percentileofscore (cols tp) (default 0%Q (return_col tp r)) / 100)%Q r)
        r time_periods.

(** [for row in hqm_df.index: for time_period in time_periods: ...] *)
Definition calc_percentiles (df : list row) : outcome (list row) :=
  for_each (λ i, for_each (percentile_cell i) time_periods) (seq 0 (length df)) df.

(** [momentum_percentiles = [hqm_df.loc[row, f"{time_period}_return"]
                             for time_period in time_periods]]
    [hqm_df.loc[row, "momentum_score"] = mean(momentum_percentiles)]
    A missing value is [None] here, and [mean] raises [TypeError] on it; the
    mean of values one of which is a NaN is not part of this reading. *)
Definition score_cell (i : nat) (df : list row) : outcome (list row) :=
  match df !! i with
  | None => (df, Some KeyError)
  | Some r =>
      match mapM (λ tp, return_col tp r) time_periods with
      | None => (df, Some TypeError)
      | Some momentum_percentiles =>
          match mean momentum_percentiles with
          | Raise e => (df, Some e)
          | Ok m => (<[i := set_momentum_score m r]> df, None)
          end
      end
  end.

Definition calc_scores (df : list row) : outcome (list row) :=
  for_each score_cell (seq 0 (length df)) df.

(** [hqm_df.sort_values(by="momentum_score", ascending=False)[:50].reset_index(drop=True)] *)
Definition select_with (kind : list Q → list nat) (n : nat) (df : list row) : list row :=
  take n (Pandas.sort_values kind momentum_score df).

Definition select : list row → list row := select_with Pandas.quicksort 50.

(** [position_size = 1_000_000/len(hqm_df.index)] and the loop over
    [hqm_df.index] *)
Definition shares (df : list row) : outcome (list row) := calc_shares portfolio_size df.

(** The cells from the percentiles on, run on a table. *)
Definition rank_and_allocate : list row → outcome (list row) :=
  and_then calc_percentiles
    (and_then calc_scores (λ df, shares (select df))).

(** The whole notebook: the final table, or the table as it stood when a cell
    raised. *)
Definition notebook (requests_get : string → response) (stocks : list string)
  : outcome (list row) :=
  match build requests_get stocks with
  | (df, None) => rank_and_allocate (drop_outdated df)
  | (df, Some e) => (df, Some e)
  end.

(** The score as the text of the notebook words it, "the arithmetic mean of
    the 4 momentum percentile scores"; a missing percentile is an error. *)
Definition mean_of_percentiles (r : row) : result Q :=
  match mapM (λ tp, percentile_col tp r) time_periods with
  | None => Raise TypeError
  | Some percentiles => mean percentiles
  end.

(** Tables of the scenarios. *)
Definition make (symbol : string) (p : Q) (y1 m6 m3 m1 : option Q) : row :=
  {| ticker := symbol; stock_price := p; num_of_shares_to_buy := None;
     one_year_return := y1; one_year_return_percentile := None;
     six_month_return := m6; six_month_return_percentile := None;
     three_month_return := m3; three_month_return_percentile := None;
     one_month_return := m1; one_month_return_percentile := None;
     momentum_score := None |}.

(** One-year returns 0.1, 0.2, 0.3, 0.3. *)
Definition scenario_B : list row :=
  [ make "A" 10 (Some (1 # 10)) (Some (1 # 100)) (Some (1 # 100)) (Some (1 # 100));
    make "B" 20 (Some (2 # 10)) (Some (2 # 100)) (Some (2 # 100)) (Some (2 # 100));
    make "C" 30 (Some (3 # 10)) (Some (3 # 100)) (Some (3 # 100)) (Some (3 # 100));
    make "D" 40 (Some (3 # 10)) (Some (4 # 100)) (Some (4 # 100)) (Some (4 # 100)) ]%Q.


(** One row, every return of which is 0.5. *)
Definition lone_row : list row :=
  [ make "A" 10 (Some (1 # 2)) (Some (1 # 2)) (Some (1 # 2)) (Some (1 # 2)) ]%Q.

(** Eighteen rows with the same momentum score, as they reach the selection. *)
Definition tied_scores : list row :=
  (λ symbol, set_momentum_score (1 # 2)%Q
               (make symbol 10 (Some (1 # 2)) (Some (1 # 2)) (Some (1 # 2)) (Some (1 # 2)))%Q)
    <$> ["A"; "B"; "C"; "D"; "E"; "F"; "G"; "H"; "I"; "J"; "K"; "L"; "M"; "N"; "O";
         "P"; "Q"; "R"].

(** Twenty rows with five different scores, as they reach the selection. *)
Definition mixed_scores : list row :=
  (λ k : nat, set_momentum_score (inject_Z (Z.of_nat ((k * 7) mod 5)) / 10)%Q
                (make "S" 10 (Some (1 # 2)) (Some (1 # 2)) (Some (1 # 2)) (Some (1 # 2)))%Q)
    <$> seq 0 20.

(** A provider that knows two of three requested symbols. *)
Definition two_of_three (symbol_string : string) : response :=
  let d := {| price := 10;
              stats_of := {| year1ChangePercent := Some (1 # 2)%Q;
                             month6ChangePercent := Some (1 # 4)%Q;
                             month3ChangePercent := Some (1 # 8)%Q;
                             month1ChangePercent := Some (1 # 16)%Q |} |} in
  {| status_code := 200; json := {[ "A" := d; "B" := d ]} |}.

End HQM.
End Momentum.

(** * The cells on binary64 numbers

    The share cell and the percentile cell as they compute on the floats the
    tables hold: the price column and the return columns are [float64]
    columns, the budget and the position size are Python floats (the
    notebooks' budget is the [int] 1_000_000, which divides as the float of
    the same value). *)
Module Binary64.

(** The real number a finite float stands for. *)
Definition exact (x : float) : Q :=
  match Prim2SF x with
  | S754_finite s m e => (inject_Z (if s then Z.neg m else Z.pos m) * 2 ^ e)%Q
  | _ => 0%Q
  end.

(** [float(n)] for a count [n]. *)
Definition of_nat (n : nat) : float := of_uint63 (Uint63.of_Z (Z.of_nat n)).

(** [math.floor(x)]: the floor of the number the float stands for;
    [ValueError] for a NaN, [OverflowError] for an infinity. *)
Definition floor (x : float) : result Z :=
  match Prim2SF x with
  | S754_nan => Raise ValueError
  | S754_infinity _ => Raise OverflowError
  | _ => Ok (Qfloor (exact x))
  end.

(** Classes of floats, to state the sign of a quotient: a NaN belongs to all
    of them; [signed s] holds the zero, the finite numbers and the infinity
    of sign bit [s]; [signed_or_zero s] both zeros besides; [zero_or_nan]
    the zeros. *)
Definition signed (s : bool) (f : spec_float) : Prop :=
  match f with
  | S754_nan => True
  | S754_zero s' | S754_infinity s' | S754_finite s' _ _ => s' = s
  end.

Definition signed_or_zero (s : bool) (f : spec_float) : Prop :=
  match f with
  | S754_nan | S754_zero _ => True
  | S754_infinity s' | S754_finite s' _ _ => s' = s
  end.

Definition zero_or_nan (f : spec_float) : Prop :=
  match f with
  | S754_nan | S754_zero _ => True
  | _ => False
  end.

(** [x / len(l)] for a Python float [x]: the count is made a float; a count
    of zero raises [ZeroDivisionError]. *)
Definition truediv_len {A} (x : float) (l : list A) : result float :=
  match l with
  | [] => Raise ZeroDivisionError
  | _ => Ok (x / of_nat (length l))%float
  end.

(** *** Number of shares to buy *)
Class PricedRow (row : Type) := {
  price_of : row → float;
  shares_of : row → option Z;
  with_shares : Z → row → row;
  price_with_shares n r : price_of (with_shares n r) = price_of r;
  shares_with_shares n r : shares_of (with_shares n r) = Some n
}.

Section shares.

Context `{PricedRow row}.

(** [position_size = portfolio_size / len(df.index)] *)
Definition position_size_of (portfolio_size : float) (df : list row) : result float :=
  truediv_len portfolio_size df.

(** [df.loc[i, "num_of_shares_to_buy"] =
       math.floor(position_size / df.loc[i, "stock_price"])]: the division is
    that of [numpy.float64], which raises nothing. *)
Definition buy (position_size : float) (i : nat) (df : list row) : outcome (list row) :=
  match df !! i with
  | None => (df, Some KeyError)
  | Some r =>
      match floor (position_size / price_of r) with
      | Raise e => (df, Some e)
      | Ok n => (<[i := with_shares n r]> df, None)
      end
  end.

Definition calc_shares (portfolio_size : float) (df : list row) : outcome (list row) :=
  match position_size_of portfolio_size df with
  | Raise e => (df, Some e)
  | Ok position_size => for_each (buy position_size) (seq 0 (length df)) df
  end.

End shares.

(** *** The table of the equal-weight notebook *)
Module EqualWeight.

Record row := {
  ticker : string;
  stock_price : float;
  market_cap : Z;
  num_of_shares_to_buy : option Z
}.

#[global] Instance priced : PricedRow row := {
  price_of := stock_price;
  shares_of := num_of_shares_to_buy;
  price_with_shares _ _ := eq_refl;
  shares_with_shares _ _ := eq_refl;
  with_shares n r :=
    {| ticker := ticker r; stock_price := stock_price r; market_cap := market_cap r;
       num_of_shares_to_buy := Some n |}
}.

Definition make (symbol : string) (p : float) : row :=
  {| ticker := symbol; stock_price := p; market_cap := 1000000;
     num_of_shares_to_buy := None |}.

(** X at price 10, Y at price 20. *)
Definition scenario_A : list row := [make "X" 10; make "Y" 20].



(** Seven rows at price 0.35. *)
Definition seven_at_0_35 : list row := replicate 7 (make "G" 0.35).

(** A row with a price of zero between two others. *)
Definition free_between : list row := [make "H" 10; make "Z" 0; make "I" 20].

End EqualWeight.

(** *** [scipy.stats] *)
Module Scipy.

(** [np.count_nonzero(a < score)] and [np.count_nonzero(a <= score)] *)
Definition count_lt (a : list float) (score : float) : nat :=
  length (filter (λ x, (x <? score)%float = true) a).

Definition count_le (a : list float) (score : float) : nat :=
  length (filter (λ x, (x <=? score)%float = true) a).

(** [stats.percentileofscore(a, score)] with the default [kind='rank']:
<<
    if np.isnan(score): return np.nan
    n = len(a)
    if n == 0: return 100.0
    left = np.count_nonzero(a < score)
    right = np.count_nonzero(a <= score)
    pct = (right + left + (1 if right > left else 0)) * 50.0/n
>> *)
Definition percentileofscore (a : list float) (score : float) : float :=
  if is_nan score then nan
  else
    match a with
    | [] => 100%float
    | _ =>
        let left := count_lt a score in
        let right := count_le a score in
        (of_nat (right + left + (if (left <? right)%nat then 1 else 0)) * 50
         / of_nat (length a))%float
    end.


End Scipy.

(** *** The table of the momentum notebook *)
Module HQM.
Import Momentum.HQM.

(** The columns of [hqm_df] the percentile loop and the share cell work on:
    column [f"{time_period}_return"] is [returns r time_period], column
    [f"{time_period}_return_percentile"] is [percentiles r time_period],
    not yet written when [None]. *)
Record row := {
  ticker : string;
  stock_price : float;
  num_of_shares_to_buy : option Z;
  returns : time_period → float;
  percentiles : time_period → option float;
  momentum_score : option float
}.

#[global] Instance time_period_eq_dec : EqDecision time_period.
Proof. solve_decision. Defined.

Definition set_percentile (tp : time_period) (p : float) (r : row) : row :=
  {| ticker := ticker r; stock_price := stock_price r;
     num_of_shares_to_buy := num_of_shares_to_buy r;
     returns := returns r;
     percentiles := λ tp', if decide (tp' = tp) then Some p else percentiles r tp';
     momentum_score := momentum_score r |}.

#[global] Instance priced : PricedRow row := {
  price_of := stock_price;
  shares_of := num_of_shares_to_buy;
  price_with_shares _ _ := eq_refl;
  shares_with_shares _ _ := eq_refl;
  with_shares n r :=
    {| ticker := ticker r; stock_price := stock_price r;
       num_of_shares_to_buy := Some n;
       returns := returns r; percentiles := percentiles r;
       momentum_score := momentum_score r |}
}.

(** [hqm_df[f"{time_period}_return"]] *)
Definition column (tp : time_period) (df : list row) : list float :=
  (λ r, returns r tp) <$> df.

(** [hqm_df.loc[row, percentile_col] =
       stats.percentileofscore(hqm_df[return_col], hqm_df.loc[row, return_col]) / 100] *)
Definition percentile_cell (i : nat) (tp : time_period) (df : list row) : outcome (list row) :=
  match df !! i with
  | None => (df, Some KeyError)
  | Some r =>
      (<[i := set_percentile tp
                (Scipy.percentileofscore (column tp df) (returns r tp) / 100)%float r]> df,
       None)
  end.

(** What the four turns of the inner loop make of row [r] of the table
    [df]. *)
Definition ranked (df : list row) (r : row) : row :=
  foldl (λ r tp,
           set_percentile tp
             (Scipy.percentileofscore (column tp df) (returns r tp) / 100)%float r)
        r time_periods.

(** [for row in hqm_df.index: for time_period in time_periods: ...] *)
Definition calc_percentiles (df : list row) : outcome (list row) :=
  for_each (λ i, for_each (percentile_cell i) time_periods) (seq 0 (length df)) df.

Definition make (symbol : string) (y1 m6 m3 m1 : float) : row :=
  {| ticker := symbol; stock_price := 10; num_of_shares_to_buy := None;
     returns := λ tp, match tp with
                      | one_year => y1 | six_month => m6
                      | three_month => m3 | one_month => m1
                      end;
     percentiles := λ _, None; momentum_score := None |}.

(** One-year returns 0.1, 0.2, 0.3, 0.3. *)
Definition scenario_B : list row :=
  [ make "A" 0.1 0.01 0.01 0.01; make "B" 0.2 0.02 0.02 0.02;
    make "C" 0.3 0.03 0.03 0.03; make "D" 0.3 0.04 0.04 0.04 ].

(** Thirty-seven rows with the returns 1, 2, ..., 37. *)
Definition thirty_seven_rows : list row :=
  (λ k, make "S" (of_nat k) (of_nat k) (of_nat k) (of_nat k)) <$> seq 1 37.


End HQM.

End Binary64.

(** ** The rows appended for a symbol, given its entry in the answer *)
Module Fetched.

Definition screener_row (symbol : string) (d : Momentum.entry) : Momentum.Screener.row :=
  {| Momentum.Screener.ticker := symbol;
     Momentum.Screener.stock_price := Momentum.price d;
     Momentum.Screener.one_year_return := Momentum.year1ChangePercent (Momentum.stats_of d);
     Momentum.Screener.num_of_shares_to_buy := None |}.

Definition hqm_row (symbol : string) (d : Momentum.entry) : Momentum.HQM.row :=
  {| Momentum.HQM.ticker := symbol;
     Momentum.HQM.stock_price := Momentum.price d;
     Momentum.HQM.num_of_shares_to_buy := None;
     Momentum.HQM.one_year_return := Momentum.year1ChangePercent (Momentum.stats_of d);
     Momentum.HQM.one_year_return_percentile := None;
     Momentum.HQM.six_month_return := Momentum.month6ChangePercent (Momentum.stats_of d);
     Momentum.HQM.six_month_return_percentile := None;
     Momentum.HQM.three_month_return := Momentum.month3ChangePercent (Momentum.stats_of d);
     Momentum.HQM.three_month_return_percentile := None;
     Momentum.HQM.one_month_return := Momentum.month1ChangePercent (Momentum.stats_of d);
     Momentum.HQM.one_month_return_percentile := None;
     Momentum.HQM.momentum_score := None |}.

End Fetched.

(** ** Providers for the examples: an answer for every symbol asked for. *)
Module Echo.

Definition quote_of (symbol : string) : EqualWeight.quote :=
  {| EqualWeight.latestPrice := 10 + inject_Z (Z.of_nat (String.length symbol));
     EqualWeight.marketCap := 1000 |}.

Definition quotes (symbol_string : string) : EqualWeight.response :=
  {| EqualWeight.status_code := 200;
     EqualWeight.json :=
       list_to_map ((λ s, (s, quote_of s)) <$> Str.split Str.comma symbol_string) |}.

Definition entry_of (symbol : string) : Momentum.entry :=
  {| Momentum.price := 10 + inject_Z (Z.of_nat (String.length symbol));
     Momentum.stats_of :=
       {| Momentum.year1ChangePercent := Some (inject_Z (Z.of_nat (String.length symbol)) / 10)%Q;
          Momentum.month6ChangePercent := Some (1 # 4)%Q;
          Momentum.month3ChangePercent := Some (1 # 8)%Q;
          Momentum.month1ChangePercent := Some (1 # 16)%Q |} |}.

Definition stats (symbol_string : string) : Momentum.response :=
  {| Momentum.status_code := 200;
     Momentum.json :=
       list_to_map ((λ s, (s, entry_of s)) <$> Str.split Str.comma symbol_string) |}.

(** The same, but the request for a batch that holds "B" is refused. *)
Definition refused (symbol_string : string) : Momentum.response :=
  {| Momentum.status_code :=
       if bool_decide ("B" ∈ Str.split Str.comma symbol_string) then 503 else 200;
     Momentum.json :=
       list_to_map ((λ s, (s, entry_of s)) <$> Str.split Str.comma symbol_string) |}.

End Echo.

(** * Properties *)

(** ** Loops *)

(** A loop over the labels of a table, each turn of which rewrites its own
    row by [g], rewrites every row; [inv] is what the turns need of the whole
    table and [ok] what they need of the row at hand. *)
Lemma for_each_rows {row} (step : nat → list row → outcome (list row))
    (g : row → row) (inv : list row → Prop) (ok : row → Prop) :
  (∀ done r rest, inv (done ++ r :: rest) → ok r →
     step (length done) (done ++ r :: rest) = (done ++ g r :: rest, None)
     ∧ inv (done ++ g r :: rest)) →
  ∀ todo done, inv (done ++ todo) → Forall ok todo →
    for_each step (seq (length done) (length todo)) (done ++ todo)
    = (done ++ (g <$> todo), None).
Proof.
  intros Hstep todo. induction todo as [|r rest IH]; intros done Hinv Hok.
  - done.
  - apply Forall_cons in Hok as [Hr Hrest]. simpl.
    destruct (Hstep done r rest Hinv Hr) as [-> Hinv'].
    specialize (IH (done ++ [g r])).
    rewrite length_app, Nat.add_1_r, <- !(assoc_L (++)) in IH. simpl in IH.
    by apply IH.
Qed.

Lemma for_each_table {row} (step : nat → list row → outcome (list row))
    (g : row → row) (inv : list row → Prop) (ok : row → Prop) (df : list row) :
  (∀ done r rest, inv (done ++ r :: rest) → ok r →
     step (length done) (done ++ r :: rest) = (done ++ g r :: rest, None)
     ∧ inv (done ++ g r :: rest)) →
  inv df → Forall ok df →
  for_each step (seq 0 (length df)) df = (g <$> df, None).
Proof.
  intros Hstep Hinv Hok.
  apply (for_each_rows step g inv ok Hstep df []); done.
Qed.

(** A loop over the labels of a table that raises at the row after [todo]:
    the rows before it are rewritten, the others are left. *)
Lemma for_each_rows_stop {row} (step : nat → list row → outcome (list row))
    (g : row → row) (inv : list row → Prop) (ok : row → Prop) (e : exn)
    (r : row) (rest : list row) :
  (∀ done x rest', inv (done ++ x :: rest') → ok x →
     step (length done) (done ++ x :: rest') = (done ++ g x :: rest', None)
     ∧ inv (done ++ g x :: rest')) →
  (∀ done, inv (done ++ r :: rest) →
     step (length done) (done ++ r :: rest) = (done ++ r :: rest, Some e)) →
  ∀ todo done, inv (done ++ todo ++ r :: rest) → Forall ok todo →
    for_each step (seq (length done) (length (todo ++ r :: rest)))
             (done ++ todo ++ r :: rest)
    = (done ++ (g <$> todo) ++ r :: rest, Some e).
Proof.
  intros Hstep Hstop todo. induction todo as [|x todo IH]; intros done Hinv Hok.
  - simpl. by rewrite Hstop.
  - apply Forall_cons in Hok as [Hx Hok]. simpl.
    destruct (Hstep done x (todo ++ r :: rest) Hinv Hx) as [-> Hinv'].
    specialize (IH (done ++ [g x])).
    rewrite length_app, Nat.add_1_r, <- !(assoc_L (++)) in IH. simpl in IH.
    by apply IH.
Qed.

(** A property of the state that every turn keeps is kept by the loop,
    whether it ends or raises. *)
Lemma for_each_preserves {I S} (body : I → S → outcome S) (P : S → Prop) (xs : list I) :
  (∀ x s, P s → P (body x s).1) →
  ∀ s, P s → P (for_each body xs s).1.
Proof.
  intros Hbody. induction xs as [|x xs IH]; intros s Hs; simpl; [done|].
  specialize (Hbody x s Hs). destruct (body x s) as [s' [e|]]; simpl in *; auto.
Qed.

(** A loop whose turns raise nothing but [e], and one turn of which always
    raises, ends with [e]. *)
Lemma for_each_raises {I S} (body : I → S → outcome S) (e : exn) (xs : list I) (x : I) :
  x ∈ xs →
  (∀ s, (body x s).2 = Some e) →
  (∀ y s, (body y s).2 = None ∨ (body y s).2 = Some e) →
  ∀ s, (for_each body xs s).2 = Some e.
Proof.
  intros Hx Hfail Hany. induction xs as [|y xs IH]; intros s.
  - by apply elem_of_nil in Hx.
  - simpl. apply elem_of_cons in Hx as [<-|Hx].
    + specialize (Hfail s). destruct (body x s) as [s' [e'|]]; simpl in *; congruence.
    + specialize (Hany y s). destruct (body y s) as [s' [e'|]]; simpl in *.
      * destruct Hany; congruence.
      * by apply IH.
Qed.

Lemma for_each_raises_only {I S} (body : I → S → outcome S) (e : exn) (xs : list I) :
  (∀ y s, (body y s).2 = None ∨ (body y s).2 = Some e) →
  ∀ s, (for_each body xs s).2 = None ∨ (for_each body xs s).2 = Some e.
Proof.
  intros Hany. induction xs as [|y xs IH]; intros s; simpl; [by left|].
  specialize (Hany y s). destruct (body y s) as [s' [e'|]]; simpl in *; [done | apply IH].
Qed.

(** A loop one turn of which always raises ends with an exception, one of
    those the turns can raise. *)
Lemma for_each_raises_in {I S} (body : I → S → outcome S) (E : exn → Prop)
    (xs : list I) (x : I) :
  x ∈ xs →
  (∀ s, ∃ e, (body x s).2 = Some e) →
  (∀ y s e, (body y s).2 = Some e → E e) →
  ∀ s, ∃ e, (for_each body xs s).2 = Some e ∧ E e.
Proof.
  intros Hx Hfail Hany. induction xs as [|y xs IH]; intros s.
  - by apply elem_of_nil in Hx.
  - simpl. apply elem_of_cons in Hx as [<-|Hx].
    + destruct (Hfail s) as [e He]. specialize (Hany x s e He).
      destruct (body x s) as [s' [e'|]]; simpl in *; [|done].
      injection He as ->. eauto.
    + specialize (Hany y s). destruct (body y s) as [s' [e'|]]; simpl in *.
      * eauto.
      * by apply IH.
Qed.

(** A loop over the images of a list. *)
Lemma for_each_fmap {I J S} (f : I → J) (body : J → S → outcome S) (xs : list I) (s : S) :
  for_each body (f <$> xs) s = for_each (λ x, body (f x)) xs s.
Proof.
  revert s. induction xs as [|x xs IH]; intros s; simpl; [done|].
  destruct (body (f x) s) as [s' [e|]]; [done | apply IH].
Qed.

Lemma for_each_extend {I R} (body : I → list R → outcome (list R)) (F : I → list R)
    (xs : list I) :
  (∀ x, x ∈ xs → ∀ s, body x s = (s ++ F x, None)) →
  ∀ s, for_each body xs s = (s ++ concat (F <$> xs), None).
Proof.
  induction xs as [|x xs IH]; intros Hbody s; simpl.
  - by rewrite app_nil_r.
  - rewrite (Hbody x) by apply list_elem_of_here.
    rewrite IH by (intros y Hy; apply Hbody; by apply list_elem_of_further).
    by rewrite (assoc_L (++)).
Qed.

(** A loop that stops at [x]: what the turns before [x] added stays, with
    what the turn of [x] added before it raised. *)
Lemma for_each_stops {I R} (body : I → list R → outcome (list R)) (F : I → list R)
    (e : exn) (pre post : list I) (x : I) (added : list R) :
  (∀ y, y ∈ pre → ∀ s, body y s = (s ++ F y, None)) →
  (∀ s, body x s = (s ++ added, Some e)) →
  ∀ s, for_each body (pre ++ x :: post) s = (s ++ concat (F <$> pre) ++ added, Some e).
Proof.
  induction pre as [|y pre IH]; intros Hpre Hx s; simpl.
  - by rewrite Hx.
  - rewrite (Hpre y) by apply list_elem_of_here.
    rewrite IH; [|intros z Hz; apply Hpre; by apply list_elem_of_further|done].
    by rewrite !(assoc_L (++)).
Qed.

Lemma concat_singletons {A B} (f : A → B) (l : list A) :
  concat ((λ x, [f x]) <$> l) = f <$> l.
Proof. induction l as [|x l IH]; [done|]. simpl. f_equal. exact IH. Qed.

Lemma concat_fmap_fmap {A B} (f : A → B) (ls : list (list A)) :
  concat (fmap (M:=list) f <$> ls) = f <$> concat ls.
Proof.
  induction ls as [|l ls IH]; [done|]. simpl. rewrite fmap_app. f_equal. exact IH.
Qed.

(** ** The batcher *)

Lemma slice_take_drop {A} (l : list A) (i k : Z) :
  0 ≤ i ≤ Z.of_nat (length l) → 0 ≤ k →
  slice l i (i + k) = take (Z.to_nat k) (drop (Z.to_nat i) l).
Proof.
  intros Hi Hk. unfold slice, slice_index.
  destruct (Z.ltb_spec i 0); [lia|].
  destruct (Z.ltb_spec (i + k) 0); [lia|].
  rewrite (Z.min_l i) by lia.
  destruct (Z.le_gt_cases (i + k) (Z.of_nat (length l))).
  - rewrite Z.min_l by lia. f_equal. lia.
  - rewrite Z.min_r by lia.
    rewrite !take_ge; [done | |]; rewrite length_drop; lia.
Qed.

Lemma concat_chunks {A} (l : list A) (n m : nat) :
  concat ((λ j : nat, take n (drop (j * n) l)) <$> seq 0 m) = take (m * n) l.
Proof.
  induction m as [|m IH].
  - done.
  - rewrite seq_S, fmap_app, concat_app, IH. simpl.
    rewrite app_nil_r, take_take_drop. f_equal. lia.
Qed.

(** For a positive batch size the batches are the successive slices of [n]
    symbols, and there are [ceil(len / n)] of them. *)
Lemma chunks_generator_pos {A} (lst : list A) (n : Z) :
  0 < n →
  chunks_generator lst n
  = Ok ((λ j : nat, take (Z.to_nat n) (drop (j * Z.to_nat n) lst))
          <$> seq 0 (Z.to_nat (range_len 0 (Z.of_nat (length lst)) n))).
Proof.
  intros Hn. unfold chunks_generator, range.
  destruct (Z.eqb_spec n 0); [lia|]. simpl. f_equal.
  rewrite <- list_fmap_compose. apply list_fmap_ext.
  intros i j Hj. apply lookup_seq in Hj as [Hji Hj]. simpl in Hji. subst i. simpl.
  assert (Hlen : Z.of_nat j < range_len 0 (Z.of_nat (length lst)) n) by lia.
  unfold range_len in Hlen. destruct (Z.ltb_spec 0 n); [|lia].
  destruct (Z.ltb_spec 0 (Z.of_nat (length lst))); [|lia].
  assert (Z.of_nat j * n ≤ Z.of_nat (length lst) - 0 - 1).
  { transitivity (n * ((Z.of_nat (length lst) - 0 - 1) / n)).
    - nia.
    - apply Z.mul_div_le. lia. }
  rewrite slice_take_drop by lia. do 2 f_equal. nia.
Qed.

Lemma range_len_pos (len n : Z) :
  0 ≤ len → 0 < n → len ≤ range_len 0 len n * n.
Proof.
  intros Hlen Hn. unfold range_len.
  destruct (Z.ltb_spec 0 n); [|lia].
  destruct (Z.ltb_spec 0 len); [|lia].
  pose proof (Z.mod_pos_bound (len - 0 - 1) n Hn).
  pose proof (Z.div_mod (len - 0 - 1) n). nia.
Qed.

(** C4: for a positive batch size the batches are contiguous slices, their
    concatenation is the list in its order, no batch is longer than the batch
    size, an empty list gives no batch, and a non-empty list no longer than
    the batch size gives the list itself as the only batch. *)
Theorem chunks_generator_complete {A} (L : list A) (k : Z) :
  0 < k →
  ∃ batches,
    chunks_generator L k = Ok batches
    ∧ concat batches = L
    ∧ Forall (λ b, Z.of_nat (length b) ≤ k) batches
    ∧ (∀ (j : nat) b, batches !! j = Some b →
         b = take (Z.to_nat k) (drop (j * Z.to_nat k) L) ∧ b ≠ [])
    ∧ (L = [] → batches = [])
    ∧ (L ≠ [] → Z.of_nat (length L) ≤ k → batches = [L]).
Proof.
  intros Hk. eexists. split; [by apply chunks_generator_pos|].
  set (m := Z.to_nat (range_len 0 (Z.of_nat (length L)) k)).
  pose proof (range_len_pos (Z.of_nat (length L)) k ltac:(lia) Hk) as Hm.
  assert (Hm' : range_len 0 (Z.of_nat (length L)) k = Z.of_nat m).
  { unfold m. rewrite Z2Nat.id; [done|]. unfold range_len.
    destruct (Z.ltb_spec 0 k); [|lia].
    destruct (Z.ltb_spec 0 (Z.of_nat (length L))); [|lia].
    pose proof (Z.div_pos (Z.of_nat (length L) - 0 - 1) k). lia. }
  clearbody m. split_and!.
  - rewrite concat_chunks. apply take_ge. nia.
  - apply Forall_fmap, Forall_forall. intros j _. simpl.
    rewrite length_take. lia.
  - intros j b H.
    apply list_lookup_fmap_Some in H as (j' & -> & Hj').
    apply lookup_seq in Hj' as [-> Hlt]. simpl. split; [done|].
    intros Hnil%(f_equal length). rewrite length_take, length_drop in Hnil.
    simpl in Hnil.
    unfold range_len in Hm'. destruct (Z.ltb_spec 0 k); [|lia].
    destruct (Z.ltb_spec 0 (Z.of_nat (length L))); [|lia].
    assert (Z.of_nat j * k ≤ Z.of_nat (length L) - 0 - 1).
    { transitivity (k * ((Z.of_nat (length L) - 0 - 1) / k)).
      - nia.
      - apply Z.mul_div_le. lia. }
    nia.
  - intros ->. assert (m = 0%nat) as ->; [|done].
    unfold range_len in Hm'. simpl in Hm'. destruct (0 <? k); lia.
  - intros Hne Hle.
    assert (m = 1%nat) as ->.
    { assert (0 < Z.of_nat (length L)) by (destruct L; [done | simpl; lia]).
      assert (Hq : (Z.of_nat (length L) - 0 - 1) / k = 0) by (apply Z.div_small; lia).
      unfold range_len in Hm'. rewrite Hq in Hm'. clear Hq Hm.
      destruct (Z.ltb_spec 0 k); [|lia].
      destruct (Z.ltb_spec 0 (Z.of_nat (length L))); lia. }
    simpl. rewrite drop_0, take_ge; [done|lia].
Qed.

Lemma chunks_generator_complete_witness :
  ∃ batches,
    chunks_generator ["A"; "AAL"; "AAP"; "AAPL"; "ABBV"]%string 2 = Ok batches
    ∧ concat batches = ["A"; "AAL"; "AAP"; "AAPL"; "ABBV"]%string
    ∧ Forall (λ b, Z.of_nat (length b) ≤ 2) batches.
Proof.
  destruct (chunks_generator_complete ["A"; "AAL"; "AAP"; "AAPL"; "ABBV"]%string 2)
    as (batches & H1 & H2 & H3 & _); [lia|].
  exists batches. auto.
Defined.

(** C9 (as the code has it): a batch size of zero raises [ValueError] when
    the generator is first advanced; a negative batch size raises nothing and
    yields no batch at all. *)
Theorem chunks_generator_nonpositive {A} (L : list A) (k : Z) :
  k ≤ 0 →
  chunks_generator L k = if k =? 0 then Raise ValueError else Ok [].
Proof.
  intros Hk. unfold chunks_generator, range.
  destruct (Z.eqb_spec k 0); [done|]. simpl.
  unfold range_len. destruct (Z.ltb_spec 0 k); [lia|].
  destruct (Z.ltb_spec (Z.of_nat (length L)) 0); [lia|]. done.
Qed.

Lemma chunks_generator_nonpositive_witness :
  chunks_generator ["A"; "AAL"; "AAP"]%string 0 = Raise ValueError.
Proof.
  apply (chunks_generator_nonpositive ["A"; "AAL"; "AAP"]%string 0). lia.
Defined.

(** C9 fails for a negative batch size: the symbols are dropped without any
    error. *)
Lemma chunks_generator_negative_no_error :
  chunks_generator ["A"; "AAL"; "AAP"]%string (-2) = Ok []
  ∧ ¬ ∃ e, chunks_generator ["A"; "AAL"; "AAP"]%string (-2) = Raise e.
Proof.
  split; [reflexivity|]. intros [e He]. vm_compute in He. discriminate.
Qed.

Lemma chunks_generator_concat {A} (L : list A) (k : Z) (batches : list (list A)) :
  0 < k → chunks_generator L k = Ok batches → concat batches = L.
Proof.
  intros Hk. rewrite chunks_generator_pos by done. intros [= <-].
  rewrite concat_chunks. apply take_ge.
  pose proof (range_len_pos (Z.of_nat (length L)) k ltac:(lia) Hk). nia.
Qed.

Lemma chunks_generator_batches {A} (L : list A) (k : Z) (batches : list (list A)) :
  0 < k → chunks_generator L k = Ok batches →
  Forall (λ b, b ≠ [] ∧ ∃ j : nat, b = take (Z.to_nat k) (drop j L)) batches.
Proof.
  intros Hk. rewrite chunks_generator_pos by done. intros [= <-].
  apply Forall_fmap, Forall_forall. intros j Hj. apply elem_of_seq in Hj as [_ Hj].
  unfold compose. split; [|by eexists].
  intros Hnil%(f_equal length). rewrite length_take, length_drop in Hnil. simpl in Hnil.
  assert (Hlt : Z.of_nat j < range_len 0 (Z.of_nat (length L)) k) by lia.
  unfold range_len in Hlt. destruct (Z.ltb_spec 0 k); [|lia].
  destruct (Z.ltb_spec 0 (Z.of_nat (length L))); [|lia].
  assert (Z.of_nat j * k ≤ Z.of_nat (length L) - 0 - 1).
  { transitivity (k * ((Z.of_nat (length L) - 0 - 1) / k)); [nia|].
    apply Z.mul_div_le. lia. }
  clear Hlt Hj. nia.
Qed.

(** ** Strings of symbols *)

Lemma split_no_separator (sep : Ascii.ascii) (x : string) :
  Str.contains sep x = false → Str.split sep x = [x].
Proof.
  induction x as [|c x IH]; [done|]. simpl. intros H.
  apply orb_false_iff in H as [Hc Hx]. rewrite Hc, (IH Hx). done.
Qed.

Lemma split_append (sep : Ascii.ascii) (x s : string) :
  Str.contains sep x = false →
  Str.split sep (String.append x (String sep s)) = x :: Str.split sep s.
Proof.
  induction x as [|c x IH]; simpl; intros H.
  - by rewrite Ascii.eqb_refl.
  - apply orb_false_iff in H as [Hc Hx]. rewrite Hc, (IH Hx). done.
Qed.

(** Splitting the joined string of a batch at the commas gives the batch
    back, when the batch is not empty and no symbol holds a comma. *)
Theorem split_join (group : list string) :
  group ≠ [] →
  Forall (λ symbol, Str.contains Str.comma symbol = false) group →
  Str.split Str.comma (Str.join (String Str.comma EmptyString) group) = group.
Proof.
  intros Hne Hall. induction Hall as [|x l Hx Hl IH]; [done|].
  destruct l as [|y l].
  - simpl. by apply split_no_separator.
  - change (Str.join (String Str.comma EmptyString) (x :: y :: l))
      with (String.append x (String Str.comma
              (Str.join (String Str.comma EmptyString) (y :: l)))).
    rewrite split_append by done. f_equal. by apply IH.
Qed.

Lemma split_join_witness :
  Str.split Str.comma
    (Str.join (String Str.comma EmptyString) ["A"; "AAL"; "AAP"]%string)
  = ["A"; "AAL"; "AAP"]%string.
Proof.
  apply (split_join ["A"; "AAL"; "AAP"]%string).
  - discriminate.
  - repeat constructor.
Defined.

(** The string of a batch of the list splits into the batch. *)
Lemma split_symbol_string (stocks : list string) (k : Z) (groups : list (list string))
    (group : list string) :
  0 < k →
  Forall (λ symbol, Str.contains Str.comma symbol = false) stocks →
  chunks_generator stocks k = Ok groups → group ∈ groups →
  Str.split Str.comma (Str.join (String Str.comma EmptyString) group) = group.
Proof.
  intros Hk Hstocks Hgroups Hg.
  pose proof (chunks_generator_batches stocks k groups Hk Hgroups) as Hb.
  destruct (proj1 (Forall_forall _ _) Hb group Hg) as [Hne [j ->]].
  apply split_join; [done|]. by apply Forall_take, Forall_drop.
Qed.

(** [l[:1]] *)
Lemma slice_first {A} (l : list A) : slice l 0 1 = take 1 l.
Proof.
  pose proof (slice_take_drop l 0 1) as H. change (0 + 1) with 1 in H.
  rewrite H by lia. by rewrite drop_0.
Qed.

(** ** Numbers *)

Lemma Qltb_lt (x y : Q) : Qltb x y = true ↔ (x < y)%Q.
Proof.
  unfold Qltb. rewrite negb_true_iff, <- not_true_iff_false, Qle_bool_iff.
  split; [apply Qnot_le_lt | apply Qlt_not_le].
Qed.


Lemma len_pos {A} (l : list A) : l ≠ [] → (0 < len l)%Q.
Proof. destruct l; [done|]. intros _. unfold len, Qlt. simpl. lia. Qed.

Lemma len_cons {A} (x : A) (l : list A) : (len (x :: l) == len l + 1)%Q.
Proof.
  unfold len. simpl length. rewrite Nat2Z.inj_succ, <- Z.add_1_r, inject_Z_plus. done.
Qed.

Lemma truediv_ok (x y : Q) : ¬ (y == 0)%Q → truediv x y = Ok (x / y)%Q.
Proof.
  intros Hy. unfold truediv.
  destruct (Qeq_bool y 0) eqn:E; [|done]. by apply Qeq_bool_iff in E.
Qed.

Lemma truediv_zero (x y : Q) : (y == 0)%Q → truediv x y = Raise ZeroDivisionError.
Proof. intros Hy. unfold truediv. apply Qeq_bool_iff in Hy. by rewrite Hy. Qed.

Lemma Qpos_nonzero (p : Q) : (0 < p)%Q → ¬ (p == 0)%Q.
Proof. intros Hp E. rewrite E in Hp. by apply Qlt_irrefl in Hp. Qed.

(** ** Number of shares to buy *)

Lemma insert_middle {A} (done rest : list A) (r x : A) :
  <[length done := x]> (done ++ r :: rest) = done ++ x :: rest.
Proof. rewrite insert_app_r_alt by lia. by rewrite Nat.sub_diag. Qed.

(** With no zero price in a non-empty table the cell raises nothing and
    writes the share count of every row. *)
Lemma calc_shares_ok `{PricedRow row} (B : Q) (df : list row) :
  df ≠ [] → Forall (λ r, ¬ (price_of r == 0)%Q) df →
  calc_shares B df
  = ((λ r, with_shares (floor ((B / len df) / price_of r)) r) <$> df, None).
Proof.
  intros Hne Hprice. unfold calc_shares, position_size_of.
  rewrite truediv_ok by by apply Qpos_nonzero, len_pos.
  apply (for_each_table _ _ (λ _, True) (λ r, ¬ (price_of r == 0)%Q)); [|done|done].
  intros done r rest _ Hr. split; [|done]. unfold buy.
  rewrite list_lookup_middle by done. rewrite truediv_ok by done.
  by rewrite insert_middle.
Qed.

(** An empty table stops the cell at the division by the number of rows. *)
Lemma calc_shares_nil `{PricedRow row} (B : Q) :
  calc_shares B ([] : list row) = ([], Some ZeroDivisionError).
Proof. unfold calc_shares, position_size_of. by rewrite truediv_zero. Qed.

(** Whatever the cell does, a column that [with_shares] leaves alone is left
    alone. *)
Lemma calc_shares_frame `{PricedRow row} {C} (col : row → C) (B : Q) (df : list row) :
  (∀ n r, col (with_shares n r) = col r) →
  col <$> (calc_shares B df).1 = col <$> df.
Proof.
  intros Hcol. unfold calc_shares.
  destruct (position_size_of B df) as [ps|e]; [|done].
  apply (for_each_preserves _ (λ s, col <$> s = col <$> df)); [|done].
  intros i s Hs. unfold buy. destruct (s !! i) as [r|] eqn:Hi; [|done].
  destruct (truediv ps (price_of r)); [|done]. simpl.
  rewrite list_fmap_insert, Hcol, list_insert_id; [done|].
  by rewrite list_lookup_fmap, Hi.
Qed.

(** C10: the cell that computes the shares leaves every other column of the
    table as it was, row by row and in the same order, whether it ends or
    raises: the columns of the equal-weight table, of the first momentum
    table and of the high-quality momentum table. *)
Theorem shares_cell_frame :
  (∀ (B : Q) (df : list EqualWeight.row),
     let df' := (calc_shares B df).1 in
     EqualWeight.ticker <$> df' = EqualWeight.ticker <$> df
     ∧ EqualWeight.stock_price <$> df' = EqualWeight.stock_price <$> df
     ∧ EqualWeight.market_cap <$> df' = EqualWeight.market_cap <$> df)
  ∧ (∀ (B : Q) (df : list Momentum.Screener.row),
       let df' := (calc_shares B df).1 in
       Momentum.Screener.ticker <$> df' = Momentum.Screener.ticker <$> df
       ∧ Momentum.Screener.stock_price <$> df' = Momentum.Screener.stock_price <$> df
       ∧ Momentum.Screener.one_year_return <$> df'
         = Momentum.Screener.one_year_return <$> df)
  ∧ (∀ (B : Q) (df : list Momentum.HQM.row),
       let df' := (calc_shares B df).1 in
       Momentum.HQM.ticker <$> df' = Momentum.HQM.ticker <$> df
       ∧ Momentum.HQM.stock_price <$> df' = Momentum.HQM.stock_price <$> df
       ∧ (∀ tp, Momentum.HQM.return_col tp <$> df' = Momentum.HQM.return_col tp <$> df)
       ∧ (∀ tp, Momentum.HQM.percentile_col tp <$> df'
                = Momentum.HQM.percentile_col tp <$> df)
       ∧ Momentum.HQM.momentum_score <$> df' = Momentum.HQM.momentum_score <$> df).
Proof.
  split_and!; intros B df df'; subst df'; split_and!;
    try (intros []); by apply calc_shares_frame.
Qed.

(** ** Binary64 numbers *)
Section binary64.
Import Binary64.

Lemma is_finite_class (x : float) :
  is_finite x = true →
  (∃ s, Prim2SF x = S754_zero s) ∨ (∃ s m e, Prim2SF x = S754_finite s m e).
Proof.
  unfold is_finite, Prim2SF.
  destruct (is_nan x); [done|]. destruct (is_zero x); [eauto|].
  destruct (is_infinity x); [done|]. intros _.
  destruct (Z.frexp x) as [r exp].
  destruct (shr_fexp prec emax (Uint63Axioms.to_Z (normfr_mantissa r)) (exp - prec) loc_Exact)
    as [shr e'].
  destruct (shr_m shr); eauto 10.
Qed.

Lemma floor_finite (x : float) : is_finite x = true → floor x = Ok (Qfloor (exact x)).
Proof.
  intros H. unfold floor.
  by destruct (is_finite_class x H) as [[s ->]|(s & m & e & ->)].
Qed.

(** The floor of a float is the integer just below the number it stands
    for. *)
Lemma floor_bounds (x : float) (n : Z) :
  floor x = Ok n → (inject_Z n <= exact x)%Q ∧ (exact x < inject_Z n + 1)%Q.
Proof.
  unfold floor. intros H.
  assert (n = Qfloor (exact x)) as -> by (destruct (Prim2SF x); congruence).
  split; [apply Qfloor_le|].
  pose proof (Qlt_floor (exact x)) as Hlt. by rewrite inject_Z_plus in Hlt.
Qed.

Lemma floor_zero (x : float) :
  zero_or_nan (Prim2SF x) → is_finite x = true → floor x = Ok 0.
Proof.
  intros Hz Hf. rewrite floor_finite by done. unfold exact.
  destruct (is_finite_class x Hf) as [[s E]|(s & m & e & E)]; rewrite E in *; done.
Qed.

Lemma Qpower_2_pos (e : Z) : (0 < 2 ^ e)%Q.
Proof. by apply Qpower_0_lt. Qed.

Lemma floor_nonpositive (x : float) (n : Z) :
  signed_or_zero true (Prim2SF x) → floor x = Ok n → n ≤ 0.
Proof.
  intros Hs Hn. destruct (floor_bounds x n Hn) as [Hle _].
  assert (Hx : (exact x <= 0)%Q).
  { unfold exact. destruct (Prim2SF x) as [s| | |s m e]; try apply Qle_refl.
    simpl in Hs. subst s.
    pose proof (Qpower_2_pos e) as Hp.
    assert (Hm : (inject_Z (Z.neg m) < 0)%Q) by (unfold Qlt; simpl; lia).
    nra. }
  rewrite Zle_Qle. by eapply Qle_trans.
Qed.

(** Signs. *)
Lemma binary_round_aux_signed (s : bool) (mx ex : Z) (lx : location) :
  signed s (binary_round_aux prec emax s mx ex lx).
Proof.
  unfold binary_round_aux.
  destruct (shr_fexp prec emax mx ex lx) as [mrs' e'].
  destruct (shr_fexp prec emax _ e' loc_Exact) as [mrs'' e''].
  destruct (shr_m mrs''); [done| |done].
  by destruct (e'' <=? emax - prec).
Qed.

Lemma signed_weaken (s : bool) (f : spec_float) : signed s f → signed_or_zero s f.
Proof. by destruct f. Qed.

Lemma SFdiv_signed (sx sy : bool) (x y : spec_float) :
  signed_or_zero sx x → signed sy y → signed_or_zero (xorb sx sy) (SF64div x y).
Proof.
  unfold SF64div, SFdiv.
  destruct x as [sx'| sx'| |sx' mx ex], y as [sy'|sy'| |sy' my ey]; simpl;
    try done; try (by intros -> ->); try (by intros _ ->).
  intros -> ->.
  destruct (SFdiv_core_binary prec emax (Z.pos mx) ex (Z.pos my) ey) as [[mz ez] lz].
  apply signed_weaken, binary_round_aux_signed.
Qed.

Lemma SFdiv_zero (x y : spec_float) : zero_or_nan x → zero_or_nan (SF64div x y).
Proof. unfold SF64div, SFdiv. by destruct x, y. Qed.

Lemma div_signed (sx sy : bool) (x y : float) :
  signed_or_zero sx (Prim2SF x) → signed sy (Prim2SF y) →
  signed_or_zero (xorb sx sy) (Prim2SF (x / y)).
Proof. rewrite FloatAxioms.div_spec. apply SFdiv_signed. Qed.

Lemma div_zero (x y : float) : zero_or_nan (Prim2SF x) → zero_or_nan (Prim2SF (x / y)).
Proof. rewrite FloatAxioms.div_spec. apply SFdiv_zero. Qed.

Lemma of_nat_signed (n : nat) : signed false (Prim2SF (of_nat n)).
Proof.
  unfold of_nat. rewrite of_uint63_spec.
  pose proof (Uint63.to_Z_bounded (Uint63.of_Z (Z.of_nat n))) as [H0 _].
  unfold binary_normalize.
  destruct (Uint63Axioms.to_Z (Uint63.of_Z (Z.of_nat n))) as [|p|p]; [done| |lia].
  unfold binary_round.
  destruct (shl_align p 0 _). apply binary_round_aux_signed.
Qed.

Lemma nonpositive_signed (x : float) :
  (x <=? 0)%float = true → signed_or_zero true (Prim2SF x).
Proof.
  rewrite FloatAxioms.leb_spec. unfold SFleb.
  change (Prim2SF 0) with (S754_zero false).
  by destruct (Prim2SF x) as [s|[]| |[] m e].
Qed.

Lemma positive_signed (x : float) : (0 <? x)%float = true → signed false (Prim2SF x).
Proof.
  rewrite FloatAxioms.ltb_spec. unfold SFltb.
  change (Prim2SF 0) with (S754_zero false).
  by destruct (Prim2SF x) as [s|[]| |[] m e].
Qed.

Lemma is_zero_class (x : float) : is_zero x = true → ∃ s, Prim2SF x = S754_zero s.
Proof.
  unfold is_zero. rewrite FloatAxioms.eqb_spec. unfold SFeqb.
  change (Prim2SF 0) with (S754_zero false).
  destruct (Prim2SF x) as [s|[]| |[] m e]; try done. eauto.
Qed.




End binary64.

(** ** The share cell on binary64 numbers *)
Section binary64_shares.
Import Binary64.
Context `{PricedRow row}.

Lemma position_size_of_ok (B : float) (df : list row) :
  df ≠ [] → position_size_of B df = Ok (B / of_nat (length df))%float.
Proof. by destruct df. Qed.

(** When every quotient is finite the cell raises nothing and writes the
    floor of the quotient of every row. *)
Lemma binary64_calc_shares_ok (B : float) (df : list row) :
  df ≠ [] →
  Forall (λ r, is_finite (B / of_nat (length df) / price_of r) = true) df →
  calc_shares B df
  = ((λ r, with_shares (Qfloor (exact (B / of_nat (length df) / price_of r))) r) <$> df,
     None).
Proof.
  intros Hne Hfin. unfold calc_shares. rewrite position_size_of_ok by done.
  apply (for_each_table _ _ (λ _, True)
           (λ r, is_finite (B / of_nat (length df) / price_of r) = true));
    [|done|done].
  intros done r rest _ Hr. split; [|done]. unfold buy.
  rewrite list_lookup_middle by done. rewrite floor_finite by done.
  by rewrite insert_middle.
Qed.

(** The cell stops at the first row the quotient of which is not finite. *)
Lemma binary64_calc_shares_stops (B : float) (before after : list row) (r : row) (e : exn) :
  let position_size := (B / of_nat (length (before ++ r :: after)))%float in
  Forall (λ x, is_finite (position_size / price_of x) = true) before →
  floor (position_size / price_of r) = Raise e →
  calc_shares B (before ++ r :: after)
  = (((λ x, with_shares (Qfloor (exact (position_size / price_of x))) x) <$> before)
       ++ r :: after,
     Some e).
Proof.
  intros position_size Hbefore Hr. unfold calc_shares.
  rewrite position_size_of_ok by (by destruct before).
  apply (for_each_rows_stop _ _ (λ _, True)
           (λ x, is_finite (position_size / price_of x) = true) e r after)
    with (done := []); [| |done|done].
  - intros done x rest' _ Hx. split; [|done]. unfold buy.
    rewrite list_lookup_middle by done. fold position_size.
    rewrite floor_finite by done. by rewrite insert_middle.
  - intros done _. unfold buy. rewrite list_lookup_middle by done.
    fold position_size. by rewrite Hr.
Qed.

End binary64_shares.




(** C8 (as the code has it): a budget of zero or less is not rejected.  On a
    non-empty table of prices above zero, when the quotients
    position_size / price are finite, the cell, which runs after the table
    has been fetched, raises nothing and writes for every row the floor of
    the binary64 quotient, a share count that is zero or negative; it is
    zero for a budget of zero. *)
Theorem nonpositive_budget_not_rejected `{Binary64.PricedRow row} (B : float)
    (df : list row) :
  (B <=? 0)%float = true → df ≠ [] →
  let position_size := (B / Binary64.of_nat (length df))%float in
  Forall (λ r, (0 <? Binary64.price_of r)%float = true
               ∧ is_finite (position_size / Binary64.price_of r) = true) df →
  (Binary64.calc_shares B df).2 = None
  ∧ Forall2 (λ r r', ∃ n,
               Binary64.shares_of r' = Some n
               ∧ Binary64.floor (position_size / Binary64.price_of r) = Ok n
               ∧ n ≤ 0
               ∧ (is_zero B = true → n = 0))
      df (Binary64.calc_shares B df).1.
Proof.
  intros HB Hne position_size Hdf.
  assert (Hfin : Forall (λ r, is_finite (position_size / Binary64.price_of r) = true) df).
  { eapply Forall_impl; [exact Hdf|]. by intros r [_ Hr]. }
  rewrite binary64_calc_shares_ok by done. split; [done|]. cbn [fst].
  apply Forall2_fmap_r, Forall_Forall2_diag.
  eapply Forall_impl; [exact Hdf|]. intros r [Hpos Hr].
  eexists. split; [apply Binary64.shares_with_shares|].
  fold position_size. pose proof (floor_finite _ Hr) as Hfloor.
  split_and!.
  - exact Hfloor.
  - refine (floor_nonpositive _ _ _ Hfloor).
    apply (div_signed true false); [|by apply positive_signed].
    apply (div_signed true false); [by apply nonpositive_signed | apply of_nat_signed].
  - intros HB0. apply is_zero_class in HB0 as [s HB0].
    assert (Hz : Binary64.floor (position_size / Binary64.price_of r) = Ok 0).
    { apply floor_zero; [|done]. apply div_zero, div_zero. by rewrite HB0. }
    congruence.
Qed.

Lemma nonpositive_budget_not_rejected_witness :
  (Binary64.calc_shares (-9800) Binary64.EqualWeight.seven_at_0_35).2 = None
  ∧ Binary64.EqualWeight.num_of_shares_to_buy
      <$> (Binary64.calc_shares (-9800) Binary64.EqualWeight.seven_at_0_35).1
    = replicate 7 (Some (-4001))
  ∧ Forall (λ r, ∃ n, Binary64.EqualWeight.num_of_shares_to_buy r = Some n ∧ n ≤ 0)
      (Binary64.calc_shares (-9800) Binary64.EqualWeight.seven_at_0_35).1.
Proof.
  destruct (nonpositive_budget_not_rejected (-9800)%float Binary64.EqualWeight.seven_at_0_35)
    as (Hrun & Hshares).
  - reflexivity.
  - discriminate.
  - repeat constructor.
  - split; [exact Hrun|]. split; [vm_compute; reflexivity|].
    eapply Forall2_Forall_r; [exact Hshares|].
    apply Forall_forall. intros r _ r' (n & Hn & _ & Hle & _). eauto.
Defined.

(** C8 fails: with a budget of zero the cell ends without any error and asks
    for zero shares of each stock. *)
Lemma zero_budget_no_error :
  (calc_shares 0 Momentum.Screener.scenario_A).2 = None
  ∧ Momentum.Screener.num_of_shares_to_buy
      <$> (calc_shares 0 Momentum.Screener.scenario_A).1
    = [Some 0; Some 0]
  ∧ ¬ ∃ e, (calc_shares 0 Momentum.Screener.scenario_A).2 = Some e.
Proof.
  split_and!; [reflexivity | reflexivity |].
  intros [e He]. vm_compute in He. discriminate.
Qed.

(** ** Percentile ranks *)

Lemma count_nonzero_cons (b : bool) (bs : list bool) :
  (Scipy.count_nonzero (b :: bs) == Scipy.count_nonzero bs + (if b then 1 else 0))%Q.
Proof.
  unfold Scipy.count_nonzero. destruct b.
  - rewrite filter_cons_True by done. rewrite len_cons. reflexivity.
  - rewrite filter_cons_False by done. ring.
Qed.

Lemma count_lt_cons (x : Q) (a : list Q) (v : Q) :
  (Scipy.count_lt (x :: a) v == Scipy.count_lt a v + (if Qltb x v then 1 else 0))%Q.
Proof. apply count_nonzero_cons. Qed.

Lemma count_le_cons (x : Q) (a : list Q) (v : Q) :
  (Scipy.count_le (x :: a) v == Scipy.count_le a v + (if Qle_bool x v then 1 else 0))%Q.
Proof. apply count_nonzero_cons. Qed.


(** Rows below [v] are among the rows at or below [v], which are among all
    rows. *)
Lemma count_lt_le_len (a : list Q) (v : Q) :
  (Scipy.count_lt a v <= Scipy.count_le a v)%Q ∧ (Scipy.count_le a v <= len a)%Q.
Proof.
  induction a as [|x a [IH1 IH2]].
  - split; apply Qle_refl.
  - rewrite count_lt_cons, count_le_cons, len_cons.
    destruct (Qltb x v) eqn:Elt.
    + apply Qltb_lt, Qlt_le_weak, Qle_bool_iff in Elt. rewrite Elt.
      cbv iota. split; lra.
    + destruct (Qle_bool x v); cbv iota; split; lra.
Qed.

(** A value of the column counts among the rows at or below itself but not
    among the rows below. *)
Lemma count_lt_succ_le (a : list Q) (v : Q) :
  v ∈ a → (Scipy.count_lt a v + 1 <= Scipy.count_le a v)%Q.
Proof.
  induction 1 as [v a|v x a _ IH].
  - rewrite count_lt_cons, count_le_cons.
    destruct (count_lt_le_len a v) as [H _].
    assert (Qle_bool v v = true) as -> by apply Qle_bool_iff, Qle_refl.
    assert (Qltb v v = false) as ->.
    { apply not_true_iff_false. rewrite Qltb_lt. apply Qlt_irrefl. }
    cbv iota. lra.
  - rewrite count_lt_cons, count_le_cons.
    destruct (Qltb x v) eqn:Elt.
    + apply Qltb_lt, Qlt_le_weak, Qle_bool_iff in Elt. rewrite Elt. cbv iota. lra.
    + destruct (Qle_bool x v); cbv iota; lra.
Qed.


(** The rank of a value of the column, as a fraction. *)
Lemma percentile_of_member (a : list Q) (v : Q) :
  v ∈ a →
  (Scipy.percentileofscore a v / 100
   == (Scipy.count_lt a v + Scipy.count_le a v + 1) / (2 * len a))%Q.
Proof.
  intros Hv. unfold Scipy.percentileofscore.
  pose proof (count_lt_succ_le a v Hv) as Hlt.
  assert (Hn : (0 < len a)%Q) by (apply len_pos; by destruct Hv).
  assert (Qltb (Scipy.count_lt a v) (Scipy.count_le a v) = true) as ->.
  { apply Qltb_lt. lra. }
  field. by apply Qpos_nonzero.
Qed.


(** ** The percentile loop of the momentum notebook *)
Section percentiles.
Import Momentum.HQM.

Lemma mapM_fmap_eq {A B} (f : A → option B) (l1 l2 : list A) :
  f <$> l1 = f <$> l2 → mapM f l1 = mapM f l2.
Proof.
  revert l2. induction l1 as [|x l1 IH]; intros [|y l2] E; try done.
  simpl in E. injection E as Exy El. simpl. by rewrite Exy, (IH l2 El).
Qed.

Lemma return_col_set_percentile (tp tp' : time_period) (p : Q) (r : row) :
  return_col tp' (set_percentile tp p r) = return_col tp' r.
Proof. by destruct tp'. Qed.

Lemma return_col_ranked (cols : time_period → list Q) (tp : time_period) (r : row) :
  return_col tp (ranked cols r) = return_col tp r.
Proof. by destruct tp. Qed.

Lemma percentile_col_ranked (cols : time_period → list Q) (tp : time_period) (r : row) :
  percentile_col tp (ranked cols r)
  = Some (Scipy.percentileofscore (cols tp) (default 0%Q (return_col tp r)) / 100)%Q.
Proof. by destruct tp. Qed.

(** One cell of the loop, on the row after [done]. *)
Lemma percentile_cell_ok (cols : time_period → list Q) (done rest : list row)
    (r : row) (tp : time_period) :
  (∀ tp', column (return_col tp') (done ++ r :: rest) = Some (cols tp')) →
  let r' := set_percentile tp
              (Scipy.percentileofscore (cols tp) (default 0%Q (return_col tp r)) / 100)%Q r in
  percentile_cell (length done) tp (done ++ r :: rest) = (done ++ r' :: rest, None)
  ∧ (∀ tp', column (return_col tp') (done ++ r' :: rest) = Some (cols tp')).
Proof.
  intros Hcols r'. split.
  - unfold percentile_cell. rewrite list_lookup_middle by done. rewrite Hcols.
    assert (is_Some (return_col tp r)) as [v Hv].
    { assert (Hall : is_Some (column (return_col tp) (done ++ r :: rest)))
        by (rewrite Hcols; eauto).
      apply mapM_is_Some_1, Forall_app in Hall as [_ Hall].
      by apply Forall_cons in Hall as [Hall _]. }
    subst r'. rewrite Hv. simpl. by rewrite insert_middle.
  - intros tp'. rewrite <- (Hcols tp'). apply mapM_fmap_eq.
    rewrite !fmap_app, !fmap_cons. subst r'. by rewrite return_col_set_percentile.
Qed.

(** The loop ranks every row against the columns of the table. *)
Lemma calc_percentiles_ok (cols : time_period → list Q) (df : list row) :
  (∀ tp, column (return_col tp) df = Some (cols tp)) →
  calc_percentiles df = (ranked cols <$> df, None).
Proof.
  intros Hcols. unfold calc_percentiles.
  apply (for_each_table _ _
           (λ s, ∀ tp, column (return_col tp) s = Some (cols tp)) (λ _, True));
    [|done|by apply Forall_true].
  intros done r rest H _. unfold time_periods. simpl.
  destruct (percentile_cell_ok cols done rest r one_year H) as [-> H1].
  destruct (percentile_cell_ok cols done rest _ six_month H1) as [-> H2].
  destruct (percentile_cell_ok cols done rest _ three_month H2) as [-> H3].
  destruct (percentile_cell_ok cols done rest _ one_month H3) as [-> H4].
  split; [reflexivity | exact H4].
Qed.

Lemma complete_columns (df : list row) :
  complete df → ∀ tp, is_Some (column (return_col tp) df).
Proof.
  intros Hc tp. apply mapM_is_Some_2.
  eapply Forall_impl; [exact Hc|]. intros r Hr. apply Hr.
Qed.

(** On a table without a missing return the loop raises nothing, and the
    percentile it writes for a row and a period is the rank of the row's
    return within the column of that period, a value of which it is. *)
Lemma percentile_written (df : list row) (i : nat) (r : row) (tp : time_period)
    (a : list Q) (v : Q) :
  complete df →
  column (return_col tp) df = Some a →
  (calc_percentiles df).1 !! i = Some r →
  return_col tp r = Some v →
  (calc_percentiles df).2 = None
  ∧ v ∈ a
  ∧ percentile_col tp r = Some (Scipy.percentileofscore a v / 100)%Q.
Proof.
  intros Hc Ha Hi Hv.
  set (cols := λ tp, default [] (column (return_col tp) df)).
  assert (Hcols : ∀ tp, column (return_col tp) df = Some (cols tp)).
  { intros tp'. unfold cols. by destruct (complete_columns df Hc tp') as [a' ->]. }
  rewrite (calc_percentiles_ok cols df Hcols) in *. simpl in *.
  apply list_lookup_fmap_Some in Hi as (r0 & -> & Hi).
  rewrite return_col_ranked in Hv.
  assert (cols tp = a) as Ea by (unfold cols; by rewrite Ha).
  split_and!.
  - done.
  - apply mapM_Some_1 in Ha.
    destruct (Forall2_lookup_l _ _ _ _ _ Ha Hi) as (v' & Hv' & Hr0).
    rewrite Hv in Hr0. injection Hr0 as ->. by eapply list_elem_of_lookup_2.
  - by rewrite percentile_col_ranked, Hv, Ea.
Qed.

End percentiles.

(** ** Percentile ranks on binary64 numbers *)
Section binary64_percentiles.
Import Momentum.HQM Binary64 Binary64.HQM.





Lemma returns_set_percentile (tp : time_period) (p : float) (r : row) :
  returns (set_percentile tp p r) = returns r.
Proof. done. Qed.

Lemma returns_ranked (df : list row) (r : row) : returns (ranked df r) = returns r.
Proof. done. Qed.





End binary64_percentiles.







(** The percentile the cell computes for the lowest of 37 different returns
    is the double 0.027027027027027025, which is below 1/37. *)
Example lowest_of_37 :
  (λ r, Binary64.HQM.percentiles r Momentum.HQM.one_year)
    <$> take 1 (Binary64.HQM.calc_percentiles Binary64.HQM.thirty_seven_rows).1
  = [Some 0.027027027027027025%float]
  ∧ (Binary64.exact 0.027027027027027025 < 1 # 37)%Q.
Proof. split; vm_compute; reflexivity. Qed.


(** ** The score loop of the momentum notebook *)

(** On a table without a missing return the score loop raises nothing and
    writes, for every row, the mean of the four returns of the row. *)
Lemma calc_scores_ok (df : list Momentum.HQM.row) :
  Momentum.HQM.complete df →
  Momentum.HQM.calc_scores df
  = ((λ r, Momentum.HQM.set_momentum_score
             (sum ((λ tp, default 0%Q (Momentum.HQM.return_col tp r))
                     <$> Momentum.HQM.time_periods)
              / len Momentum.HQM.time_periods)%Q r) <$> df,
     None).
Proof.
  intros Hc. unfold Momentum.HQM.calc_scores.
  apply (for_each_table _ _ (λ _, True)
           (λ r, ∀ tp, is_Some (Momentum.HQM.return_col tp r))); [|done|done].
  intros done r rest _ Hr. split; [|done]. unfold Momentum.HQM.score_cell.
  rewrite list_lookup_middle by done.
  destruct (Hr Momentum.HQM.one_year) as [y Hy].
  destruct (Hr Momentum.HQM.six_month) as [s Hs].
  destruct (Hr Momentum.HQM.three_month) as [t Ht].
  destruct (Hr Momentum.HQM.one_month) as [m Hm].
  simpl in *. rewrite Hy, Hs, Ht, Hm. simpl. by rewrite insert_middle.
Qed.

(** C2 does not hold of the code: the score loop averages the four returns,
    not the four percentiles.  For a table of one row, every return of which
    is 0.5, the four percentiles are 1 and their mean is 1, while the score
    written is 0.5. *)
Theorem momentum_score_averages_returns :
  ∃ r s,
    and_then Momentum.HQM.calc_percentiles Momentum.HQM.calc_scores
      Momentum.HQM.lone_row = ([r], None)
    ∧ Momentum.HQM.momentum_score r = Some s
    ∧ (s == 1 # 2)%Q
    ∧ (∃ m, Momentum.HQM.mean_of_percentiles r = Ok m ∧ (m == 1)%Q)
    ∧ ¬ (s == 1)%Q.
Proof.
  eexists _, _. split_and!; try reflexivity.
  - eexists. split; reflexivity.
  - intros E. vm_compute in E. discriminate.
Qed.

(** ** Building the table of the momentum notebook *)
Section hqm_build.
Import Momentum Momentum.HQM.

Lemma append_symbol_raises (data : gmap string entry) (symbol : string) (df : list row) :
  (append_symbol data symbol df).2 = None
  ∨ (append_symbol data symbol df).2 = Some KeyError.
Proof. unfold append_symbol. destruct (data !! symbol); [by left | by right]. Qed.

(** A batch that is answered raises nothing but [KeyError]. *)
Lemma fetch_batch_answered (get : string → response) (symbol_string : string)
    (df : list row) :
  status_code (get symbol_string) = 200 →
  (fetch_batch get symbol_string df).2 = None
  ∨ (fetch_batch get symbol_string df).2 = Some KeyError.
Proof.
  intros Hs. unfold fetch_batch. rewrite Hs. simpl.
  apply for_each_raises_only. intros. apply append_symbol_raises.
Qed.

(** A batch raises nothing but [KeyError] and [AssertionError]. *)
Lemma fetch_batch_raises (get : string → response) (symbol_string : string)
    (df : list row) (e : exn) :
  (fetch_batch get symbol_string df).2 = Some e → e = KeyError ∨ e = AssertionError.
Proof.
  destruct (Z.eq_dec (status_code (get symbol_string)) 200) as [Hs|Hs].
  - destruct (fetch_batch_answered get symbol_string df Hs) as [-> | ->]; [done|].
    intros [= <-]. by left.
  - unfold fetch_batch. destruct (Z.eqb_spec (status_code (get symbol_string)) 200); [done|].
    intros [= <-]. by right.
Qed.

(** A batch the answer to which lacks a symbol of its string stops with
    [KeyError]. *)
Lemma fetch_batch_missing (get : string → response) (symbol_string symbol : string)
    (df : list row) :
  status_code (get symbol_string) = 200 →
  symbol ∈ Str.split Str.comma symbol_string →
  json (get symbol_string) !! symbol = None →
  (fetch_batch get symbol_string df).2 = Some KeyError.
Proof.
  intros Hs Hin Hnone. unfold fetch_batch. rewrite Hs. simpl.
  apply (for_each_raises _ _ _ symbol Hin).
  - intros s. unfold append_symbol. by rewrite Hnone.
  - intros. apply append_symbol_raises.
Qed.

Lemma fetch_batches_answered (get : string → response) (xs : list string)
    (df : list row) :
  (∀ s, s ∈ xs → status_code (get s) = 200) →
  (for_each (fetch_batch get) xs df).2 = None
  ∨ (for_each (fetch_batch get) xs df).2 = Some KeyError.
Proof.
  revert df. induction xs as [|x xs IH]; intros df Hxs; simpl; [by left|].
  destruct (fetch_batch_answered get x df (Hxs x ltac:(left))) as [H|H];
    destruct (fetch_batch get x df) as [df' [e'|]]; simpl in *; try discriminate.
  - apply IH. intros s Hs. apply Hxs. by right.
  - by right.
Qed.

(** The rows of the table under construction have no share count and no
    score. *)
Lemma build_unplanned (get : string → response) (stocks : list string) :
  Forall (λ r, num_of_shares_to_buy r = None ∧ momentum_score r = None)
         (build get stocks).1.
Proof.
  unfold build. destruct (chunks_generator stocks 100) as [groups|e]; [|constructor].
  apply (for_each_preserves _ (Forall _)); [|constructor].
  intros s df Hdf. unfold fetch_batch.
  destruct (status_code (get s) =? 200); [|done].
  apply (for_each_preserves _ (Forall _)); [|done].
  intros symbol df' Hdf'. unfold append_symbol.
  destruct (json (get s) !! symbol); [|done]. simpl.
  apply Forall_app. split; [done|]. by repeat constructor.
Qed.

(** The rows a batch adds when its answer holds all of its symbols. *)
Lemma hqm_fetch_batch (get : string → response) (entry_of : string → entry)
    (group : list string) (df : list row) :
  let symbol_string := Str.join (String Str.comma EmptyString) group in
  Str.split Str.comma symbol_string = group →
  status_code (get symbol_string) = 200 →
  (∀ s, s ∈ group → json (get symbol_string) !! s = Some (entry_of s)) →
  fetch_batch get symbol_string df
  = (df ++ ((λ s, Fetched.hqm_row s (entry_of s)) <$> group), None).
Proof.
  intros symbol_string Hsplit Hs Hall. unfold fetch_batch. rewrite Hs, Hsplit. simpl.
  rewrite <- concat_singletons. apply for_each_extend.
  intros s Hin df'. unfold append_symbol. by rewrite (Hall s Hin).
Qed.

(** With an answer for every symbol, the table holds one row per stock. *)
Lemma hqm_build_rows (get : string → response) (entry_of : string → entry)
    (stocks : list string) :
  Forall (λ symbol, Str.contains Str.comma symbol = false) stocks →
  (∀ groups group, chunks_generator stocks 100 = Ok groups → group ∈ groups →
     let symbol_string := Str.join (String Str.comma EmptyString) group in
     status_code (get symbol_string) = 200
     ∧ ∀ s, s ∈ group → json (get symbol_string) !! s = Some (entry_of s)) →
  build get stocks = ((λ s, Fetched.hqm_row s (entry_of s)) <$> stocks, None).
Proof.
  intros Hcomma Hget. unfold build.
  destruct (chunks_generator stocks 100) as [groups|e] eqn:Hgroups.
  2: { by rewrite chunks_generator_pos in Hgroups. }
  unfold symbol_strings. rewrite for_each_fmap.
  rewrite (for_each_extend _ (fmap (λ s, Fetched.hqm_row s (entry_of s)))).
  - simpl. rewrite concat_fmap_fmap.
    by rewrite (chunks_generator_concat stocks 100 groups).
  - intros g Hg df. destruct (Hget groups g eq_refl Hg) as [Hs Hall].
    apply hqm_fetch_batch; [|done|done].
    by apply (split_symbol_string stocks 100 groups).
Qed.

Lemma drop_outdated_column (df : list row) :
  column one_year_return (drop_outdated df) = Some (omap one_year_return df).
Proof.
  unfold column, drop_outdated, Pandas.dropna. induction df as [|r df IH]; [done|].
  destruct (one_year_return r) as [y|] eqn:E.
  - rewrite filter_cons_True by (rewrite E; eauto).
    simpl. rewrite E. simpl. simpl in IH. by rewrite IH.
  - rewrite filter_cons_False by (rewrite E; by intros [? ?]).
    simpl. by rewrite E.
Qed.

End hqm_build.

(** C5 (as the code has it): when the answer to a batch lacks a symbol of the
    string the batch was asked with, the notebook stops with an exception
    while the table is built and no plan is made: with [KeyError], or with
    [AssertionError] when a request before it was refused.  When every symbol
    is answered, the rows the one-year return of which is null are dropped
    before any percentile is computed: the rest of the notebook runs on the
    rows that are left, which keep their order, and the one-year column that
    the percentile cell ranks holds exactly the returns that were present,
    none replaced by zero. *)
Theorem missing_symbol_stops_null_year_dropped :
  (∀ (get : string → Momentum.response) (stocks : list string)
     (groups : list (list string)) (symbol_string symbol : string),
     chunks_generator stocks 100 = Ok groups →
     symbol_string ∈ symbol_strings groups →
     symbol ∈ Str.split Str.comma symbol_string →
     Momentum.status_code (get symbol_string) = 200 →
     Momentum.json (get symbol_string) !! symbol = None →
     ((Momentum.HQM.notebook get stocks).2 = Some KeyError
      ∨ (Momentum.HQM.notebook get stocks).2 = Some AssertionError)
     ∧ ((∀ s, s ∈ symbol_strings groups → Momentum.status_code (get s) = 200) →
        (Momentum.HQM.notebook get stocks).2 = Some KeyError)
     ∧ Forall (λ r, Momentum.HQM.num_of_shares_to_buy r = None
                    ∧ Momentum.HQM.momentum_score r = None)
              (Momentum.HQM.notebook get stocks).1)
  ∧ (∀ (get : string → Momentum.response) (entry_of : string → Momentum.entry)
       (stocks : list string),
       Forall (λ symbol, Str.contains Str.comma symbol = false) stocks →
       (∀ groups group, chunks_generator stocks 100 = Ok groups → group ∈ groups →
          let symbol_string := Str.join (String Str.comma EmptyString) group in
          Momentum.status_code (get symbol_string) = 200
          ∧ ∀ s, s ∈ group →
                 Momentum.json (get symbol_string) !! s = Some (entry_of s)) →
       let fetched := (λ s, Fetched.hqm_row s (entry_of s)) <$> stocks in
       let kept := Momentum.HQM.drop_outdated fetched in
       Momentum.HQM.notebook get stocks = Momentum.HQM.rank_and_allocate kept
       ∧ kept `sublist_of` fetched
       ∧ (∀ r, r ∈ fetched → r ∈ kept ↔ is_Some (Momentum.HQM.one_year_return r))
       ∧ Momentum.HQM.column (Momentum.HQM.return_col Momentum.HQM.one_year) kept
         = Some (omap Momentum.HQM.one_year_return fetched)).
Proof.
  split.
  - intros get stocks groups symbol_string symbol Hgroups Hin Hsym Hstatus Hnone.
    pose proof (build_unplanned get stocks) as Hplan.
    unfold Momentum.HQM.notebook.
    assert (Hbuild : ∃ e, (Momentum.HQM.build get stocks).2 = Some e
                          ∧ (e = KeyError ∨ e = AssertionError)).
    { unfold Momentum.HQM.build. rewrite Hgroups.
      apply (for_each_raises_in _ _ _ symbol_string Hin).
      - intros df. exists KeyError. by apply (fetch_batch_missing get _ symbol).
      - intros s df e. apply fetch_batch_raises. }
    assert (Hkey : (∀ s, s ∈ symbol_strings groups → Momentum.status_code (get s) = 200) →
                   (Momentum.HQM.build get stocks).2 = Some KeyError).
    { intros Hall. destruct Hbuild as (e & He & [-> | ->]); [done|].
      unfold Momentum.HQM.build in He. rewrite Hgroups in He.
      destruct (fetch_batches_answered get _ [] Hall) as [H|H];
        rewrite He in H; discriminate. }
    destruct (Momentum.HQM.build get stocks) as [df [e|]]; simpl in *.
    + destruct Hbuild as (e' & [= <-] & He). split_and!; [|done|done].
      destruct He as [-> | ->]; [by left | by right].
    + by destruct Hbuild as (e' & He & _).
  - intros get entry_of stocks Hcomma Hget fetched kept.
    unfold Momentum.HQM.notebook.
    rewrite (hqm_build_rows get entry_of stocks Hcomma Hget).
    fold fetched. fold kept. split_and!.
    + done.
    + apply sublist_filter.
    + intros r Hr. unfold kept, Momentum.HQM.drop_outdated, Pandas.dropna.
      rewrite list_elem_of_filter. tauto.
    + exact (drop_outdated_column fetched).
Qed.

Lemma missing_symbol_stops_null_year_dropped_witness :
  (Momentum.HQM.notebook Momentum.HQM.two_of_three ["A"; "B"; "C"]%string).2
  = Some KeyError
  ∧ Momentum.HQM.notebook Echo.stats ["A"; "AAL"; "AAP"]%string
    = Momentum.HQM.rank_and_allocate
        (Momentum.HQM.drop_outdated
           ((λ s, Fetched.hqm_row s (Echo.entry_of s)) <$> ["A"; "AAL"; "AAP"]%string)).
Proof.
  split.
  - destruct (proj1 missing_symbol_stops_null_year_dropped Momentum.HQM.two_of_three
                ["A"; "B"; "C"]%string [["A"; "B"; "C"]%string] "A,B,C"%string "C"%string)
      as (_ & H & _).
    + reflexivity.
    + apply list_elem_of_here.
    + apply list_elem_of_In. simpl. auto.
    + reflexivity.
    + reflexivity.
    + apply H. intros s _. reflexivity.
  - destruct (proj2 missing_symbol_stops_null_year_dropped Echo.stats Echo.entry_of
                ["A"; "AAL"; "AAP"]%string) as (H & _).
    + repeat constructor.
    + intros groups group [= <-] Hg.
      apply list_elem_of_singleton in Hg as ->. split; [reflexivity|].
      intros s Hs.
      repeat (apply elem_of_cons in Hs as [->|Hs]; [vm_compute; reflexivity|]).
      by apply elem_of_nil in Hs.
    + exact H.
Defined.

(** C5 fails: a batch of three symbols answered for two does not give a
    table of two rows and a list of dropped symbols; the run stops with
    [KeyError] while the table is being built. *)
Lemma missing_symbol_is_fatal :
  (Momentum.HQM.build Momentum.HQM.two_of_three ["A"; "B"; "C"]%string).2 = Some KeyError
  ∧ (Momentum.HQM.notebook Momentum.HQM.two_of_three ["A"; "B"; "C"]%string).2
    = Some KeyError
  ∧ (Momentum.HQM.notebook Momentum.HQM.two_of_three ["A"; "B"; "C"]%string).2 ≠ None.
Proof. split_and!; [vm_compute; reflexivity | vm_compute; reflexivity | vm_compute; discriminate]. Qed.

(** ** NumPy's argsort orders every array

    The introsort of npysort, followed through its partitions, its insertion
    sort and its heapsort: the index array it returns rearranges the
    positions of the array, and the values do not decrease along it. *)
Section basics.
Import Numpy Npysort.
Variable v : list Q.

Lemma less_true (a b : nat) : less v a b = true ↔ (v !!! a < v !!! b)%Q.
Proof. apply Qltb_lt. Qed.

Lemma less_false (a b : nat) : less v a b = false ↔ kle v b a.
Proof.
  unfold less, Qltb, kle. rewrite negb_false_iff. apply Qle_bool_iff.
Qed.

Lemma kle_refl (a : nat) : kle v a a.
Proof. apply Qle_refl. Qed.

Lemma kle_trans (a b c : nat) : kle v a b → kle v b c → kle v a c.
Proof. apply Qle_trans. Qed.

Lemma kle_total (a b : nat) : kle v a b ∨ kle v b a.
Proof. unfold kle. destruct (Qlt_le_dec (v !!! b) (v !!! a)); [right; by apply Qlt_le_weak | by left]. Qed.

Lemma less_kle (a b : nat) : less v a b = true → kle v a b.
Proof. rewrite less_true. apply Qlt_le_weak. Qed.

Lemma length_put (t : list nat) (p : Z) (x : nat) : length (put t p x) = length t.
Proof. apply length_insert. Qed.

Lemma at_put_eq (t : list nat) (p : Z) (x : nat) :
  0 ≤ p < Z.of_nat (length t) → at_ (put t p x) p = x.
Proof.
  intros Hp. unfold at_, put. apply list_lookup_total_insert_eq. lia.
Qed.

Lemma at_put_ne (t : list nat) (p q : Z) (x : nat) :
  0 ≤ p → 0 ≤ q → p ≠ q → at_ (put t p x) q = at_ t q.
Proof.
  intros Hp Hq Hne. unfold at_, put. apply list_lookup_total_insert_ne. lia.
Qed.

Lemma length_swap (t : list nat) (p q : Z) : length (INTP_SWAP t p q) = length t.
Proof. unfold INTP_SWAP. by rewrite !length_put. Qed.

Lemma at_swap_l (t : list nat) (p q : Z) :
  0 ≤ p < Z.of_nat (length t) → 0 ≤ q < Z.of_nat (length t) →
  at_ (INTP_SWAP t p q) p = at_ t q.
Proof.
  intros Hp Hq. unfold INTP_SWAP. destruct (decide (p = q)) as [->|Hne].
  - rewrite at_put_eq by (rewrite length_put; lia). done.
  - rewrite at_put_ne by lia. by rewrite at_put_eq.
Qed.

Lemma at_swap_r (t : list nat) (p q : Z) :
  0 ≤ p < Z.of_nat (length t) → 0 ≤ q < Z.of_nat (length t) →
  at_ (INTP_SWAP t p q) q = at_ t p.
Proof.
  intros Hp Hq. unfold INTP_SWAP. rewrite at_put_eq by (rewrite length_put; lia). done.
Qed.

Lemma at_swap_ne (t : list nat) (p q r : Z) :
  0 ≤ p → 0 ≤ q → 0 ≤ r → r ≠ p → r ≠ q → at_ (INTP_SWAP t p q) r = at_ t r.
Proof.
  intros Hp Hq Hr Hrp Hrq. unfold INTP_SWAP. by rewrite !at_put_ne by lia.
Qed.

Lemma insert_cons_Permutation {A} (t : list A) (k : nat) (a y : A) :
  t !! k = Some y → y :: <[k := a]> t ≡ₚ a :: t.
Proof.
  revert k. induction t as [|b t IH]; intros [|k] Hk; try done.
  - injection Hk as ->. simpl. apply perm_swap.
  - simpl in *. rewrite perm_swap. rewrite (IH k Hk). apply perm_swap.
Qed.

Lemma insert_swap_lt {A} (t : list A) (i j : nat) (x y : A) :
  (i < j)%nat → t !! i = Some x → t !! j = Some y →
  <[j := x]> (<[i := y]> t) ≡ₚ t.
Proof.
  revert i j. induction t as [|a t IH]; intros i j Hij Hi Hj; [done|].
  destruct j as [|j]; [lia|]. destruct i as [|i]; simpl in *.
  - injection Hi as ->. by apply insert_cons_Permutation.
  - apply perm_skip. apply IH; [lia|done|done].
Qed.

Lemma insert_swap_Permutation {A} (t : list A) (i j : nat) (x y : A) :
  t !! i = Some x → t !! j = Some y → <[j := x]> (<[i := y]> t) ≡ₚ t.
Proof.
  intros Hi Hj. destruct (Nat.lt_trichotomy i j) as [H|[->|H]].
  - by apply insert_swap_lt.
  - rewrite Hi in Hj. injection Hj as ->. rewrite list_insert_insert_eq.
    by rewrite list_insert_id.
  - rewrite list_insert_insert_ne by lia. by apply insert_swap_lt.
Qed.

Lemma swap_Permutation (t : list nat) (p q : Z) :
  0 ≤ p < Z.of_nat (length t) → 0 ≤ q < Z.of_nat (length t) →
  INTP_SWAP t p q ≡ₚ t.
Proof.
  intros Hp Hq. unfold INTP_SWAP, put, at_.
  apply insert_swap_Permutation; apply list_lookup_lookup_total_lt; lia.
Qed.

End basics.

Section frames.
Import Numpy Npysort.
Variable v : list Q.

Lemma frame_refl (lo hi : Z) (t : list nat) : frame lo hi t t.
Proof. by split. Qed.

Lemma frame_trans (lo hi : Z) (t1 t2 t3 : list nat) :
  frame lo hi t1 t2 → frame lo hi t2 t3 → frame lo hi t1 t3.
Proof.
  intros [P1 F1] [P2 F2]. split; [by rewrite P2|].
  intros p Hp Hout. by rewrite F2, F1.
Qed.

Lemma frame_mono (lo hi lo' hi' : Z) (t t' : list nat) :
  lo' ≤ lo → hi ≤ hi' → frame lo hi t t' → frame lo' hi' t t'.
Proof. intros Hlo Hhi [P F]. split; [done|]. intros p Hp Hout. apply F; lia. Qed.

Lemma frame_length (lo hi : Z) (t t' : list nat) : frame lo hi t t' → length t' = length t.
Proof. intros [P _]. by rewrite P. Qed.

Lemma frame_swap (lo hi : Z) (t : list nat) (p q : Z) :
  0 ≤ p < Z.of_nat (length t) → 0 ≤ q < Z.of_nat (length t) →
  lo ≤ p ≤ hi → lo ≤ q ≤ hi → frame lo hi t (INTP_SWAP t p q).
Proof.
  intros Hp Hq Hpl Hql. split; [by apply swap_Permutation|].
  intros r Hr Hout. apply at_swap_ne; lia.
Qed.

Lemma scan_up_spec (t : list nat) (vp : nat) (s : Z) (fuel : nat) (pi : Z) :
  pi < s → less v (at_ t s) vp = false → (Z.to_nat (s - pi) ≤ fuel)%nat →
  ∃ p, scan_up v fuel t vp pi = Some p ∧ pi < p ≤ s
       ∧ less v (at_ t p) vp = false
       ∧ ∀ k, pi < k < p → less v (at_ t k) vp = true.
Proof.
  revert pi. induction fuel as [|fuel IH]; intros pi Hs Hsent Hfuel; [lia|].
  cbn [scan_up]. destruct (less v (at_ t (pi + 1)) vp) eqn:E.
  - assert (pi + 1 ≠ s) by (intros E'; rewrite E' in E; congruence).
    destruct (IH (pi + 1)) as (p & -> & Hp & Hstop & Hbetween); [lia|done|lia|].
    exists p. split_and!; [done|lia|lia|done|].
    intros k Hk. destruct (decide (k = pi + 1)) as [->|]; [done|]. apply Hbetween. lia.
  - exists (pi + 1). split_and!; [done|lia|lia|done|]. intros k Hk. lia.
Qed.

Lemma scan_down_spec (t : list nat) (vp : nat) (s : Z) (fuel : nat) (pj : Z) :
  s < pj → less v vp (at_ t s) = false → (Z.to_nat (pj - s) ≤ fuel)%nat →
  ∃ p, scan_down v fuel t vp pj = Some p ∧ s ≤ p < pj
       ∧ less v vp (at_ t p) = false
       ∧ ∀ k, p < k < pj → less v vp (at_ t k) = true.
Proof.
  revert pj. induction fuel as [|fuel IH]; intros pj Hs Hsent Hfuel; [lia|].
  cbn [scan_down]. destruct (less v vp (at_ t (pj - 1))) eqn:E.
  - assert (pj - 1 ≠ s) by (intros E'; rewrite E' in E; congruence).
    destruct (IH (pj - 1)) as (p & -> & Hp & Hstop & Hbetween); [lia|done|lia|].
    exists p. split_and!; [done|lia|lia|done|].
    intros k Hk. destruct (decide (k = pj - 1)) as [->|]; [done|]. apply Hbetween. lia.
  - exists (pj - 1). split_and!; [done|lia|lia|done|]. intros k Hk. lia.
Qed.

(** The loop of the partition: the entries up to [pi] are at most the pivot
    and those from [pj] on are at least the pivot. *)
Lemma partition_loop_spec (vp : nat) (pl pr : Z) (fuel : nat) (t : list nat) (pi pj : Z) :
  0 ≤ pl → pr < Z.of_nat (length t) →
  pl ≤ pi → pi < pj → pj ≤ pr →
  (∀ k, pl ≤ k ≤ pi → kle v (at_ t k) vp) →
  (∀ k, pj ≤ k ≤ pr → kle v vp (at_ t k)) →
  (Z.to_nat (pj - pi) ≤ fuel)%nat →
  ∃ t' p, partition_loop v fuel t vp pi pj = Some (t', p)
     ∧ frame (pi + 1) (pj - 1) t t'
     ∧ pi < p ≤ pj
     ∧ (∀ k, pl ≤ k < p → kle v (at_ t' k) vp)
     ∧ (∀ k, p ≤ k ≤ pr → kle v vp (at_ t' k)).
Proof.
  revert t pi pj. induction fuel as [|fuel IH];
    intros t pi pj Hpl Hpr Hpi Hij Hpj Hleft Hright Hfuel; [lia|].
  cbn [partition_loop].
  destruct (scan_up_spec t vp pj (S (length t)) pi) as (pi' & -> & Hpi' & Hstop_i & Hbet_i);
    [done| |lia|].
  { apply less_false. apply Hright. lia. }
  destruct (scan_down_spec t vp pi (S (length t)) pj) as (pj' & -> & Hpj' & Hstop_j & Hbet_j);
    [done| |lia|].
  { apply less_false. apply Hleft. lia. }
  cbn [mbind option_bind]. apply less_false in Hstop_i, Hstop_j.
  destruct (Z.leb_spec pj' pi') as [Hbreak|Hgo].
  - exists t, pi'. split_and!; [done|apply frame_refl|lia|lia| |].
    + intros k Hk. destruct (decide (k ≤ pi)); [apply Hleft; lia|].
      apply less_kle, Hbet_i. lia.
    + intros k Hk. destruct (decide (k = pi')) as [->|]; [done|].
      destruct (decide (pj ≤ k)); [apply Hright; lia|].
      apply less_kle, Hbet_j. lia.
  - assert (Hvi : 0 ≤ pi' < Z.of_nat (length t)) by lia.
    assert (Hvj : 0 ≤ pj' < Z.of_nat (length t)) by lia.
    destruct (IH (INTP_SWAP t pi' pj') pi' pj') as (t' & p & -> & Hframe & Hp & Hl & Hr);
      [done|by rewrite length_swap|lia|lia|lia| | |lia|].
    + intros k Hk. destruct (decide (k = pi')) as [->|].
      * by rewrite at_swap_l.
      * rewrite at_swap_ne by lia.
        destruct (decide (k ≤ pi)); [apply Hleft; lia|]. apply less_kle, Hbet_i. lia.
    + intros k Hk. destruct (decide (k = pj')) as [->|].
      * by rewrite at_swap_r.
      * rewrite at_swap_ne by lia.
        destruct (decide (pj ≤ k)); [apply Hright; lia|]. apply less_kle, Hbet_j. lia.
    + exists t', p. split_and!; [done| |lia|lia|done|done].
      eapply frame_trans.
      * apply (frame_swap (pi + 1) (pj - 1) t pi' pj'); lia.
      * eapply frame_mono; [| |exact Hframe]; lia.
Qed.

End frames.

Section pending.
Import Numpy Npysort.
Variable v : list Q.

Lemma at_lookup (t : list nat) (p : Z) :
  0 ≤ p < Z.of_nat (length t) → t !! Z.to_nat p = Some (at_ t p).
Proof. intros Hp. apply list_lookup_lookup_total_lt. lia. Qed.

(** Entries of the segment stay in the segment. *)
Lemma frame_closed (lo hi : Z) (t t' : list nat) (q : Z) :
  frame lo hi t t' → NoDup t → 0 ≤ lo → hi < Z.of_nat (length t) → lo ≤ q ≤ hi →
  ∃ q', lo ≤ q' ≤ hi ∧ at_ t' q = at_ t q'.
Proof.
  intros [Hperm Hout] Hnd Hlo Hhi Hq.
  assert (Hlen : length t' = length t) by by rewrite Hperm.
  assert (Hin : at_ t' q ∈ t).
  { rewrite <- Hperm. apply (list_elem_of_lookup_2 _ (Z.to_nat q)), at_lookup. lia. }
  apply list_elem_of_lookup_1 in Hin as [k Hk].
  pose proof (lookup_lt_Some _ _ _ Hk) as Hklt.
  exists (Z.of_nat k).
  assert (Hatk : at_ t (Z.of_nat k) = at_ t' q).
  { unfold at_ at 1. rewrite Nat2Z.id. by apply list_lookup_total_correct. }
  split; [|done].
  destruct (decide (lo ≤ Z.of_nat k ≤ hi)) as [|Hno]; [done|]. exfalso.
  assert (Hk' : at_ t' (Z.of_nat k) = at_ t (Z.of_nat k)) by (apply Hout; lia).
  assert (Hnd' : NoDup t') by by rewrite Hperm.
  assert (Z.to_nat (Z.of_nat k) = Z.to_nat q); [|lia].
  apply (NoDup_lookup t' _ _ (at_ t' q) Hnd').
  - rewrite at_lookup by lia. f_equal. congruence.
  - apply at_lookup. lia.
Qed.

Lemma apart_inside (lo hi : Z) (X Y : Z * Z) :
  lo ≤ X.1 → X.2 ≤ hi → apart (lo, hi) Y → apart X Y.
Proof. unfold apart. simpl. lia. Qed.

Lemma disjoint_app (P Q : list (Z * Z)) :
  disjoint P → disjoint Q → Forall (λ X, Forall (apart X) Q) P → disjoint (P ++ Q).
Proof.
  induction P as [|X P IH]; intros HP HQ Hcross; [done|].
  destruct HP as [HI HP]. apply Forall_cons in Hcross as [HIQ Hcross].
  simpl. split; [by apply Forall_app|]. by apply IH.
Qed.

Lemma pending_NoDup (P : list (Z * Z)) (t : list nat) : pending v P t → NoDup t.
Proof. intros (Hperm & _). rewrite Hperm. apply NoDup_seq. Qed.

Lemma pending_length (P : list (Z * Z)) (t : list nat) : pending v P t → length t = length v.
Proof. intros (Hperm & _). by rewrite Hperm, length_seq. Qed.

(** Work on the first segment that leaves the segments [Q] to be sorted
    within it. *)
Lemma pending_refine (P Q : list (Z * Z)) (t t' : list nat) (lo hi : Z) :
  pending v ((lo, hi) :: P) t → frame lo hi t t' →
  Forall (λ X : Z * Z, lo ≤ X.1 ∧ X.1 ≤ X.2 ∧ X.2 ≤ hi) Q → disjoint Q →
  (∀ p q, lo ≤ p → p < q → q ≤ hi →
          ¬ Exists (λ X, within X p ∧ within X q) Q → kle v (at_ t' p) (at_ t' q)) →
  pending v (Q ++ P) t'.
Proof.
  intros Hpend Hframe HQ HdQ Hord.
  pose proof (pending_NoDup _ _ Hpend) as Hnd.
  pose proof (pending_length _ _ Hpend) as Hlen.
  destruct Hpend as (Hperm & Hbounds & [Hapart Hdisj] & Hordered).
  apply Forall_cons in Hbounds as [(Hlo & Hlohi & Hhi) Hbounds]. simpl in *.
  pose proof (frame_length _ _ _ _ Hframe) as Hlen'.
  split_and!.
  - destruct Hframe as [Hp _]. by rewrite Hp.
  - apply Forall_app. split; [|done].
    eapply Forall_impl; [exact HQ|]. intros X (? & ? & ?). lia.
  - apply disjoint_app; [done|done|].
    eapply Forall_impl; [exact HQ|]. intros X (? & ? & ?).
    eapply Forall_impl; [exact Hapart|]. intros Y HJ. by apply (apart_inside lo hi).
  - intros p q Hp Hpq Hq Hnot. rewrite Hlen' in Hq.
    assert (HnotQ : ¬ Exists (λ X, within X p ∧ within X q) Q).
    { intros H. apply Hnot, Exists_app. by left. }
    assert (HnotP : ¬ Exists (λ X, within X p ∧ within X q) P).
    { intros H. apply Hnot, Exists_app. by right. }
    assert (Hcross : ∀ a b, 0 ≤ a → a < b → b < Z.of_nat (length t) →
                            ¬ (lo ≤ a ≤ hi ∧ lo ≤ b ≤ hi) →
                            (lo ≤ a ≤ hi ∨ lo ≤ b ≤ hi) → kle v (at_ t a) (at_ t b)).
    { intros a b Ha Hab Hb Hboth Hone. apply Hordered; [done|done|done|].
      intros HE. apply Exists_cons in HE as [[Hwa Hwb]|HE].
      - unfold within in *. simpl in *. lia.
      - apply Exists_exists in HE as (Y & HJ & Hwa & Hwb).
        pose proof (proj1 (Forall_forall _ _) Hapart Y HJ) as HJa.
        unfold apart, within in *. simpl in *. lia. }
    destruct (decide (lo ≤ p ≤ hi)) as [Hpin|Hpout];
      destruct (decide (lo ≤ q ≤ hi)) as [Hqin|Hqout].
    + apply Hord; [lia|done|lia|done].
    + destruct (frame_closed lo hi t t' p Hframe Hnd) as (p' & Hp' & ->); [lia|lia|done|].
      destruct Hframe as [_ Hout]. rewrite (Hout q) by lia.
      apply Hcross; lia.
    + destruct (frame_closed lo hi t t' q Hframe Hnd) as (q' & Hq' & ->); [lia|lia|done|].
      destruct Hframe as [_ Hout]. rewrite (Hout p) by lia.
      apply Hcross; lia.
    + destruct Hframe as [_ Hout]. rewrite (Hout p), (Hout q) by lia.
      apply Hordered; [done|done|done|].
      intros HE. apply Exists_cons in HE as [[Hwa Hwb]|HE]; [|done].
      unfold within in *. simpl in *. lia.
Qed.

(** When nothing is left to sort the index array is sorted. *)
Lemma Sorted_lookup {A} (R : relation A) (l : list A) :
  (∀ i x y, l !! i = Some x → l !! S i = Some y → R x y) → Sorted R l.
Proof.
  induction l as [|x l IH]; intros H; [constructor|].
  constructor.
  - apply IH. intros i a b Ha Hb. by apply (H (S i)).
  - destruct l as [|y l]; constructor. by apply (H 0%nat).
Qed.

Lemma pending_nil_Sorted (t : list nat) :
  pending v [] t → t ≡ₚ seq 0 (length v) ∧ Sorted (kle v) t.
Proof.
  intros (Hperm & _ & _ & Hord). split; [done|].
  apply Sorted_lookup. intros i x y Hx Hy.
  pose proof (lookup_lt_Some _ _ _ Hy) as Hlt.
  specialize (Hord (Z.of_nat i) (Z.of_nat (S i)) ltac:(lia) ltac:(lia) ltac:(lia)).
  unfold at_ in Hord. rewrite !Nat2Z.id in Hord.
  rewrite (list_lookup_total_correct _ _ _ Hx), (list_lookup_total_correct _ _ _ Hy) in Hord.
  apply Hord. by intros HE%Exists_nil.
Qed.

End pending.

Section partition.
Import Numpy Npysort.
Variable v : list Q.

Lemma weight_cons (X : Z * Z) (P : list (Z * Z)) : weight (X :: P) = X.2 - X.1 + 1 + weight P.
Proof. done. Qed.

(** The median of three entries goes to the middle. *)
Lemma median_of_three (t : list nat) (pl pm pr : Z) :
  0 ≤ pl → pl < pm → pm < pr → pr < Z.of_nat (length t) →
  let t1 := if less v (at_ t pm) (at_ t pl) then INTP_SWAP t pm pl else t in
  let t2 := if less v (at_ t1 pr) (at_ t1 pm) then INTP_SWAP t1 pr pm else t1 in
  let t3 := if less v (at_ t2 pm) (at_ t2 pl) then INTP_SWAP t2 pm pl else t2 in
  frame pl pr t t3 ∧ kle v (at_ t3 pl) (at_ t3 pm) ∧ kle v (at_ t3 pm) (at_ t3 pr).
Proof.
  intros Hpl Hlm Hmr Hpr t1 t2 t3.
  assert (H1 : frame pl pr t t1 ∧ kle v (at_ t1 pl) (at_ t1 pm)).
  { subst t1. destruct (less v (at_ t pm) (at_ t pl)) eqn:E.
    - split; [apply frame_swap; lia|].
      rewrite at_swap_l, at_swap_r by lia. by apply less_kle.
    - split; [apply frame_refl|]. by apply less_false. }
  destruct H1 as [F1 K1]. pose proof (frame_length _ _ _ _ F1) as L1.
  assert (H2 : frame pl pr t1 t2 ∧ kle v (at_ t2 pl) (at_ t2 pr)
               ∧ kle v (at_ t2 pm) (at_ t2 pr)).
  { subst t2. destruct (less v (at_ t1 pr) (at_ t1 pm)) eqn:E.
    - split; [apply frame_swap; lia|].
      rewrite at_swap_l, at_swap_r, at_swap_ne by lia.
      apply less_kle in E. split; [exact K1|exact E].
    - apply less_false in E. split; [apply frame_refl|]. split; [|done].
      exact (kle_trans v _ _ _ K1 E). }
  destruct H2 as (F2 & K2 & K2'). pose proof (frame_length _ _ _ _ F2) as L2.
  assert (H3 : frame pl pr t2 t3 ∧ kle v (at_ t3 pl) (at_ t3 pm)
               ∧ kle v (at_ t3 pm) (at_ t3 pr)).
  { subst t3. destruct (less v (at_ t2 pm) (at_ t2 pl)) eqn:E.
    - split; [apply frame_swap; lia|].
      rewrite at_swap_l, at_swap_r, at_swap_ne by lia.
      apply less_kle in E. done.
    - apply less_false in E. split; [apply frame_refl|]. done. }
  destruct H3 as (F3 & K3 & K3').
  split; [|done]. eapply frame_trans; [exact F1|]. eapply frame_trans; [exact F2|exact F3].
Qed.

(** One partition of the segment [pl..pr]. *)
Lemma partition_step (t : list nat) (pl pr : Z) :
  0 ≤ pl → pl + 2 ≤ pr → pr < Z.of_nat (length t) →
  let pm := pl + Z.shiftr (pr - pl) 1 in
  let t1 := if less v (at_ t pm) (at_ t pl) then INTP_SWAP t pm pl else t in
  let t2 := if less v (at_ t1 pr) (at_ t1 pm) then INTP_SWAP t1 pr pm else t1 in
  let t3 := if less v (at_ t2 pm) (at_ t2 pl) then INTP_SWAP t2 pm pl else t2 in
  let vp := at_ t3 pm in
  let t4 := INTP_SWAP t3 pm (pr - 1) in
  ∃ t5 pi,
    partition_loop v (S (length t4)) t4 vp pl (pr - 1) = Some (t5, pi)
    ∧ frame pl pr t (INTP_SWAP t5 pi (pr - 1))
    ∧ pl < pi < pr
    ∧ (∀ k, pl ≤ k < pi →
            kle v (at_ (INTP_SWAP t5 pi (pr - 1)) k) (at_ (INTP_SWAP t5 pi (pr - 1)) pi))
    ∧ (∀ k, pi < k ≤ pr →
            kle v (at_ (INTP_SWAP t5 pi (pr - 1)) pi) (at_ (INTP_SWAP t5 pi (pr - 1)) k)).
Proof.
  intros Hpl Hlr Hpr pm t1 t2 t3 vp t4.
  assert (Hpm : pl < pm < pr).
  { subst pm. rewrite Z.shiftr_div_pow2 by lia. change (2 ^ 1) with 2.
    pose proof (Z.div_mod (pr - pl) 2 ltac:(lia)).
    pose proof (Z.mod_pos_bound (pr - pl) 2 ltac:(lia)). lia. }
  destruct (median_of_three t pl pm pr) as (F3 & Klm & Kmr); [lia..|].
  fold t1 t2 t3 in F3, Klm, Kmr. fold vp in Klm, Kmr.
  pose proof (frame_length _ _ _ _ F3) as L3.
  assert (F4 : frame pl pr t3 t4) by (apply frame_swap; lia).
  pose proof (frame_length _ _ _ _ F4) as L4.
  assert (Hpivot : at_ t4 (pr - 1) = vp) by (subst t4; by rewrite at_swap_r by lia).
  assert (Hl4 : at_ t4 pl = at_ t3 pl) by (subst t4; apply at_swap_ne; lia).
  assert (Hr4 : at_ t4 pr = at_ t3 pr) by (subst t4; apply at_swap_ne; lia).
  destruct (partition_loop_spec v vp pl pr (S (length t4)) t4 pl (pr - 1))
    as (t5 & pi & Hloop & F5 & Hpi & Hleft & Hright); [lia..| | |lia|].
  { intros k Hk. assert (k = pl) as -> by lia. by rewrite Hl4. }
  { intros k Hk. destruct (decide (k = pr)) as [->|].
    - by rewrite Hr4.
    - assert (k = pr - 1) as -> by lia. rewrite Hpivot. apply kle_refl. }
  pose proof (frame_length _ _ _ _ F5) as L5.
  assert (Hpivot5 : at_ t5 (pr - 1) = vp).
  { destruct F5 as [_ Hout]. rewrite Hout by lia. done. }
  exists t5, pi. split; [done|].
  assert (Hvpi : 0 ≤ pi < Z.of_nat (length t5)) by lia.
  assert (Hvpk : 0 ≤ pr - 1 < Z.of_nat (length t5)) by lia.
  split_and!.
  - eapply frame_trans; [exact F3|]. eapply frame_trans; [exact F4|].
    eapply frame_trans.
    + eapply frame_mono; [| |exact F5]; lia.
    + apply frame_swap; lia.
  - lia.
  - lia.
  - intros k Hk. rewrite at_swap_l, Hpivot5 by lia.
    rewrite at_swap_ne by lia. apply Hleft. lia.
  - intros k Hk. rewrite at_swap_l, Hpivot5 by lia.
    destruct (decide (k = pr - 1)) as [->|].
    + rewrite at_swap_r by lia. apply Hright. lia.
    + rewrite at_swap_ne by lia. apply Hright. lia.
Qed.

End partition.

Section partition_while.
Import Numpy Npysort.
Variable v : list Q.

Lemma pending_partitioned (P : list (Z * Z)) (t t' : list nat) (pl pr pi : Z) :
  pending v ((pl, pr) :: P) t → frame pl pr t t' → pl < pi < pr →
  (∀ k, pl ≤ k < pi → kle v (at_ t' k) (at_ t' pi)) →
  (∀ k, pi < k ≤ pr → kle v (at_ t' pi) (at_ t' k)) →
  pending v ((pl, pi - 1) :: (pi + 1, pr) :: P) t'
  ∧ pending v ((pi + 1, pr) :: (pl, pi - 1) :: P) t'.
Proof.
  intros Hpend Hframe Hpi Hleft Hright.
  assert (Hcross : ∀ p q, pl ≤ p → p < q → q ≤ pr →
            ¬ (pl ≤ p ≤ pi - 1 ∧ pl ≤ q ≤ pi - 1) → ¬ (pi + 1 ≤ p ≤ pr ∧ pi + 1 ≤ q ≤ pr) →
            kle v (at_ t' p) (at_ t' q)).
  { intros p q Hp Hpq Hq Hl Hr.
    destruct (decide (p < pi)).
    - destruct (decide (q = pi)) as [->|]; [apply Hleft; lia|].
      apply (kle_trans v _ (at_ t' pi)); [apply Hleft | apply Hright]; lia.
    - assert (p = pi) as -> by lia. apply Hright. lia. }
  split.
  - apply (pending_refine v P [(pl, pi - 1); (pi + 1, pr)] t t' pl pr); [done|done| | |].
    + repeat constructor; simpl; lia.
    + simpl. split_and!; [|done|done]. apply Forall_cons. split; [|constructor]. unfold apart. cbn [fst snd]. lia.
    + intros p q Hp Hpq Hq Hnot. apply Hcross; [done|done|done| |].
      * intros H. apply Hnot. left. done.
      * intros H. apply Hnot. right. left. done.
  - apply (pending_refine v P [(pi + 1, pr); (pl, pi - 1)] t t' pl pr); [done|done| | |].
    + repeat constructor; simpl; lia.
    + simpl. split_and!; [|done|done]. apply Forall_cons. split; [|constructor]. unfold apart. cbn [fst snd]. lia.
    + intros p q Hp Hpq Hq Hnot. apply Hcross; [done|done|done| |].
      * intros H. apply Hnot. right. left. done.
      * intros H. apply Hnot. left. done.
Qed.

Lemma segments_cons (s : Z * Z * Z) (stack : list (Z * Z * Z)) :
  segments (s :: stack) = (s.1.1, s.1.2) :: segments stack.
Proof. done. Qed.

Lemma pending_bounds (P : list (Z * Z)) (t : list nat) (pl pr : Z) :
  pending v ((pl, pr) :: P) t → 0 ≤ pl ∧ pl ≤ pr ∧ pr < Z.of_nat (length t).
Proof.
  intros Hpend. pose proof (pending_length v _ _ Hpend) as Hlen.
  destruct Hpend as (_ & Hb & _). apply Forall_cons in Hb as [Hb _]. simpl in Hb. lia.
Qed.

Lemma partition_while_spec (fuel : nat) (t : list nat) (pl pr : Z)
    (stack : list (Z * Z * Z)) (cdepth : Z) :
  pending v ((pl, pr) :: segments stack) t →
  (Z.to_nat (pr - pl + 1) < fuel)%nat →
  ∃ t' pl' pr' stack' cdepth',
    partition_while v fuel t pl pr stack cdepth = Some (t', pl', pr', stack', cdepth')
    ∧ pending v ((pl', pr') :: segments stack') t'
    ∧ weight ((pl', pr') :: segments stack') ≤ weight ((pl, pr) :: segments stack).
Proof.
  revert t pl pr stack cdepth. induction fuel as [|fuel IH];
    intros t pl pr stack cdepth Hpend Hfuel; [lia|].
  destruct (pending_bounds _ _ _ _ Hpend) as (Hpl & Hlr & Hpr).
  cbn [partition_while].
  destruct (Z.ltb_spec SMALL_QUICKSORT (pr - pl)) as [Hbig|Hsmall].
  2: { eexists _, _, _, _, _. split; [done|]. split; [done|lia]. }
  unfold SMALL_QUICKSORT in Hbig.
  pose proof (partition_step v t pl pr Hpl ltac:(lia) Hpr) as Hstep.
  cbv zeta in Hstep. destruct Hstep as (t5 & pi & Hloop & Hframe & Hpi & Hleft & Hright).
  rewrite Hloop. cbn [mbind option_bind].
  destruct (pending_partitioned _ _ _ _ _ _ Hpend Hframe Hpi Hleft Hright) as [Hp1 Hp2].
  destruct (Z.ltb_spec (pi - pl) (pr - pi)).
  - destruct (IH (INTP_SWAP t5 pi (pr - 1)) pl (pi - 1)
                ((pi + 1, pr, cdepth - 1) :: stack) (cdepth - 1))
      as (t' & pl' & pr' & stack' & cdepth' & -> & Hpend' & Hw); [done|lia|].
    eexists _, _, _, _, _. split; [done|]. split; [done|].
    clear -Hw. rewrite segments_cons, !weight_cons in *.
    cbn [fst snd] in *. lia.
  - destruct (IH (INTP_SWAP t5 pi (pr - 1)) (pi + 1) pr
                ((pl, pi - 1, cdepth - 1) :: stack) (cdepth - 1))
      as (t' & pl' & pr' & stack' & cdepth' & -> & Hpend' & Hw); [done|lia|].
    eexists _, _, _, _, _. split; [done|]. split; [done|].
    clear -Hw. rewrite segments_cons, !weight_cons in *.
    cbn [fst snd] in *. lia.
Qed.

End partition_while.

Section insertion.
Import Numpy Npysort.
Variable v : list Q.

(** Moving the hole one position down is a swap of the array with the hole
    filled. *)
Lemma put_shift_swap (t : list nat) (vi : nat) (pj : Z) :
  1 ≤ pj < Z.of_nat (length t) →
  put (put t pj (at_ t (pj - 1))) (pj - 1) vi = INTP_SWAP (put t pj vi) (pj - 1) pj.
Proof.
  intros Hpj. unfold INTP_SWAP.
  rewrite (at_put_eq t pj vi) by lia.
  rewrite (at_put_ne t pj (pj - 1) vi) by lia.
  unfold put.
  rewrite (list_insert_insert_ne _ (Z.to_nat pj) (Z.to_nat (pj - 1))) by lia.
  by rewrite list_insert_insert_eq.
Qed.

Lemma insert_shift_spec (vi : nat) (pl pi : Z) (fuel : nat) (t : list nat) (pj : Z) :
  0 ≤ pl → pl ≤ pj → pj ≤ pi → pi < Z.of_nat (length t) →
  sorted_on v (put t pj vi) pl (pj - 1) →
  sorted_on v (put t pj vi) (pj + 1) pi →
  (∀ k, pj < k ≤ pi → less v vi (at_ (put t pj vi) k) = true) →
  (∀ a b, pl ≤ a < pj → pj < b ≤ pi → kle v (at_ (put t pj vi) a) (at_ (put t pj vi) b)) →
  (Z.to_nat (pj - pl) < fuel)%nat →
  ∃ t' pj', insert_shift v fuel t vi pj (pj - 1) pl = Some (t', pj')
     ∧ frame pl pi (put t pj vi) (put t' pj' vi)
     ∧ sorted_on v (put t' pj' vi) pl pi.
Proof.
  revert t pj. induction fuel as [|fuel IH];
    intros t pj Hpl Hlj Hji Hpi Hlow Hhigh Hgt Hcross Hfuel; [lia|].
  cbn [insert_shift].
  assert (Hhole : at_ (put t pj vi) pj = vi) by (apply at_put_eq; lia).
  destruct (Z.ltb_spec pl pj) as [Hmore|Hdone]; cbn [andb].
  - assert (Hprev : at_ (put t pj vi) (pj - 1) = at_ t (pj - 1)) by (apply at_put_ne; lia).
    destruct (less v vi (at_ t (pj - 1))) eqn:E.
    + pose proof (put_shift_swap t vi pj ltac:(lia)) as Hswap.
      assert (Hv1 : 0 ≤ pj - 1 < Z.of_nat (length (put t pj vi))) by (rewrite length_put; lia).
      assert (Hv2 : 0 ≤ pj < Z.of_nat (length (put t pj vi))) by (rewrite length_put; lia).
      destruct (IH (put t pj (at_ t (pj - 1))) (pj - 1)) as (t' & pj' & Hrun & Hframe & Hsorted);
        [done|lia|lia|by rewrite length_put| | | | |lia|]; rewrite ?Hswap.
      * intros p q Hp Hpq Hq. rewrite !at_swap_ne by lia. apply Hlow; lia.
      * replace (pj - 1 + 1) with pj by lia. intros p q Hp Hpq Hq.
        destruct (decide (p = pj)) as [->|].
        -- rewrite at_swap_r by lia. destruct (decide (q = pj)) as [->|].
           ++ rewrite at_swap_r by lia. apply kle_refl.
           ++ rewrite at_swap_ne by lia. apply Hcross; lia.
        -- rewrite !at_swap_ne by lia. apply Hhigh; lia.
      * intros k Hk. destruct (decide (k = pj)) as [->|].
        -- rewrite at_swap_r by lia. by rewrite Hprev.
        -- rewrite at_swap_ne by lia. apply Hgt. lia.
      * intros a b Ha Hb. rewrite (at_swap_ne _ _ _ a) by lia.
        destruct (decide (b = pj)) as [->|].
        -- rewrite at_swap_r by lia. apply Hlow; lia.
        -- rewrite at_swap_ne by lia. apply Hcross; lia.
      * replace (pj - 1 - 1) with (pj - 1 - 1) in Hrun by lia. rewrite Hrun.
        exists t', pj'. split; [done|]. split; [|done].
        eapply frame_trans; [|exact Hframe].
        rewrite Hswap. apply frame_swap; lia.
    + apply less_false in E. rewrite <- Hprev in E.
      exists t, pj. split; [done|]. split; [apply frame_refl|].
      intros p q Hp Hpq Hq.
      destruct (decide (q < pj)); [apply Hlow; lia|].
      destruct (decide (pj < p)); [apply Hhigh; lia|].
      destruct (decide (p = pj)) as [->|].
      * destruct (decide (q = pj)) as [->|]; [apply kle_refl|].
        rewrite Hhole. apply less_kle, Hgt. lia.
      * destruct (decide (q = pj)) as [->|]; [|apply Hcross; lia].
        rewrite Hhole. eapply kle_trans; [|exact E]. apply Hlow; lia.
  - exists t, pj. split; [done|]. split; [apply frame_refl|].
    assert (pj = pl) as -> by lia.
    intros p q Hp Hpq Hq.
    destruct (decide (p = pl)) as [->|]; [|apply Hhigh; lia].
    destruct (decide (q = pl)) as [->|]; [apply kle_refl|].
    rewrite Hhole. apply less_kle, Hgt. lia.
Qed.

Lemma insertion_sort_spec (pl pr : Z) (fuel : nat) (t : list nat) (pi : Z) :
  0 ≤ pl → pl < pi → pi ≤ pr + 1 → pr < Z.of_nat (length t) →
  sorted_on v t pl (pi - 1) →
  (Z.to_nat (pr + 1 - pi) < fuel)%nat →
  ∃ t', insertion_sort v fuel t pi pl pr = Some t'
        ∧ frame pl pr t t' ∧ sorted_on v t' pl pr.
Proof.
  revert t pi. induction fuel as [|fuel IH];
    intros t pi Hpl Hli Hir Hpr Hsorted Hfuel; [lia|].
  cbn [insertion_sort].
  destruct (Z.leb_spec pi pr) as [Hgo|Hstop].
  2: { exists t. split; [done|]. split; [apply frame_refl|].
       assert (pi - 1 = pr) as <- by lia. done. }
  assert (Hid : put t pi (at_ t pi) = t).
  { unfold put. apply list_insert_id, at_lookup. lia. }
  destruct (insert_shift_spec (at_ t pi) pl pi (S (length t)) t pi)
    as (t1 & pj & Hrun & Hframe & Hsorted1); [done|lia|lia|lia| | | | |lia|].
  - by rewrite Hid.
  - intros p q Hp Hpq Hq. assert (p = q) as -> by lia. apply kle_refl.
  - intros k Hk. lia.
  - intros a b Ha Hb. lia.
  - rewrite Hrun. cbn [mbind option_bind]. rewrite Hid in Hframe.
    pose proof (frame_length _ _ _ _ Hframe) as Hlen.
    destruct (IH (put t1 pj (at_ t pi)) (pi + 1)) as (t' & -> & Hframe' & Hsorted');
      [done|lia|lia|lia| |lia|].
    { by replace (pi + 1 - 1) with pi by lia. }
    exists t'. split; [done|]. split; [|done].
    eapply frame_trans; [|exact Hframe']. eapply frame_mono; [| |exact Hframe]; lia.
Qed.

End insertion.

Section heapsort.
Import Numpy Npysort.
Variable v : list Q.

(** Moving the hole from [i] to [j] is a swap of the array with the hole
    filled. *)
Lemma put_move_swap (t : list nat) (x : nat) (i j : Z) :
  0 ≤ i < Z.of_nat (length t) → 0 ≤ j < Z.of_nat (length t) → i ≠ j →
  put (put t i (at_ t j)) j x = INTP_SWAP (put t i x) i j.
Proof.
  intros Hi Hj Hne. unfold INTP_SWAP.
  rewrite (at_put_eq t i x) by lia. rewrite (at_put_ne t i j x) by lia.
  unfold put. by rewrite list_insert_insert_eq.
Qed.

Lemma half_children (c i : Z) : c / 2 = i → c = i + i ∨ c = i + i + 1.
Proof. intros <-. pose proof (Z.div_mod c 2). pose proof (Z.mod_pos_bound c 2). lia. Qed.

Lemma half_of_child (c i : Z) : c = i + i ∨ c = i + i + 1 → c / 2 = i.
Proof.
  intros [-> | ->]; symmetry;
    [apply (Z.div_unique _ 2 _ 0)|apply (Z.div_unique _ 2 _ 1)]; lia.
Qed.

Lemma sift_spec (a lo n : Z) (tmp : nat) (fuel : nat) (t : list nat) (i : Z) :
  0 ≤ a + 1 → a + n < Z.of_nat (length t) → 1 ≤ lo → lo ≤ i → i ≤ n →
  heap_edges v (put t (a + i) tmp) a lo n i →
  (lo ≤ i / 2 → ∀ c, c / 2 = i → c ≤ n →
     kle v (at_ (put t (a + i) tmp) (a + c)) (at_ (put t (a + i) tmp) (a + i / 2))) →
  (Z.to_nat (n - i) < fuel)%nat →
  ∃ t' i', sift v fuel t a tmp i (i + i) n = Some (t', i')
     ∧ frame (a + i) (a + n) (put t (a + i) tmp) (put t' (a + i') tmp)
     ∧ heap_edges v (put t' (a + i') tmp) a lo n 0.
Proof.
  revert t i. induction fuel as [|fuel IH];
    intros t i Ha Hn Hlo Hi Hin Hedges Hup Hfuel; [lia|].
  cbn [sift]. remember (put t (a + i) tmp) as F eqn:HFdef.
  assert (HF : length F = length t) by (subst F; apply length_put).
  assert (Hhole : at_ F (a + i) = tmp) by (subst F; apply at_put_eq; lia).
  assert (Hother : ∀ k, 1 ≤ k → k ≠ i → at_ F (a + k) = at_ t (a + k)).
  { intros k Hk Hki. subst F. apply at_put_ne; lia. }
  destruct (Z.leb_spec (i + i) n) as [Hchild|Hleaf].
  2: { exists t, i. rewrite <- HFdef. split; [done|]. split; [apply frame_refl|].
       intros c Hc Hcn Hp _. destruct (decide (c / 2 = i)) as [E|E].
       { apply half_children in E. lia. }
       by apply Hedges. }
  remember (if (i + i <? n) && less v (at_ t (a + (i + i))) (at_ t (a + (i + i) + 1))
            then i + i + 1 else i + i) as jm eqn:Hjmdef.
  assert (Hjm : (jm = i + i ∨ jm = i + i + 1) ∧ jm ≤ n
                ∧ ∀ c, c / 2 = i → c ≤ n → kle v (at_ F (a + c)) (at_ F (a + jm))).
  { subst jm. destruct (Z.ltb_spec (i + i) n) as [Hboth|Hone]; cbn [andb].
    - destruct (less v (at_ t (a + (i + i))) (at_ t (a + (i + i) + 1))) eqn:E.
      + split; [by right|]. split; [lia|]. intros c Hc Hcn.
        destruct (half_children c i Hc) as [-> | ->].
        * rewrite !Hother by lia. apply less_kle.
          by replace (a + (i + i + 1)) with (a + (i + i) + 1) by lia.
        * apply kle_refl.
      + apply less_false in E. split; [by left|]. split; [lia|]. intros c Hc Hcn.
        destruct (half_children c i Hc) as [-> | ->].
        * apply kle_refl.
        * rewrite !Hother by lia.
          by replace (a + (i + i + 1)) with (a + (i + i) + 1) by lia.
    - split; [by left|]. split; [lia|]. intros c Hc Hcn.
      destruct (half_children c i Hc) as [-> | ->]; [|lia]. apply kle_refl. }
  clear Hjmdef. destruct Hjm as (Hjm & Hjmn & Hlarger).
  assert (Hjmi : jm / 2 = i) by by apply half_of_child.
  assert (Hjm_t : at_ t (a + jm) = at_ F (a + jm)) by (symmetry; apply Hother; lia).
  destruct (less v tmp (at_ t (a + jm))) eqn:E.
  - assert (Hswap : put (put t (a + i) (at_ t (a + jm))) (a + jm) tmp
                    = INTP_SWAP F (a + i) (a + jm)).
    { subst F. apply put_move_swap; lia. }
    assert (Hvi : 0 ≤ a + i < Z.of_nat (length F)) by lia.
    assert (Hvj : 0 ≤ a + jm < Z.of_nat (length F)) by lia.
    assert (HatF : ∀ k, 1 ≤ k → k ≠ i → k ≠ jm →
                        at_ (INTP_SWAP F (a + i) (a + jm)) (a + k) = at_ F (a + k)).
    { intros k Hk Hki Hkj. apply at_swap_ne; lia. }
    destruct (IH (put t (a + i) (at_ t (a + jm))) jm) as (t' & i' & Hrun & Hframe & Hheap);
      [done|by rewrite length_put|done|lia|done| | |lia|]; rewrite ?Hswap.
    + intros c Hc Hcn Hp Hpj.
      destruct (decide (c / 2 = i)) as [Eci|Eci].
      * rewrite Eci, at_swap_l by lia.
        destruct (decide (c = jm)) as [->|Hcj].
        -- rewrite at_swap_r, Hhole by lia. apply less_kle. by rewrite <- Hjm_t.
        -- pose proof (half_children c i Eci) as Hcc.
           rewrite HatF by lia. by apply Hlarger.
      * destruct (decide (c = i)) as [->|Hci].
        -- rewrite at_swap_l by lia.
           assert (i / 2 ≠ i ∧ i / 2 ≠ jm ∧ 1 ≤ i / 2) as (? & ? & ?).
           { clear -Hp Hlo Hi Hjm. pose proof (Z.div_mod i 2). pose proof (Z.mod_pos_bound i 2). lia. }
           rewrite HatF by done. apply Hup; [done|done|done].
        -- assert (c ≠ jm) by (intros ->; congruence).
           assert (c / 2 ≠ i ∧ c / 2 ≠ jm ∧ 1 ≤ c / 2) as (? & ? & ?) by (split_and!; [done|done|lia]).
           rewrite !HatF by (done || lia). by apply Hedges.
    + intros _ c Hc Hcn. rewrite Hjmi, at_swap_l by lia.
      pose proof (half_children c jm Hc) as Hcc.
      rewrite HatF by lia. rewrite <- Hc.
      apply Hedges; [lia|done|rewrite Hc; lia|rewrite Hc; lia].
    + exists t', i'. split; [done|]. split; [|done].
      eapply frame_trans.
      * apply (frame_swap (a + i) (a + n) F (a + i) (a + jm)); lia.
      * rewrite <- Hswap. eapply frame_mono; [| |exact Hframe]; lia.
  - apply less_false in E. rewrite Hjm_t in E.
    exists t, i. rewrite <- HFdef. split; [done|]. split; [apply frame_refl|].
    intros c Hc Hcn Hp _. destruct (decide (c / 2 = i)) as [Eci|Eci].
    + rewrite Eci, Hhole. eapply kle_trans; [|exact E]. by apply Hlarger.
    + by apply Hedges.
Qed.

Lemma put_at_id (t : list nat) (p : Z) : put t p (at_ t p) = t.
Proof. unfold put, at_. apply list_insert_id'. intros Hp. by apply list_lookup_lookup_total_lt. Qed.

Lemma heap_build_spec (a n : Z) (fuel : nat) (t : list nat) (l : Z) :
  0 ≤ a + 1 → a + n < Z.of_nat (length t) → 0 ≤ l → l ≤ n →
  heap_edges v t a (l + 1) n 0 → (Z.to_nat l < fuel)%nat →
  ∃ t', heap_build v fuel t a l n = Some t'
        ∧ frame (a + 1) (a + n) t t' ∧ heap_edges v t' a 1 n 0.
Proof.
  revert t l. induction fuel as [|fuel IH]; intros t l Ha Hn Hl Hln Hheap Hfuel; [lia|].
  cbn [heap_build]. destruct (Z.ltb_spec 0 l) as [Hpos|Hzero].
  2: { exists t. split; [done|]. split; [apply frame_refl|].
       by replace l with 0 in Hheap by lia. }
  rewrite Z.shiftl_mul_pow2 by lia. replace (l * 2 ^ 1) with (l + l) by lia.
  destruct (sift_spec a l n (at_ t (a + l)) (S (length t)) t l)
    as (t1 & i1 & Hrun & Hframe & Hheap1); [done|done|lia|lia|done| | |lia|].
  - rewrite put_at_id. intros c Hc Hcn Hp Hne. apply Hheap; lia.
  - intros Hhalf. pose proof (Z.div_mod l 2). pose proof (Z.mod_pos_bound l 2). lia.
  - rewrite Hrun. cbn [mbind option_bind]. rewrite put_at_id in Hframe.
    pose proof (frame_length _ _ _ _ Hframe) as Hlen.
    destruct (IH (put t1 (a + i1) (at_ t (a + l))) (l - 1)) as (t' & Hrun' & Hframe' & Hheap');
      [done|lia|lia|lia| |lia|].
    + by replace (l - 1 + 1) with l by lia.
    + exists t'. split; [done|]. split; [|done].
      eapply frame_trans; [|exact Hframe']. eapply frame_mono; [| |exact Hframe]; lia.
Qed.

(** The first entry of a heap is the largest. *)
Lemma heap_root_max (t : list nat) (a m : Z) :
  heap_edges v t a 1 m 0 → ∀ k, 1 ≤ k ≤ m → kle v (at_ t (a + k)) (at_ t (a + 1)).
Proof.
  intros Hheap k. remember (Z.to_nat k) as f eqn:Hf.
  assert (Hle : (Z.to_nat k ≤ f)%nat) by lia. clear Hf. revert k Hle.
  induction f as [|f IH]; intros k Hle Hk; [lia|].
  destruct (decide (k = 1)) as [->|Hne]; [apply kle_refl|].
  assert (1 ≤ k / 2 ∧ k / 2 < k) as [Hh1 Hh2].
  { pose proof (Z.div_mod k 2). pose proof (Z.mod_pos_bound k 2). lia. }
  eapply kle_trans; [apply Hheap; lia|]. apply IH; lia.
Qed.

Lemma heap_drain_spec (a N : Z) (fuel : nat) (t : list nat) (m : Z) :
  NoDup t → 0 ≤ a + 1 → a + N < Z.of_nat (length t) → 1 ≤ m → m ≤ N →
  heap_edges v t a 1 m 0 →
  sorted_on v t (a + m + 1) (a + N) →
  (∀ k k', 1 ≤ k ≤ m → m < k' ≤ N → kle v (at_ t (a + k)) (at_ t (a + k'))) →
  (Z.to_nat m < fuel)%nat →
  ∃ t', heap_drain v fuel t a m = Some t'
        ∧ frame (a + 1) (a + m) t t' ∧ sorted_on v t' (a + 1) (a + N).
Proof.
  revert t m. induction fuel as [|fuel IH];
    intros t m Hnd Ha HN Hm HmN Hheap Htail Hcross Hfuel; [lia|].
  cbn [heap_drain]. destruct (Z.ltb_spec 1 m) as [Hmore|Hone].
  2: { exists t. split; [done|]. split; [apply frame_refl|].
       assert (m = 1) as -> by lia.
       intros p q Hp Hpq Hq. destruct (decide (p = a + 1)) as [->|Hp1].
       - destruct (decide (q = a + 1)) as [->|Hq1]; [apply kle_refl|].
         replace q with (a + (q - a)) by lia. apply Hcross; lia.
       - apply Htail; lia. }
  set (F := INTP_SWAP t (a + m) (a + 1)).
  assert (Hswap : put (put t (a + m) (at_ t (a + 1))) (a + 1) (at_ t (a + m)) = F).
  { rewrite put_move_swap by lia. by rewrite put_at_id. }
  assert (HFm : at_ F (a + m) = at_ t (a + 1)) by (apply at_swap_l; lia).
  assert (HF1 : at_ F (a + 1) = at_ t (a + m)) by (apply at_swap_r; lia).
  assert (HFo : ∀ k, 1 ≤ k → k ≠ 1 → k ≠ m → at_ F (a + k) = at_ t (a + k)).
  { intros k Hk Hk1 Hkm. apply at_swap_ne; lia. }
  assert (HFframe : frame (a + 1) (a + m) t F) by (apply frame_swap; lia).
  pose proof (frame_length _ _ _ _ HFframe) as HFlen.
  assert (HFnd : NoDup F) by by rewrite (proj1 HFframe).
  clearbody F.
  destruct (sift_spec a 1 (m - 1) (at_ t (a + m)) (S (length (put t (a + m) (at_ t (a + 1)))))
              (put t (a + m) (at_ t (a + 1))) 1)
    as (t1 & i1 & Hrun & Hframe & Hheap1);
    [done|rewrite length_put; lia|lia|lia|lia| | |rewrite length_put; lia|].
  - rewrite Hswap. intros c Hc Hcn Hp Hne.
    assert (2 ≤ c / 2 ∧ c / 2 < c) as [Hh1 Hh2].
    { pose proof (Z.div_mod c 2). pose proof (Z.mod_pos_bound c 2). lia. }
    rewrite !HFo by lia. apply Hheap; lia.
  - intros Hhalf. exfalso. revert Hhalf. by compute.
  - change (1 + 1) with 2 in Hrun. rewrite Hrun. cbn [mbind option_bind].
    rewrite Hswap in Hframe.
    set (F2 := put t1 (a + i1) (at_ t (a + m))) in *.
    pose proof (frame_length _ _ _ _ Hframe) as HF2len.
    destruct Hframe as [Hperm Hout].
    assert (Hframe : frame (a + 1) (a + (m - 1)) F F2) by by split.
    clearbody F2.
    destruct (IH F2 (m - 1)) as (t' & Hrun' & Hframe' & Hsorted');
      [by rewrite Hperm|done|lia|lia|lia|done| | |lia|].
    + intros p q Hp Hpq Hq. rewrite !Hout by lia.
      destruct (decide (p = a + m)) as [->|Hpm].
      * destruct (decide (q = a + m)) as [->|Hqm]; [apply kle_refl|].
        rewrite HFm. replace q with (a + (q - a)) by lia.
        rewrite HFo by lia. apply Hcross; lia.
      * replace p with (a + (p - a)) by lia. replace q with (a + (q - a)) by lia.
        rewrite !HFo by lia. apply Htail; lia.
    + intros k k' Hk Hk'. rewrite (Hout (a + k')) by lia.
      destruct (frame_closed (a + 1) (a + (m - 1)) F F2 (a + k)) as (q' & Hq' & ->);
        [done|done|lia|lia|lia|].
      assert (∃ k3, 1 ≤ k3 ≤ m ∧ at_ F q' = at_ t (a + k3)) as (k3 & Hk3 & ->).
      { destruct (decide (q' = a + 1)) as [->|Hq1].
        - exists m. split; [lia|done].
        - exists (q' - a). split; [lia|]. replace q' with (a + (q' - a)) at 1 by lia.
          apply HFo; lia. }
      destruct (decide (k' = m)) as [->|Hkm].
      * rewrite HFm. by apply (heap_root_max t a m).
      * rewrite HFo by lia. apply Hcross; lia.
    + exists t'. split; [done|]. split; [|done].
      eapply frame_trans; [exact HFframe|]. eapply frame_trans.
      * eapply frame_mono; [| |exact Hframe]; lia.
      * eapply frame_mono; [| |exact Hframe']; lia.
Qed.

Lemma npy_aheapsort_spec (t : list nat) (pl n : Z) :
  NoDup t → 0 ≤ pl → 1 ≤ n → pl + n - 1 < Z.of_nat (length t) →
  ∃ t', npy_aheapsort v t pl n = Some t'
        ∧ frame pl (pl + n - 1) t t' ∧ sorted_on v t' pl (pl + n - 1).
Proof.
  intros Hnd Hpl Hn Hlen. unfold npy_aheapsort. cbv zeta.
  rewrite Z.shiftr_div_pow2 by lia. change (2 ^ 1) with 2.
  assert (0 ≤ n / 2 ∧ n / 2 ≤ n ∧ n < 2 * (n / 2 + 1)) as (Hh0 & Hh1 & Hh2).
  { pose proof (Z.div_mod n 2). pose proof (Z.mod_pos_bound n 2). lia. }
  destruct (heap_build_spec (pl - 1) n (S (length t)) t (n / 2))
    as (t1 & Hrun & Hframe & Hheap); [lia|lia|done|done| |lia|].
  { intros c Hc Hcn Hp _.
    pose proof (Z.div_mod c 2). pose proof (Z.mod_pos_bound c 2). lia. }
  rewrite Hrun. cbn [mbind option_bind].
  pose proof (frame_length _ _ _ _ Hframe) as Hlen1.
  destruct (heap_drain_spec (pl - 1) n (S (length t1)) t1 n)
    as (t' & Hrun' & Hframe' & Hsorted); [by rewrite (proj1 Hframe)|lia|lia|lia|lia|done| | |lia|].
  { intros p q Hp Hpq Hq. lia. }
  { intros k k' Hk Hk'. lia. }
  exists t'. split; [done|]. split.
  - replace pl with (pl - 1 + 1) at 1 by lia. replace (pl + n - 1) with (pl - 1 + n) by lia.
    by eapply frame_trans.
  - replace pl with (pl - 1 + 1) at 1 by lia. by replace (pl + n - 1) with (pl - 1 + n) by lia.
Qed.

End heapsort.

Section quicksort.
Import Numpy Npysort.
Variable v : list Q.

Lemma pending_sorted_segment (P : list (Z * Z)) (t t' : list nat) (pl pr : Z) :
  pending v ((pl, pr) :: P) t → frame pl pr t t' → sorted_on v t' pl pr →
  pending v P t'.
Proof.
  intros Hpend Hframe Hsorted.
  apply (pending_refine v P [] t t' pl pr Hpend Hframe); [constructor|done|].
  intros p q Hp Hpq Hq _. apply Hsorted; lia.
Qed.

Lemma quicksort_loop_spec (fuel : nat) (t : list nat) (pl pr : Z)
    (stack : list (Z * Z * Z)) (cdepth : Z) :
  pending v ((pl, pr) :: segments stack) t →
  weight ((pl, pr) :: segments stack) ≤ Z.of_nat fuel →
  ∃ t', quicksort_loop v fuel t pl pr stack cdepth = Some t' ∧ pending v [] t'.
Proof.
  revert t pl pr stack cdepth.
  induction fuel as [|fuel IH]; intros t pl pr stack cdepth Hpend Hw.
  { pose proof (pending_bounds v _ _ _ _ Hpend) as (Hpl & Hplr & Hpr).
    rewrite weight_cons in Hw. cbn [fst snd] in Hw.
    assert (0 ≤ weight (segments stack)).
    { destruct Hpend as (_ & Hb & _). apply Forall_cons in Hb as [_ Hb].
      clear -Hb. induction Hb as [|X P HX _ IHb]; [done|].
      rewrite weight_cons. lia. }
    lia. }
  assert (Hstep : ∃ t1 stack1,
    (if cdepth <? 0 then
       t ← npy_aheapsort v t pl (pr - pl + 1); Some (t, stack)
     else
       '(t, pl, pr, stack, _) ← partition_while v (S (length t)) t pl pr stack cdepth;
       t ← insertion_sort v (S (S (length t))) t (pl + 1) pl pr;
       Some (t, stack)) = Some (t1, stack1)
    ∧ pending v (segments stack1) t1
    ∧ weight (segments stack1) < weight ((pl, pr) :: segments stack)).
  { pose proof (pending_bounds v _ _ _ _ Hpend) as (Hpl & Hplr & Hpr).
    destruct (cdepth <? 0).
    - destruct (npy_aheapsort_spec v t pl (pr - pl + 1)) as (t1 & Hrun & Hframe & Hsorted);
        [by eapply pending_NoDup|done|lia|lia|].
      replace (pl + (pr - pl + 1) - 1) with pr in * by lia.
      exists t1, stack. rewrite Hrun. cbn [mbind option_bind]. split; [done|].
      split; [by eapply pending_sorted_segment|].
      rewrite weight_cons. cbn [fst snd]. lia.
    - destruct (partition_while_spec v (S (length t)) t pl pr stack cdepth Hpend)
        as (t1 & pl1 & pr1 & stack1 & cdepth1 & Hrun & Hpend1 & Hw1); [lia|].
      rewrite Hrun. cbn [mbind option_bind].
      pose proof (pending_bounds v _ _ _ _ Hpend1) as (Hpl1 & Hplr1 & Hpr1).
      destruct (insertion_sort_spec v pl1 pr1 (S (S (length t1))) t1 (pl1 + 1))
        as (t2 & Hrun2 & Hframe & Hsorted); [lia|lia|lia|lia| |lia|].
      { intros p q Hp Hpq Hq. assert (p = q) as -> by lia. apply kle_refl. }
      rewrite Hrun2. cbn [mbind option_bind].
      exists t2, stack1. split; [done|].
      split; [by eapply pending_sorted_segment|].
      rewrite weight_cons in Hw1. cbn [fst snd] in Hw1. lia. }
  destruct Hstep as (t1 & stack1 & Hrun & Hpend1 & Hw1).
  cbn [quicksort_loop]. rewrite Hrun. cbn [mbind option_bind].
  destruct stack1 as [|[[pl1 pr1] cdepth1] stack1].
  - by exists t1.
  - rewrite segments_cons in Hpend1, Hw1. cbn [fst snd] in *.
    apply IH; [done|lia].
Qed.

End quicksort.

Section argsort.
Import Numpy Npysort.

(** The index array that [argsort] returns rearranges the positions of [a],
    and the values of [a] do not decrease along it. *)
Lemma argsort_quicksort_argsorts (a : list Q) : Pandas.argsorts Pandas.quicksort a.
Proof.
  unfold Pandas.argsorts, Pandas.quicksort, argsort_quicksort.
  destruct a as [|x a]; [split; [done|constructor]|].
  set (v := x :: a).
  destruct (quicksort_loop_spec v (S (S (length v))) (seq 0 (length v)) 0
              (Z.of_nat (length v) - 1) [] (npy_get_msb (Z.of_nat (length v)) * 2))
    as (t' & Hrun & Hpend).
  - split; [done|]. split; [|split; [by split|]].
    + constructor; [|constructor]. cbn [fst snd length v]. lia.
    + intros p q Hp Hpq Hq Hnot. exfalso. apply Hnot. constructor.
      rewrite length_seq in Hq. unfold within. cbn [fst snd]. lia.
  - rewrite weight_cons. cbn [fst snd segments fmap list_fmap weight foldr]. lia.
  - unfold npy_aquicksort. cbv zeta. rewrite Hrun. cbn [default].
    by apply pending_nil_Sorted.
Qed.

End argsort.

(** ** Sorting a table *)
Section sort_values.
Context {row : Type} (kind : list Q → list nat) (col : row → option Q).

Lemma omap_reverse {A B} (f : A → option B) (l : list A) :
  omap f (reverse l) = reverse (omap f l).
Proof.
  induction l as [|x l IH]; [done|].
  rewrite reverse_cons, omap_app, IH. simpl.
  destruct (f x); [by rewrite reverse_cons | by rewrite app_nil_r].
Qed.

Lemma omap_lookup_seq_app {A} (l pre : list A) :
  omap ((pre ++ l) !!.) (seq (length pre) (length l)) = l.
Proof.
  revert pre. induction l as [|x l IH]; intros pre; [done|]. simpl.
  rewrite list_lookup_middle by done. f_equal.
  specialize (IH (pre ++ [x])).
  by rewrite length_app, Nat.add_1_r, <- (assoc_L (++)) in IH.
Qed.

Lemma omap_lookup_seq {A} (l : list A) : omap (l !!.) (seq 0 (length l)) = l.
Proof. apply (omap_lookup_seq_app l []). Qed.

(** Taking the rows at positions counted from the end is taking the rows of
    the reversed table. *)
Lemma omap_lookup_reverse_seq {A} (df : list A) (π : list nat) :
  omap (df !!.) (omap (reverse (seq 0 (length df)) !!.) π) = omap (reverse df !!.) π.
Proof.
  induction π as [|k π IH]; [done|]. simpl.
  destruct (decide (k < length df)%nat) as [Hk|Hk].
  - rewrite !reverse_lookup by (rewrite ?length_seq; done).
    rewrite length_seq, lookup_seq_lt by lia. simpl.
    destruct (df !! (length df - S k)%nat); [f_equal|]; exact IH.
  - rewrite (lookup_ge_None_2 (reverse (seq 0 (length df))))
      by (rewrite length_reverse, length_seq; lia).
    rewrite (lookup_ge_None_2 (reverse df)) by (rewrite length_reverse; lia).
    exact IH.
Qed.

Lemma cells_present (j : nat) (vals : list Q) :
  omap (λ c : nat * option Q, pair c.1 <$> c.2) (zip (seq j (length vals)) (Some <$> vals))
  = zip (seq j (length vals)) vals.
Proof.
  revert j. induction vals as [|x vals IH]; intros j; [done|]. simpl. by rewrite IH.
Qed.

Lemma cells_missing (j : nat) (vals : list Q) :
  omap (λ c : nat * option Q, if c.2 is None then Some c.1 else None)
       (zip (seq j (length vals)) (Some <$> vals)) = [].
Proof.
  revert j. induction vals as [|x vals IH]; intros j; [done|]. simpl. by rewrite IH.
Qed.

Lemma nargsort_present (vals : list Q) :
  Pandas.nargsort kind (Some <$> vals)
  = reverse (omap (reverse (seq 0 (length vals)) !!.) (kind (reverse vals))).
Proof.
  unfold Pandas.nargsort. rewrite length_fmap, cells_present, cells_missing.
  rewrite fst_zip, snd_zip by (rewrite length_seq; lia). by rewrite app_nil_r.
Qed.

(** With no value of [col] missing, the sorted table is read off the reversed
    table along the argsort of the reversed column, backwards. *)
Lemma sort_values_present (df : list row) (vals : list Q) :
  col <$> df = Some <$> vals →
  Pandas.sort_values kind col df = reverse (omap (reverse df !!.) (kind (reverse vals))).
Proof.
  intros Hcol. unfold Pandas.sort_values. rewrite Hcol, nargsort_present, omap_reverse.
  assert (length vals = length df) as ->.
  { apply (f_equal length) in Hcol. by rewrite !length_fmap in Hcol. }
  by rewrite omap_lookup_reverse_seq.
Qed.

Lemma sort_values_Permutation (df : list row) (vals : list Q) :
  col <$> df = Some <$> vals →
  Pandas.argsorts kind (reverse vals) →
  Pandas.sort_values kind col df ≡ₚ df.
Proof.
  intros Hcol [Hperm _]. rewrite (sort_values_present df vals Hcol).
  rewrite reverse_Permutation, Hperm.
  assert (length (reverse vals) = length (reverse df)) as ->.
  { apply (f_equal length) in Hcol. rewrite !length_fmap in Hcol.
    by rewrite !length_reverse. }
  rewrite omap_lookup_seq. apply reverse_Permutation.
Qed.

Lemma lookup_column (rd : list row) (a : list Q) (k : nat) :
  col <$> rd = Some <$> a → (k < length a)%nat →
  ∃ r, rd !! k = Some r ∧ col r = Some (a !!! k).
Proof.
  intros Hcol Hk.
  destruct (lookup_lt_is_Some_2 a k Hk) as [x Hx].
  assert (Hlk : (col <$> rd) !! k = Some (Some x)).
  { by rewrite Hcol, list_lookup_fmap, Hx. }
  rewrite list_lookup_fmap in Hlk.
  destruct (rd !! k) as [r|]; [|done]. injection Hlk as Hr.
  exists r. split; [done|]. by rewrite (list_lookup_total_correct a k x Hx).
Qed.

Lemma sorted_along (rd : list row) (a : list Q) (π : list nat) :
  col <$> rd = Some <$> a →
  Forall (λ k, k < length a)%nat π →
  Sorted (λ i j, (a !!! i <= a !!! j)%Q) π →
  Sorted (flip (Pandas.col_ge col)) (omap (rd !!.) π).
Proof.
  intros Hcol Hlt Hs. induction Hs as [|k π Hs IH Hhd]; [constructor|].
  apply Forall_cons in Hlt as [Hk Hlt].
  destruct (lookup_column rd a k Hcol Hk) as (r & Hr & Hck).
  simpl. rewrite Hr. constructor; [by apply IH|].
  destruct Hhd as [|k' π' Hkk']; [constructor|].
  apply Forall_cons in Hlt as [Hk' _].
  destruct (lookup_column rd a k' Hcol Hk') as (r' & Hr' & Hck').
  simpl. rewrite Hr'. constructor.
  unfold flip, Pandas.col_ge. by rewrite Hck, Hck'.
Qed.

Lemma Sorted_take {A} (R : relation A) (l : list A) (n : nat) :
  Sorted R l → Sorted R (take n l).
Proof.
  intros Hs. revert n. induction Hs as [|x l Hs IH Hhd]; intros [|n]; simpl;
    try constructor; [apply IH|].
  destruct Hhd; destruct n; simpl; by constructor.
Qed.

Lemma sort_values_Sorted (df : list row) (vals : list Q) :
  col <$> df = Some <$> vals →
  Pandas.argsorts kind (reverse vals) →
  Sorted (Pandas.col_ge col) (Pandas.sort_values kind col df).
Proof.
  intros Hcol [Hperm Hs]. rewrite (sort_values_present df vals Hcol).
  apply (Sorted_reverse (flip (Pandas.col_ge col))).
  apply (sorted_along (reverse df) (reverse vals)); [| |done].
  - by rewrite fmap_reverse, Hcol, fmap_reverse.
  - apply Forall_forall. intros k Hk. rewrite Hperm in Hk.
    apply elem_of_seq in Hk. lia.
Qed.

Lemma col_ge_trans : Transitive (Pandas.col_ge col).
Proof.
  intros r1 r2 r3. unfold Pandas.col_ge.
  destruct (col r1), (col r2), (col r3); try done. intros H1 H2. by eapply Qle_trans.
Qed.

End sort_values.

(** ** Selecting the best momentum stocks *)

(** C6 (as the code has it): when every row has a score, the selection is
    made of the first min(n, |rows|) rows of the table sorted by descending
    score with the default [kind], quicksort: it is sorted, every row it keeps
    scores at least as high as every row it leaves out, and the rows kept and
    the rows left out are together the rows of the table.  The notebook asks
    for 50 rows ([select] is [select_with Pandas.quicksort 50]); the order
    among rows of equal score is whatever that argsort leaves. *)
Theorem select_sorted_prefix (n : nat) (df : list Momentum.HQM.row) (scores : list Q) :
  Momentum.HQM.momentum_score <$> df = Some <$> scores →
  ∃ rest,
    Momentum.HQM.select_with Pandas.quicksort n df ++ rest
    = Pandas.sort_values Pandas.quicksort Momentum.HQM.momentum_score df
    ∧ Momentum.HQM.select_with Pandas.quicksort n df ++ rest ≡ₚ df
    ∧ length (Momentum.HQM.select_with Pandas.quicksort n df) = min n (length df)
    ∧ Sorted (Pandas.col_ge Momentum.HQM.momentum_score)
        (Momentum.HQM.select_with Pandas.quicksort n df)
    ∧ (∀ r r', r ∈ Momentum.HQM.select_with Pandas.quicksort n df → r' ∈ rest →
               Pandas.col_ge Momentum.HQM.momentum_score r r').
Proof.
  intros Hcol. unfold Momentum.HQM.select_with.
  pose proof (argsort_quicksort_argsorts (reverse scores)) as Hkind.
  pose proof (sort_values_Permutation Pandas.quicksort _ df scores Hcol Hkind) as Hperm.
  pose proof (sort_values_Sorted Pandas.quicksort _ df scores Hcol Hkind) as Hsorted.
  exists (drop n (Pandas.sort_values Pandas.quicksort Momentum.HQM.momentum_score df)).
  rewrite take_drop. split_and!.
  - done.
  - done.
  - rewrite length_take. by rewrite (Permutation_length Hperm).
  - by apply Sorted_take.
  - intros r r' Hr Hr'.
    apply (@Sorted_StronglySorted _ _ (col_ge_trans _)) in Hsorted.
    rewrite <- (take_drop n) in Hsorted.
    by apply (StronglySorted_app_1_elem_of _ _ _ r r' Hsorted).
Qed.

Lemma select_sorted_prefix_witness :
  length (Momentum.HQM.select_with Pandas.quicksort 8 Momentum.HQM.mixed_scores) = 8%nat
  ∧ Sorted (Pandas.col_ge Momentum.HQM.momentum_score)
      (Momentum.HQM.select_with Pandas.quicksort 8 Momentum.HQM.mixed_scores).
Proof.
  destruct (select_sorted_prefix 8 Momentum.HQM.mixed_scores
              ((λ k : nat, inject_Z (Z.of_nat ((k * 7) mod 5)) / 10)%Q <$> seq 0 20))
    as (rest & _ & _ & Hlen & Hsorted & _).
  - reflexivity.
  - split; [exact Hlen | exact Hsorted].
Defined.

(** Seventeen equal values are partitioned, and do not come out in the order
    they went in; sixteen go to the insertion sort, which keeps them. *)
Example argsort_seventeen_tied :
  Numpy.argsort_quicksort (replicate 17 (1 # 2)%Q) ≠ seq 0 17
  ∧ Numpy.argsort_quicksort (replicate 16 (1 # 2)%Q) = seq 0 16.
Proof. split; [intros E; vm_compute in E; discriminate | vm_compute; reflexivity]. Qed.

(** The order quicksort leaves among eighteen rows of equal score. *)
Example select_tied_scores_order :
  Momentum.HQM.ticker <$> Momentum.HQM.select Momentum.HQM.tied_scores
  = ["A"; "B"; "Q"; "P"; "O"; "N"; "M"; "L"; "K"; "J"; "I"; "H"; "G"; "F"; "E"; "D";
     "C"; "R"]%string.
Proof. vm_compute. reflexivity. Qed.

(** C6 fails on the order of ties: eighteen rows with the same score enter
    the selection in the order A, B, C, ..., R and do not leave it in that
    order. *)
Lemma quicksort_reorders_tied_rows :
  Forall (λ r, Momentum.HQM.momentum_score r = Some (1 # 2)%Q) Momentum.HQM.tied_scores
  ∧ length (Momentum.HQM.select Momentum.HQM.tied_scores)
    = length Momentum.HQM.tied_scores
  ∧ Momentum.HQM.ticker <$> Momentum.HQM.select Momentum.HQM.tied_scores
    ≠ Momentum.HQM.ticker <$> Momentum.HQM.tied_scores.
Proof.
  split_and!.
  - repeat constructor.
  - vm_compute. reflexivity.
  - intros E. vm_compute in E. discriminate.
Qed.

(** * Further properties of the notebooks *)

(** ** More on the batcher *)

Lemma range_len_ceil (len k : Z) :
  0 ≤ len → 0 < k → range_len 0 len k = (len + k - 1) / k.
Proof.
  intros Hlen Hk. unfold range_len.
  destruct (Z.ltb_spec 0 k); [|lia].
  destruct (Z.ltb_spec 0 len).
  - replace (len + k - 1) with (len - 0 - 1 + 1 * k) by lia.
    rewrite Z.div_add by lia. done.
  - assert (len = 0) as -> by lia. simpl. symmetry. apply Z.div_small. lia.
Qed.

(** X2: for a positive batch size there are ceil(len / k) batches, one
    request each, and every batch but the last holds exactly k symbols. *)
Theorem chunks_generator_count {A} (L : list A) (k : Z) :
  0 < k →
  ∃ batches,
    chunks_generator L k = Ok batches
    ∧ Z.of_nat (length batches) = (Z.of_nat (length L) + k - 1) / k
    ∧ (∀ (j : nat) b, batches !! j = Some b → (S j < length batches)%nat →
         Z.of_nat (length b) = k).
Proof.
  intros Hk. eexists. split; [by apply chunks_generator_pos|].
  rewrite length_fmap, length_seq.
  pose proof (range_len_ceil (Z.of_nat (length L)) k ltac:(lia) Hk) as Hceil.
  assert (Hnn : 0 ≤ range_len 0 (Z.of_nat (length L)) k).
  { rewrite Hceil. apply Z.div_pos; lia. }
  split; [lia|].
  intros j b Hb Hj.
  apply list_lookup_fmap_Some in Hb as (j' & -> & Hj').
  apply lookup_seq in Hj' as [-> _]. simpl.
  rewrite length_take, length_drop.
  assert (Hlast : (Z.of_nat (S j)) * k ≤ Z.of_nat (length L)).
  { assert (Z.of_nat (S j) ≤ (Z.of_nat (length L) - 0 - 1) / k).
    { unfold range_len in Hj, Hnn.
      destruct (Z.ltb_spec 0 k); [|lia].
      destruct (Z.ltb_spec 0 (Z.of_nat (length L))); lia. }
    transitivity (k * ((Z.of_nat (length L) - 0 - 1) / k)); [nia|].
    pose proof (Z.mul_div_le (Z.of_nat (length L) - 0 - 1) k Hk). lia. }
  clear Hceil Hnn Hj. nia.
Qed.

Lemma chunks_generator_count_witness :
  ∃ batches,
    chunks_generator ["A"; "AAL"; "AAP"; "AAPL"; "ABBV"]%string 2 = Ok batches
    ∧ Z.of_nat (length batches) = 3.
Proof.
  destruct (chunks_generator_count ["A"; "AAL"; "AAP"; "AAPL"; "ABBV"]%string 2)
    as (batches & H1 & H2 & _); [lia|].
  exists batches. split; [exact H1 | exact H2].
Defined.

(** ** Building the tables *)

(** The row of a symbol in the equal-weight table. *)
Lemma equal_weight_fetch_batch (get : string → EqualWeight.response)
    (quote_of : string → EqualWeight.quote) (group : list string)
    (df : list EqualWeight.row) :
  let symbol_string := Str.join (String Str.comma EmptyString) group in
  Str.split Str.comma symbol_string = group →
  EqualWeight.status_code (get symbol_string) = 200 →
  (∀ s, s ∈ group → EqualWeight.json (get symbol_string) !! s = Some (quote_of s)) →
  EqualWeight.fetch_batch get symbol_string df
  = (df ++ ((λ s, {| EqualWeight.ticker := s;
                     EqualWeight.stock_price := EqualWeight.latestPrice (quote_of s);
                     EqualWeight.market_cap := EqualWeight.marketCap (quote_of s);
                     EqualWeight.num_of_shares_to_buy := None |}) <$> group), None).
Proof.
  intros symbol_string Hsplit Hs Hall. unfold EqualWeight.fetch_batch.
  rewrite Hs, Hsplit. simpl.
  rewrite <- concat_singletons. apply for_each_extend.
  intros s Hin df'. unfold EqualWeight.append_symbol. by rewrite (Hall s Hin).
Qed.

(** X3: when no symbol holds a comma and every batch is answered with status
    200 and an entry for each of its symbols, the equal-weight table is built
    without exception and holds one row per stock of the list, in the order
    of the list, with the price and the market capitalisation of the answer
    and no share count yet. *)
Theorem equal_weight_build_complete (get : string → EqualWeight.response)
    (quote_of : string → EqualWeight.quote) (stocks : list string) :
  Forall (λ symbol, Str.contains Str.comma symbol = false) stocks →
  (∀ groups group, chunks_generator stocks 100 = Ok groups → group ∈ groups →
     let symbol_string := Str.join (String Str.comma EmptyString) group in
     EqualWeight.status_code (get symbol_string) = 200
     ∧ ∀ s, s ∈ group → EqualWeight.json (get symbol_string) !! s = Some (quote_of s)) →
  EqualWeight.build get stocks
  = ((λ s, {| EqualWeight.ticker := s;
              EqualWeight.stock_price := EqualWeight.latestPrice (quote_of s);
              EqualWeight.market_cap := EqualWeight.marketCap (quote_of s);
              EqualWeight.num_of_shares_to_buy := None |}) <$> stocks, None).
Proof.
  intros Hcomma Hget. unfold EqualWeight.build.
  destruct (chunks_generator stocks 100) as [groups|e] eqn:Hgroups.
  2: { by rewrite chunks_generator_pos in Hgroups. }
  unfold symbol_strings. rewrite for_each_fmap.
  rewrite (for_each_extend _
             (fmap (λ s, {| EqualWeight.ticker := s;
                            EqualWeight.stock_price := EqualWeight.latestPrice (quote_of s);
                            EqualWeight.market_cap := EqualWeight.marketCap (quote_of s);
                            EqualWeight.num_of_shares_to_buy := None |}))).
  - simpl. rewrite concat_fmap_fmap.
    by rewrite (chunks_generator_concat stocks 100 groups).
  - intros g Hg df. destruct (Hget groups g eq_refl Hg) as [Hs Hall].
    apply equal_weight_fetch_batch; [|done|done].
    by apply (split_symbol_string stocks 100 groups).
Qed.

Lemma equal_weight_build_complete_witness :
  (EqualWeight.build Echo.quotes ["A"; "AAL"; "AAP"]%string).2 = None
  ∧ EqualWeight.ticker <$> (EqualWeight.build Echo.quotes ["A"; "AAL"; "AAP"]%string).1
    = ["A"; "AAL"; "AAP"]%string.
Proof.
  rewrite (equal_weight_build_complete Echo.quotes Echo.quote_of ["A"; "AAL"; "AAP"]%string).
  - split; reflexivity.
  - repeat constructor.
  - intros groups group [= <-] Hg.
    apply list_elem_of_singleton in Hg as ->. split; [reflexivity|].
    intros s Hs.
    repeat (apply elem_of_cons in Hs as [->|Hs]; [vm_compute; reflexivity|]).
    by apply elem_of_nil in Hs.
Defined.

(** X4: when no symbol holds a comma and every batch is answered with status
    200 and an entry for each of its symbols, the momentum table is built
    without exception and holds one row per stock of the list, in the order
    of the list, with the price and the four returns of the answer;
    percentiles, score and share count are still missing. *)
Theorem hqm_build_complete (get : string → Momentum.response)
    (entry_of : string → Momentum.entry) (stocks : list string) :
  Forall (λ symbol, Str.contains Str.comma symbol = false) stocks →
  (∀ groups group, chunks_generator stocks 100 = Ok groups → group ∈ groups →
     let symbol_string := Str.join (String Str.comma EmptyString) group in
     Momentum.status_code (get symbol_string) = 200
     ∧ ∀ s, s ∈ group → Momentum.json (get symbol_string) !! s = Some (entry_of s)) →
  Momentum.HQM.build get stocks
  = ((λ s, Fetched.hqm_row s (entry_of s)) <$> stocks, None).
Proof. apply hqm_build_rows. Qed.

Lemma hqm_build_complete_witness :
  (Momentum.HQM.build Echo.stats ["A"; "AAL"; "AAP"]%string).2 = None
  ∧ Momentum.HQM.ticker <$> (Momentum.HQM.build Echo.stats ["A"; "AAL"; "AAP"]%string).1
    = ["A"; "AAL"; "AAP"]%string.
Proof.
  rewrite (hqm_build_complete Echo.stats Echo.entry_of ["A"; "AAL"; "AAP"]%string).
  - split; reflexivity.
  - repeat constructor.
  - intros groups group [= <-] Hg.
    apply list_elem_of_singleton in Hg as ->. split; [reflexivity|].
    intros s Hs.
    repeat (apply elem_of_cons in Hs as [->|Hs]; [vm_compute; reflexivity|]).
    by apply elem_of_nil in Hs.
Defined.

(** X5: a batch answered with a status other than 200 stops the building of
    the momentum table with [AssertionError]; the rows of the batches before
    it stay in the table and the refused batch adds none (no symbol holds a
    comma). *)
Theorem hqm_build_refused (get : string → Momentum.response)
    (entry_of : string → Momentum.entry) (stocks : list string)
    (before after : list (list string)) (group : list string) :
  Forall (λ symbol, Str.contains Str.comma symbol = false) stocks →
  chunks_generator stocks 100 = Ok (before ++ group :: after) →
  (∀ g, g ∈ before →
     let symbol_string := Str.join (String Str.comma EmptyString) g in
     Momentum.status_code (get symbol_string) = 200
     ∧ ∀ s, s ∈ g → Momentum.json (get symbol_string) !! s = Some (entry_of s)) →
  Momentum.status_code (get (Str.join (String Str.comma EmptyString) group)) ≠ 200 →
  Momentum.HQM.build get stocks
  = ((λ s, Fetched.hqm_row s (entry_of s)) <$> concat before, Some AssertionError).
Proof.
  intros Hcomma Hgroups Hbefore Hstatus. unfold Momentum.HQM.build. rewrite Hgroups.
  unfold symbol_strings. rewrite for_each_fmap.
  rewrite (for_each_stops _ (fmap (λ s, Fetched.hqm_row s (entry_of s)))
             AssertionError before after group []).
  - simpl. by rewrite app_nil_r, concat_fmap_fmap.
  - intros g Hg df. destruct (Hbefore g Hg) as [Hs Hall].
    apply hqm_fetch_batch; [|done|done].
    apply (split_symbol_string stocks 100 _ g ltac:(lia) Hcomma Hgroups).
    apply elem_of_app. by left.
  - intros df. unfold Momentum.HQM.fetch_batch.
    destruct (Z.eqb_spec
                (Momentum.status_code (get (Str.join (String Str.comma EmptyString) group)))
                200); [done|].
    by rewrite app_nil_r.
Qed.

Lemma hqm_build_refused_witness :
  (Momentum.HQM.build Echo.refused (replicate 100 "A"%string ++ ["B"; "C"]%string)).2
  = Some AssertionError
  ∧ length (Momentum.HQM.build Echo.refused
              (replicate 100 "A"%string ++ ["B"; "C"]%string)).1 = 100%nat.
Proof.
  rewrite (hqm_build_refused Echo.refused Echo.entry_of
             (replicate 100 "A"%string ++ ["B"; "C"]%string)
             [replicate 100 "A"%string] [] ["B"; "C"]%string).
  - split; reflexivity.
  - apply Forall_app. split; [by apply Forall_replicate | repeat constructor].
  - reflexivity.
  - intros g Hg. apply list_elem_of_singleton in Hg as ->. split; [reflexivity|].
    intros s Hs. apply elem_of_replicate in Hs as [-> _]. vm_compute. reflexivity.
  - vm_compute. discriminate.
Defined.

(** X6: when the answer to a batch lacks a symbol, the building of the
    momentum table stops with [KeyError] at that symbol; the rows of the
    batches before and of the symbols of the batch that come before the
    missing one stay in the table (no symbol holds a comma). *)
Theorem hqm_build_missing_symbol (get : string → Momentum.response)
    (entry_of : string → Momentum.entry) (stocks : list string)
    (before after : list (list string)) (found rest : list string) (symbol : string) :
  Forall (λ symbol, Str.contains Str.comma symbol = false) stocks →
  chunks_generator stocks 100 = Ok (before ++ (found ++ symbol :: rest) :: after) →
  (∀ g, g ∈ before →
     let symbol_string := Str.join (String Str.comma EmptyString) g in
     Momentum.status_code (get symbol_string) = 200
     ∧ ∀ s, s ∈ g → Momentum.json (get symbol_string) !! s = Some (entry_of s)) →
  let symbol_string := Str.join (String Str.comma EmptyString) (found ++ symbol :: rest) in
  Momentum.status_code (get symbol_string) = 200 →
  (∀ s, s ∈ found → Momentum.json (get symbol_string) !! s = Some (entry_of s)) →
  Momentum.json (get symbol_string) !! symbol = None →
  Momentum.HQM.build get stocks
  = ((λ s, Fetched.hqm_row s (entry_of s)) <$> (concat before ++ found), Some KeyError).
Proof.
  intros Hcomma Hgroups Hbefore symbol_string Hstatus Hfound Hmissing.
  unfold Momentum.HQM.build. rewrite Hgroups.
  unfold symbol_strings. rewrite for_each_fmap.
  rewrite (for_each_stops _ (fmap (λ s, Fetched.hqm_row s (entry_of s)))
             KeyError before after (found ++ symbol :: rest)
             ((λ s, Fetched.hqm_row s (entry_of s)) <$> found)).
  - simpl. by rewrite fmap_app, concat_fmap_fmap.
  - intros g Hg df. destruct (Hbefore g Hg) as [Hs Hall].
    apply hqm_fetch_batch; [|done|done].
    apply (split_symbol_string stocks 100 _ g ltac:(lia) Hcomma Hgroups).
    apply elem_of_app. by left.
  - intros df. unfold Momentum.HQM.fetch_batch. fold symbol_string.
    rewrite Hstatus. simpl. unfold symbol_string at 2.
    rewrite (split_symbol_string stocks 100 _ (found ++ symbol :: rest)
               ltac:(lia) Hcomma Hgroups)
      by (apply elem_of_app; right; apply list_elem_of_here).
    rewrite (for_each_stops _ (λ s, [Fetched.hqm_row s (entry_of s)])
               KeyError found rest symbol []).
    + by rewrite app_nil_r, concat_singletons.
    + intros s Hs df'. unfold Momentum.HQM.append_symbol. by rewrite (Hfound s Hs).
    + intros df'. unfold Momentum.HQM.append_symbol. by rewrite Hmissing, app_nil_r.
Qed.

Lemma hqm_build_missing_symbol_witness :
  (Momentum.HQM.build Momentum.HQM.two_of_three ["A"; "B"; "C"; "D"]%string).2
  = Some KeyError
  ∧ Momentum.HQM.ticker
      <$> (Momentum.HQM.build Momentum.HQM.two_of_three ["A"; "B"; "C"; "D"]%string).1
    = ["A"; "B"]%string.
Proof.
  rewrite (hqm_build_missing_symbol Momentum.HQM.two_of_three
             (λ s, default (Echo.entry_of s)
                     (Momentum.json (Momentum.HQM.two_of_three EmptyString) !! s))
             ["A"; "B"; "C"; "D"]%string [] [] ["A"; "B"]%string ["D"]%string "C"%string).
  - split; reflexivity.
  - repeat constructor.
  - reflexivity.
  - intros g Hg. by apply elem_of_nil in Hg.
  - reflexivity.
  - intros s Hs.
    repeat (apply elem_of_cons in Hs as [->|Hs]; [vm_compute; reflexivity|]).
    by apply elem_of_nil in Hs.
  - vm_compute. reflexivity.
Defined.

Lemma screener_fetch_batch (get : string → Momentum.response)
    (entry_of : string → Momentum.entry) (group : list string)
    (df : list Momentum.Screener.row) :
  let symbol_string := Str.join (String Str.comma EmptyString) group in
  Str.split Str.comma symbol_string = group →
  Momentum.status_code (get symbol_string) = 200 →
  (∀ s, s ∈ group → Momentum.json (get symbol_string) !! s = Some (entry_of s)) →
  Momentum.Screener.fetch_batch get symbol_string df
  = (df ++ ((λ s, Fetched.screener_row s (entry_of s)) <$> group), None).
Proof.
  intros symbol_string Hsplit Hs Hall. unfold Momentum.Screener.fetch_batch.
  rewrite Hs, Hsplit. simpl.
  rewrite <- concat_singletons. apply for_each_extend.
  intros s Hin df'. unfold Momentum.Screener.append_symbol. by rewrite (Hall s Hin).
Qed.

(** The first batch holds the first symbols of the list. *)
Lemma first_batch {A} (L : list A) (k : Z) (batches : list (list A)) :
  0 < k → chunks_generator L k = Ok batches →
  concat (take 1 batches) = take (Z.to_nat k) L.
Proof.
  intros Hk Hb.
  rewrite chunks_generator_pos in Hb by done. injection Hb as <-.
  pose proof (range_len_pos (Z.of_nat (length L)) k ltac:(lia) Hk) as Hm.
  destruct (Z.to_nat (range_len 0 (Z.of_nat (length L)) k)) as [|m] eqn:Em.
  - assert (length L = 0%nat) as HL by lia.
    apply nil_length_inv in HL as ->. by rewrite take_nil.
  - simpl. by rewrite app_nil_r, drop_0.
Qed.

(** X7: the first screener asks for the first batch only: when no symbol
    holds a comma and that batch is answered with status 200 and an entry for
    each of its symbols, its table holds the first 100 stocks of the list, in
    order, whatever the length of the list. *)
Theorem screener_build_first_batch (get : string → Momentum.response)
    (entry_of : string → Momentum.entry) (stocks : list string) :
  Forall (λ symbol, Str.contains Str.comma symbol = false) stocks →
  (∀ groups group, chunks_generator stocks 100 = Ok groups → group ∈ take 1 groups →
     let symbol_string := Str.join (String Str.comma EmptyString) group in
     Momentum.status_code (get symbol_string) = 200
     ∧ ∀ s, s ∈ group → Momentum.json (get symbol_string) !! s = Some (entry_of s)) →
  Momentum.Screener.build get stocks
  = ((λ s, Fetched.screener_row s (entry_of s)) <$> take 100 stocks, None).
Proof.
  intros Hcomma Hget. unfold Momentum.Screener.build.
  destruct (chunks_generator stocks 100) as [groups|e] eqn:Hgroups.
  2: { by rewrite chunks_generator_pos in Hgroups. }
  pose proof (first_batch stocks 100 groups ltac:(lia) Hgroups) as Hfirst.
  rewrite slice_first. unfold symbol_strings. rewrite <- fmap_take, for_each_fmap.
  rewrite (for_each_extend _ (fmap (λ s, Fetched.screener_row s (entry_of s)))).
  - simpl. by rewrite concat_fmap_fmap, Hfirst.
  - intros g Hg df. destruct (Hget groups g eq_refl Hg) as [Hs Hall].
    apply screener_fetch_batch; [|done|done].
    apply (split_symbol_string stocks 100 groups g ltac:(lia) Hcomma Hgroups).
    apply elem_of_take in Hg as (i & Hi & _). by eapply list_elem_of_lookup_2.
Qed.

Lemma screener_build_first_batch_witness :
  (Momentum.Screener.build Echo.refused (replicate 100 "A"%string ++ ["B"; "C"]%string)).2
  = None
  ∧ length (Momentum.Screener.build Echo.refused
              (replicate 100 "A"%string ++ ["B"; "C"]%string)).1 = 100%nat.
Proof.
  rewrite (screener_build_first_batch Echo.refused Echo.entry_of
             (replicate 100 "A"%string ++ ["B"; "C"]%string)).
  - split; reflexivity.
  - apply Forall_app. split; [by apply Forall_replicate | repeat constructor].
  - intros groups group Hgroups Hg. vm_compute in Hgroups. injection Hgroups as <-.
    apply list_elem_of_singleton in Hg as ->. split; [reflexivity|].
    intros s Hs. change (s ∈ replicate 100 "A"%string) in Hs.
    apply elem_of_replicate in Hs as [-> _]. vm_compute. reflexivity.
Defined.

(** ** More on the number of shares to buy *)

(** In exact arithmetic a price of zero stops the cell at that row, at the
    division: the rows before it have their share count written, that row
    and the rows after it are as they were. *)
Lemma calc_shares_stops_at_zero `{PricedRow row} (B : Q) (before after : list row) (r : row) :
  Forall (λ x, ¬ (price_of x == 0)%Q) before →
  (price_of r == 0)%Q →
  calc_shares B (before ++ r :: after)
  = (((λ x, with_shares (floor ((B / len (before ++ r :: after)) / price_of x)) x)
        <$> before) ++ r :: after,
     Some ZeroDivisionError).
Proof.
  intros Hbefore Hr. unfold calc_shares, position_size_of.
  rewrite truediv_ok by (apply Qpos_nonzero, len_pos; by destruct before).
  apply (for_each_rows_stop _ _ (λ _, True) (λ x, ¬ (price_of x == 0)%Q)
           ZeroDivisionError r after) with (done := []); [| |done|done].
  - intros done x rest' _ Hx. split; [|done]. unfold buy.
    rewrite list_lookup_middle by done. rewrite truediv_ok by done.
    by rewrite insert_middle.
  - intros done _. unfold buy. rewrite list_lookup_middle by done.
    by rewrite truediv_zero.
Qed.

(** Every table is free of zero prices or has a first row with a zero price. *)
Lemma first_zero_price `{PricedRow row} (df : list row) :
  Forall (λ x, ¬ (price_of x == 0)%Q) df
  ∨ ∃ before r after, df = before ++ r :: after
      ∧ Forall (λ x, ¬ (price_of x == 0)%Q) before ∧ (price_of r == 0)%Q.
Proof.
  induction df as [|x df IH]; [by left|].
  destruct (Qeq_dec (price_of x) 0) as [Hx|Hx].
  - right. exists [], x, df. split_and!; [done | constructor | done].
  - destruct IH as [IH|(before & r & after & -> & Hb & Hr)].
    + left. by constructor.
    + right. exists (x :: before), r, after.
      split_and!; [done | by constructor | done].
Qed.

(** X10: running the cell a second time changes nothing: it ends or raises
    as the first time and leaves the same table, for any table and budget
    (a share count that is written replaces the one before). *)
Theorem calc_shares_idempotent `{PricedRow row} (B : Q) (df : list row) :
  (∀ n m r, with_shares n (with_shares m r) = with_shares n r) →
  calc_shares B (calc_shares B df).1 = calc_shares B df.
Proof.
  intros Hlaw. destruct (first_zero_price df) as [Hall|(before & r & after & -> & Hb & Hr)].
  - destruct df as [|x df]; [rewrite calc_shares_nil; simpl; apply calc_shares_nil|].
    rewrite (calc_shares_ok B (x :: df)); [|discriminate|exact Hall]. cbn [fst].
    rewrite calc_shares_ok.
    + f_equal. rewrite <- list_fmap_compose. apply list_fmap_ext. intros i y _.
      unfold compose, len. by rewrite length_fmap, price_with_shares, Hlaw.
    + done.
    + apply Forall_fmap. eapply Forall_impl; [exact Hall|]. intros y Hy.
      unfold compose. by rewrite price_with_shares.
  - rewrite (calc_shares_stops_at_zero B before after r) by done. cbn [fst].
    rewrite calc_shares_stops_at_zero; [| |done].
    + f_equal. f_equal. rewrite <- list_fmap_compose. apply list_fmap_ext.
      intros i y _. unfold compose, len.
      by rewrite !length_app, length_fmap, price_with_shares, Hlaw.
    + apply Forall_fmap. eapply Forall_impl; [exact Hb|]. intros y Hy.
      unfold compose. by rewrite price_with_shares.
Qed.

Lemma calc_shares_idempotent_witness :
  calc_shares 3000 (calc_shares 3000 EqualWeight.first_rows).1
  = calc_shares 3000 EqualWeight.first_rows.
Proof.
  apply (calc_shares_idempotent 3000%Q EqualWeight.first_rows). reflexivity.
Defined.

(** On a float64 price column a price of zero does not raise
    [ZeroDivisionError]; see [zero_price_overflows]. *)
Section binary64_zero_price.
Import Binary64.
Context `{PricedRow row}.

Lemma floor_div_zero (x p : float) :
  is_nan x = false → is_zero p = true →
  floor (x / p) = Raise (if is_zero x then ValueError else OverflowError).
Proof.
  intros Hx Hp. apply is_zero_class in Hp as [sp Hp].
  unfold floor. rewrite FloatAxioms.div_spec, Hp.
  unfold is_nan in Hx. unfold is_zero.
  rewrite negb_false_iff, FloatAxioms.eqb_spec in Hx. rewrite FloatAxioms.eqb_spec.
  change (Prim2SF 0) with (S754_zero false).
  unfold SFeqb in *. by destruct (Prim2SF x) as [s|[]| |[] m e].
Qed.

End binary64_zero_price.

(** X9: on the float64 price column a price of zero stops the cell at that
    row with [OverflowError], from the floor of an infinite quotient, or with
    [ValueError] when the position size is zero too (the quotient is then a
    NaN): the rows before it have their share count written, that row and
    the rows after it are as they were. *)
Theorem zero_price_overflows `{Binary64.PricedRow row} (B : float)
    (before after : list row) (r : row) :
  let position_size := (B / Binary64.of_nat (length (before ++ r :: after)))%float in
  Forall (λ x, is_finite (position_size / Binary64.price_of x) = true) before →
  is_zero (Binary64.price_of r) = true →
  is_nan position_size = false →
  Binary64.calc_shares B (before ++ r :: after)
  = (((λ x, Binary64.with_shares
              (Qfloor (Binary64.exact (position_size / Binary64.price_of x))) x)
        <$> before) ++ r :: after,
     Some (if is_zero position_size then ValueError else OverflowError)).
Proof.
  intros position_size Hbefore Hr Hps.
  apply binary64_calc_shares_stops; [done|]. by apply floor_div_zero.
Qed.

Lemma zero_price_overflows_witness :
  (Binary64.calc_shares 3000 Binary64.EqualWeight.free_between).2 = Some OverflowError
  ∧ Binary64.EqualWeight.num_of_shares_to_buy
      <$> (Binary64.calc_shares 3000 Binary64.EqualWeight.free_between).1
    = [Some 100; None; None].
Proof.
  rewrite (zero_price_overflows 3000%float [Binary64.EqualWeight.make "H" 10]
             [Binary64.EqualWeight.make "I" 20] (Binary64.EqualWeight.make "Z" 0)).
  - split; reflexivity.
  - repeat constructor.
  - reflexivity.
  - reflexivity.
Defined.

(** ** More on percentile ranks *)

Lemma indicator_le (b1 b2 : bool) :
  (b1 = true → b2 = true) →
  ((if b1 then 1 else 0) <= (if b2 then 1 else 0))%Q.
Proof. destruct b1, b2; intros H; try lra; by specialize (H eq_refl). Qed.

(** The counts grow with the value. *)
Lemma counts_monotone (a : list Q) (v1 v2 : Q) :
  (v1 <= v2)%Q →
  (Scipy.count_lt a v1 <= Scipy.count_lt a v2)%Q
  ∧ (Scipy.count_le a v1 <= Scipy.count_le a v2)%Q.
Proof.
  intros Hv. induction a as [|x a [IH1 IH2]]; [split; apply Qle_refl|].
  rewrite !count_lt_cons, !count_le_cons.
  assert (H1 := indicator_le (Qltb x v1) (Qltb x v2)).
  assert (H2 := indicator_le (Qle_bool x v1) (Qle_bool x v2)).
  split.
  - assert ((if Qltb x v1 then 1 else 0) <= (if Qltb x v2 then 1 else 0))%Q; [|lra].
    apply H1. rewrite !Qltb_lt. intros Hx. by eapply Qlt_le_trans.
  - assert ((if Qle_bool x v1 then 1 else 0) <= (if Qle_bool x v2 then 1 else 0))%Q;
      [|lra].
    apply H2. rewrite !Qle_bool_iff. intros Hx. by eapply Qle_trans.
Qed.

(** The rows at or below a value are below any higher value. *)
Lemma count_le_lt (a : list Q) (v1 v2 : Q) :
  (v1 < v2)%Q → (Scipy.count_le a v1 <= Scipy.count_lt a v2)%Q.
Proof.
  intros Hv. induction a as [|x a IH]; [apply Qle_refl|].
  rewrite count_lt_cons, count_le_cons.
  assert ((if Qle_bool x v1 then 1 else 0) <= (if Qltb x v2 then 1 else 0))%Q; [|lra].
  apply indicator_le. rewrite Qle_bool_iff, Qltb_lt. intros Hx. by eapply Qle_lt_trans.
Qed.

Lemma Qdiv_lt_compat (x y d : Q) : (0 < d)%Q → (x < y)%Q → (x / d < y / d)%Q.
Proof.
  intros Hd Hxy. unfold Qdiv. apply Qmult_lt_compat_r; [|done].
  by apply Qinv_lt_0_compat.
Qed.

(** X13: within a column the percentiles follow the returns: of two rows,
    the one with the higher return gets the higher percentile, and rows with
    the same return get the same percentile. *)
Theorem percentiles_follow_returns
    (df : list Momentum.HQM.row) (tp : Momentum.HQM.time_period)
    (i j : nat) (ri rj : Momentum.HQM.row) (vi vj pi pj : Q) :
  Momentum.HQM.complete df →
  (Momentum.HQM.calc_percentiles df).1 !! i = Some ri →
  (Momentum.HQM.calc_percentiles df).1 !! j = Some rj →
  Momentum.HQM.return_col tp ri = Some vi →
  Momentum.HQM.return_col tp rj = Some vj →
  Momentum.HQM.percentile_col tp ri = Some pi →
  Momentum.HQM.percentile_col tp rj = Some pj →
  ((vi < vj)%Q → (pi < pj)%Q) ∧ ((vi == vj)%Q → (pi == pj)%Q).
Proof.
  intros Hc Hi Hj Hvi Hvj Hpi Hpj.
  destruct (complete_columns df Hc tp) as [a Ha].
  destruct (percentile_written df i ri tp a vi Hc Ha Hi Hvi) as (_ & Hini & Hpi').
  destruct (percentile_written df j rj tp a vj Hc Ha Hj Hvj) as (_ & Hinj & Hpj').
  rewrite Hpi in Hpi'. rewrite Hpj in Hpj'.
  injection Hpi' as ->. injection Hpj' as ->.
  rewrite !percentile_of_member by done.
  assert (Hn : (0 < 2 * len a)%Q).
  { assert (0 < len a)%Q by (apply len_pos; by destruct Hini). lra. }
  split.
  - intros Hlt.
    pose proof (count_le_lt a vi vj Hlt).
    pose proof (count_lt_succ_le a vi Hini).
    pose proof (count_lt_succ_le a vj Hinj).
    apply Qdiv_lt_compat; [done|]. lra.
  - intros Heq.
    destruct (counts_monotone a vi vj) as [H1 H2]; [rewrite Heq; apply Qle_refl|].
    destruct (counts_monotone a vj vi) as [H3 H4]; [rewrite Heq; apply Qle_refl|].
    assert (E1 : (Scipy.count_lt a vi == Scipy.count_lt a vj)%Q) by by apply Qle_antisym.
    assert (E2 : (Scipy.count_le a vi == Scipy.count_le a vj)%Q) by by apply Qle_antisym.
    by rewrite E1, E2.
Qed.

Lemma percentiles_follow_returns_witness :
  ∃ ri rj pi pj,
    (Momentum.HQM.calc_percentiles Momentum.HQM.scenario_B).1 !! 0%nat = Some ri
    ∧ (Momentum.HQM.calc_percentiles Momentum.HQM.scenario_B).1 !! 1%nat = Some rj
    ∧ Momentum.HQM.one_year_return_percentile ri = Some pi
    ∧ Momentum.HQM.one_year_return_percentile rj = Some pj
    ∧ (pi < pj)%Q.
Proof.
  set (ri := default (Momentum.HQM.make "A" 0 None None None None)
               ((Momentum.HQM.calc_percentiles Momentum.HQM.scenario_B).1 !! 0%nat)).
  set (rj := default (Momentum.HQM.make "A" 0 None None None None)
               ((Momentum.HQM.calc_percentiles Momentum.HQM.scenario_B).1 !! 1%nat)).
  exists ri, rj, (100 # 400)%Q, (200 # 400)%Q.
  split_and!; [reflexivity | reflexivity | reflexivity | reflexivity |].
  refine (proj1 (percentiles_follow_returns Momentum.HQM.scenario_B Momentum.HQM.one_year
                   0%nat 1%nat ri rj (1 # 10)%Q (2 # 10)%Q (100 # 400)%Q (200 # 400)%Q
                   _ eq_refl eq_refl eq_refl eq_refl eq_refl eq_refl) eq_refl).
  repeat constructor; intros []; simpl; eauto.
Defined.

(** X14: the rank of a value does not depend on the order of the rows: the
    columns of two tables that hold the same returns in another order give
    the same percentile. *)
Theorem percentileofscore_order_irrelevant (a a' : list Q) (score : Q) :
  a ≡ₚ a' → Scipy.percentileofscore a score = Scipy.percentileofscore a' score.
Proof.
  intros Hperm.
  assert (Hlen : len a = len a') by (unfold len; by rewrite Hperm).
  assert (Hlt : Scipy.count_lt a score = Scipy.count_lt a' score).
  { unfold Scipy.count_lt, Scipy.count_nonzero, len. by rewrite Hperm. }
  assert (Hle : Scipy.count_le a score = Scipy.count_le a' score).
  { unfold Scipy.count_le, Scipy.count_nonzero, len. by rewrite Hperm. }
  unfold Scipy.percentileofscore. by rewrite Hlen, Hlt, Hle.
Qed.

Lemma percentileofscore_order_irrelevant_witness :
  Scipy.percentileofscore [3 # 10; 1 # 10; 3 # 10; 2 # 10]%Q (3 # 10)
  = Scipy.percentileofscore [1 # 10; 2 # 10; 3 # 10; 3 # 10]%Q (3 # 10).
Proof.
  apply (percentileofscore_order_irrelevant
           [3 # 10; 1 # 10; 3 # 10; 2 # 10]%Q [1 # 10; 2 # 10; 3 # 10; 3 # 10]%Q).
  transitivity [1 # 10; 3 # 10; 3 # 10; 2 # 10]%Q; [apply perm_swap|].
  apply perm_skip. apply (Permutation_app_comm [3 # 10; 3 # 10]%Q [2 # 10]%Q).
Defined.

(** ** What the percentile loop and the score loop leave alone *)

Lemma percentile_cell_frame {C} (col : Momentum.HQM.row → C) (i : nat)
    (tp : Momentum.HQM.time_period) (s : list Momentum.HQM.row) :
  (∀ tp' p r, col (Momentum.HQM.set_percentile tp' p r) = col r) →
  col <$> (Momentum.HQM.percentile_cell i tp s).1 = col <$> s.
Proof.
  intros Hcol. unfold Momentum.HQM.percentile_cell.
  destruct (s !! i) as [r|] eqn:Hi; [|done].
  destruct (Momentum.HQM.column (Momentum.HQM.return_col tp) s); [|done].
  destruct (Momentum.HQM.return_col tp r); [|done]. simpl.
  rewrite list_fmap_insert, Hcol, list_insert_id; [done|].
  by rewrite list_lookup_fmap, Hi.
Qed.

Lemma calc_percentiles_frame {C} (col : Momentum.HQM.row → C)
    (df : list Momentum.HQM.row) :
  (∀ tp p r, col (Momentum.HQM.set_percentile tp p r) = col r) →
  col <$> (Momentum.HQM.calc_percentiles df).1 = col <$> df.
Proof.
  intros Hcol. unfold Momentum.HQM.calc_percentiles.
  apply (for_each_preserves _ (λ s, col <$> s = col <$> df)); [|done].
  intros i s Hs.
  apply (for_each_preserves _ (λ s, col <$> s = col <$> df)); [|done].
  intros tp s' Hs'. by rewrite percentile_cell_frame.
Qed.

(** X15: the percentile loop writes percentile columns only: the tickers,
    prices, share counts, returns and scores of the table, the number of rows
    and their order are as before, whether the loop ends or raises. *)
Theorem percentile_loop_frame (df : list Momentum.HQM.row) :
  Momentum.HQM.ticker <$> (Momentum.HQM.calc_percentiles df).1
  = Momentum.HQM.ticker <$> df
  ∧ Momentum.HQM.stock_price <$> (Momentum.HQM.calc_percentiles df).1
    = Momentum.HQM.stock_price <$> df
  ∧ Momentum.HQM.num_of_shares_to_buy <$> (Momentum.HQM.calc_percentiles df).1
    = Momentum.HQM.num_of_shares_to_buy <$> df
  ∧ (∀ tp, Momentum.HQM.return_col tp <$> (Momentum.HQM.calc_percentiles df).1
           = Momentum.HQM.return_col tp <$> df)
  ∧ Momentum.HQM.momentum_score <$> (Momentum.HQM.calc_percentiles df).1
    = Momentum.HQM.momentum_score <$> df.
Proof.
  split_and!; try (intros tp); apply calc_percentiles_frame; intros tp' p r;
    try done; by destruct tp.
Qed.

Lemma calc_scores_frame {C} (col : Momentum.HQM.row → C) (df : list Momentum.HQM.row) :
  (∀ m r, col (Momentum.HQM.set_momentum_score m r) = col r) →
  col <$> (Momentum.HQM.calc_scores df).1 = col <$> df.
Proof.
  intros Hcol. unfold Momentum.HQM.calc_scores.
  apply (for_each_preserves _ (λ s, col <$> s = col <$> df)); [|done].
  intros i s Hs. unfold Momentum.HQM.score_cell.
  destruct (s !! i) as [r|] eqn:Hi; [|done].
  destruct (mapM _ _) as [ps|]; [|done].
  destruct (mean ps); [|done]. simpl.
  rewrite list_fmap_insert, Hcol, list_insert_id; [done|].
  by rewrite list_lookup_fmap, Hi.
Qed.

(** X16: the score loop writes the score column only: it neither reads nor
    changes a percentile, and tickers, prices, share counts and returns are
    as before, whether the loop ends or raises. *)
Theorem score_loop_frame (df : list Momentum.HQM.row) :
  Momentum.HQM.ticker <$> (Momentum.HQM.calc_scores df).1 = Momentum.HQM.ticker <$> df
  ∧ Momentum.HQM.stock_price <$> (Momentum.HQM.calc_scores df).1
    = Momentum.HQM.stock_price <$> df
  ∧ Momentum.HQM.num_of_shares_to_buy <$> (Momentum.HQM.calc_scores df).1
    = Momentum.HQM.num_of_shares_to_buy <$> df
  ∧ (∀ tp, Momentum.HQM.return_col tp <$> (Momentum.HQM.calc_scores df).1
           = Momentum.HQM.return_col tp <$> df)
  ∧ (∀ tp, Momentum.HQM.percentile_col tp <$> (Momentum.HQM.calc_scores df).1
           = Momentum.HQM.percentile_col tp <$> df).
Proof.
  split_and!; try (intros tp); apply calc_scores_frame; intros m r;
    try done; by destruct tp.
Qed.

(** ** The scores the score loop writes *)

(** X19: on a table that has no missing return the score loop ends without
    exception and the score it writes for a row is the mean of the four
    returns of the row, (y + s + t + m) / 4; the percentiles play no part. *)
Theorem scores_are_mean_of_returns (df : list Momentum.HQM.row) :
  Momentum.HQM.complete df →
  (Momentum.HQM.calc_scores df).2 = None
  ∧ Forall2 (λ r r', ∀ y s t m,
               Momentum.HQM.one_year_return r = Some y →
               Momentum.HQM.six_month_return r = Some s →
               Momentum.HQM.three_month_return r = Some t →
               Momentum.HQM.one_month_return r = Some m →
               ∃ q, Momentum.HQM.momentum_score r' = Some q
                  ∧ (q == (y + s + t + m) / 4)%Q)
      df (Momentum.HQM.calc_scores df).1.
Proof.
  intros Hc. rewrite (calc_scores_ok df Hc). split; [done|]. cbn [fst].
  apply Forall2_fmap_r, Forall_Forall2_diag, Forall_forall.
  intros r _ y s t m Hy Hs Ht Hm. eexists. split; [reflexivity|].
  unfold Momentum.HQM.time_periods. simpl. rewrite Hy, Hs, Ht, Hm.
  unfold sum, len. simpl. field.
Qed.

Lemma scores_are_mean_of_returns_witness :
  (Momentum.HQM.calc_scores Momentum.HQM.scenario_B).2 = None
  ∧ Forall2 (λ cell q, ∃ p, cell = Some p ∧ (p == q)%Q)
      (Momentum.HQM.momentum_score <$> (Momentum.HQM.calc_scores Momentum.HQM.scenario_B).1)
      [13 # 400; 26 # 400; 39 # 400; 42 # 400]%Q.
Proof.
  destruct (scores_are_mean_of_returns Momentum.HQM.scenario_B) as [Hrun _].
  - repeat constructor; intros []; simpl; eauto.
  - split; [exact Hrun|].
    repeat constructor; eexists; (split; [reflexivity|]); reflexivity.
Defined.

(** ** Sorting a table with missing values *)
Section sort_values_missing.
Context {row : Type} (kind : list Q → list nat) (col : row → option Q).

Lemma elem_of_zip_seq {A} (items : list A) (j n i : nat) (y : A) :
  (i, y) ∈ zip (seq j n) items → (j ≤ i)%nat ∧ items !! (i - j)%nat = Some y.
Proof.
  revert j n. induction items as [|x items IH]; intros j [|n] Hin; simpl in Hin;
    try by apply elem_of_nil in Hin.
  apply elem_of_cons in Hin as [[= -> ->]|Hin].
  - split; [lia|]. by rewrite Nat.sub_diag.
  - destruct (IH (S j) n Hin) as [Hle Hlk]. split; [lia|].
    replace (i - j)%nat with (S (i - S j)) by lia. done.
Qed.

(** The rows at the positions of the missing values are the rows with a
    missing value, in the order of the table. *)
Lemma missing_rows (df pre : list row) :
  omap ((pre ++ df) !!.)
       (omap (λ c : nat * option Q, if c.2 is None then Some c.1 else None)
             (zip (seq (length pre) (length df)) (col <$> df)))
  = filter (λ r, ¬ is_Some (col r)) df.
Proof.
  revert pre. induction df as [|r df IH]; intros pre; [done|].
  specialize (IH (pre ++ [r])).
  rewrite length_app, Nat.add_1_r, <- (assoc_L (++)) in IH. simpl in IH.
  simpl. destruct (col r) as [x|] eqn:Hr; simpl.
  - rewrite filter_cons_False by (rewrite Hr; intros H; apply H; eauto). exact IH.
  - rewrite list_lookup_middle by done.
    rewrite filter_cons_True by (rewrite Hr; by intros [? ?]).
    f_equal. exact IH.
Qed.

(** X20: sorting a table in descending order puts the rows with a missing
    value in the sort column after all the other rows, in the order they had
    in the table, whatever the sort kind does; the rows before them are rows
    of the table that have a value. *)
Theorem sort_values_missing_last (df : list row) :
  ∃ front,
    Pandas.sort_values kind col df = front ++ filter (λ r, ¬ is_Some (col r)) df
    ∧ Forall (λ r, r ∈ df ∧ is_Some (col r)) front.
Proof.
  unfold Pandas.sort_values, Pandas.nargsort.
  rewrite omap_app, length_fmap.
  pose proof (missing_rows df []) as Hmissing. simpl in Hmissing. rewrite Hmissing.
  eexists. split; [reflexivity|].
  apply Forall_forall. intros r Hr.
  apply list_elem_of_omap in Hr as (i & Hi & Hri).
  split; [by eapply list_elem_of_lookup_2|].
  apply elem_of_reverse, list_elem_of_omap in Hi as (k & _ & Hk).
  apply list_elem_of_lookup_2, elem_of_reverse, list_elem_of_fmap in Hk
    as ([i' x] & -> & Hc).
  apply list_elem_of_omap in Hc as ([i'' [y|]] & Hcell & Hy); simpl in Hy; [|done].
  injection Hy as -> ->. simpl in Hri.
  apply elem_of_zip_seq in Hcell as [_ Hlk]. rewrite Nat.sub_0_r in Hlk.
  rewrite list_lookup_fmap, Hri in Hlk. simpl in Hlk. injection Hlk as ->. eauto.
Qed.

End sort_values_missing.

(** ** The strings sent to the provider *)

(** X1: when no symbol of the list holds a comma, every batch comes back from
    its string: splitting at the commas the string that joins the symbols of
    a batch with commas gives the symbols of the batch, so the inner loops
    go through the symbols of the batches. *)
Theorem symbol_strings_round_trip (stocks : list string) (k : Z)
    (symbol_groups : list (list string)) :
  0 < k →
  Forall (λ symbol, Str.contains Str.comma symbol = false) stocks →
  chunks_generator stocks k = Ok symbol_groups →
  Str.split Str.comma <$> (Str.join (String Str.comma EmptyString) <$> symbol_groups)
  = symbol_groups.
Proof.
  intros Hk Hstocks Hgroups.
  pose proof (chunks_generator_batches stocks k symbol_groups Hk Hgroups) as Hb.
  rewrite <- list_fmap_compose. rewrite <- (list_fmap_id symbol_groups) at 2.
  apply list_fmap_ext. intros i g Hg. unfold compose. simpl.
  destruct (proj1 (Forall_forall _ _) Hb g (list_elem_of_lookup_2 _ _ _ Hg))
    as [Hne [j ->]].
  apply split_join; [done|]. by apply Forall_take, Forall_drop.
Qed.

Lemma symbol_strings_round_trip_witness :
  Str.split Str.comma
    <$> (Str.join (String Str.comma EmptyString)
           <$> [["A"; "AAL"]; ["AAP"; "AAPL"]; ["ABBV"]]%string)
  = [["A"; "AAL"]; ["AAP"; "AAPL"]; ["ABBV"]]%string
  ∧ Str.join (String Str.comma EmptyString) ["A"; "AAL"]%string = "A,AAL"%string.
Proof.
  split; [|reflexivity].
  apply (symbol_strings_round_trip ["A"; "AAL"; "AAP"; "AAPL"; "ABBV"]%string 2).
  - lia.
  - repeat constructor.
  - reflexivity.
Defined.
